(** * GPX splitter ([GPX-Splitter/split_gpx.py]): a shallow embedding

    The script splits a GPX document into one document per [<trk>], gives
    every track a display colour taken from a generated palette, adds a
    [<bounds>] element and writes all [<wpt>] elements to one extra file.

    Conventions of the embedding:
    - A Python [str] is a [string]; one [ascii] stands for one code point
      (code points below 256).
    - A Python [float] is a primitive binary64 [float]; the operations are
      the kernel's IEEE 754 ones.
    - An [xml.etree.ElementTree.Element] is the inductive [Element], with
      its tag, attributes, text, tail and children; the in-place mutators
      of the script are functions returning the element after the
      mutation, and the orchestrator keeps the parse tree in its state and
      writes every mutation of a child back at the child's index.
    - Exceptions are the [Raise] outcome of the type [outcome]; loops whose
      termination the source does not bound take fuel.
    - What a run does to the world outside (making the folder, printing,
      writing a tree to a path) is recorded, in order, as a list of
      [Effect]s; the operating system decides which of these calls raise,
      so a run takes the exceptions of [os.makedirs] and of
      [ElementTree.write] from its environment, and an exception ends the
      run with the effects it had until then.
    - The builtins [float(s)], [f"{x}"] and the serialise-and-parse copy
      [ET.fromstring(ET.tostring(e))] are parameters of the script. *)

From Stdlib Require Import ZArith Ascii String Floats.
From stdpp Require Import base option list sets strings pretty.

Local Open Scope string_scope.
Local Open Scope Z_scope.
Local Open Scope list_scope.

(** ** Outcomes of fallible code *)

Inductive outcome (A : Type) : Type :=
  | Done (a : A)
  | Raise (exn : string)
  | OutOfFuel.
Arguments Done {A} a.
Arguments Raise {A} exn.
Arguments OutOfFuel {A}.

#[global] Instance outcome_ret : MRet outcome := fun A a => Done a.
#[global] Instance outcome_bind : MBind outcome := fun A B k m =>
  match m with
  | Done a => k a
  | Raise e => Raise e
  | OutOfFuel => OutOfFuel
  end.
#[global] Instance outcome_fmap : FMap outcome := fun A B f m =>
  match m with
  | Done a => Done (f a)
  | Raise e => Raise e
  | OutOfFuel => OutOfFuel
  end.

(** ** Python numbers *)

Module Py.

(** The conversion of an [int] to [float] ([float(i)], and what the
    arithmetic of a [float] with an [int] does to the [int] first): the
    binary64 value nearest to the integer, ties to even; [OverflowError]
    when that rounding leaves the finite range, which it does from
    [2^1024 - 2^970] on. *)
Definition float_of_int (z : Z) : outcome float :=
  match binary_normalize prec emax z 0 false with
  | S754_infinity _ => Raise "OverflowError"
  | x => Done (SF2Prim x)
  end.

(** [x / i] for a [float] [x] and an [int] [i]: the [int] is converted,
    then a zero divisor raises. *)
Definition truediv (x : float) (i : Z) : outcome float :=
  d ← float_of_int i;
  if i =? 0 then Raise "ZeroDivisionError" else Done (x / d)%float.

(** [x - i] for a [float] [x] and an [int] [i]. *)
Definition sub (x : float) (i : Z) : outcome float :=
  d ← float_of_int i; Done (x - d)%float.

(** [int(x)]: truncation towards zero; [ValueError] on a NaN and
    [OverflowError] on an infinity. *)
Definition int_of_float (x : float) : outcome Z :=
  match Prim2SF x with
  | S754_zero _ => Done 0
  | S754_nan => Raise "ValueError"
  | S754_infinity _ => Raise "OverflowError"
  | S754_finite s m e =>
      let mag := if 0 <=? e then Z.shiftl (Z.pos m) e
                 else Z.shiftr (Z.pos m) (- e) in
      Done (if s then - mag else mag)
  end.

Definition hex_digit (d : Z) : ascii :=
  ascii_of_nat (Z.to_nat (if d <? 10 then 48 + d else 55 + d)).

Fixpoint hex_digits_pos (fuel : nat) (z : Z) (acc : string) : string :=
  match fuel with
  | O => acc
  | S fuel' =>
      let acc' := String (hex_digit (z mod 16)) acc in
      if z / 16 =? 0 then acc' else hex_digits_pos fuel' (z / 16) acc'
  end.

(** The digits of [format(z, 'X')] for [0 <= z]. *)
Definition hex_upper (z : Z) : string :=
  hex_digits_pos (S (Z.to_nat (Z.log2 z))) z "".

(** ['{:02X}'.format(z)]: upper-case hexadecimal, sign-aware zero padding
    to width two. *)
Definition format_02X (z : Z) : string :=
  if z <? 0 then "-" +:+ hex_upper (- z)
  else let d := hex_upper z in
       if (String.length d <? 2)%nat then "0" +:+ d else d.

End Py.

(** ** [colorsys.hsv_to_rgb] (CPython standard library) *)

Module colorsys.

Definition hsv_to_rgb (h s v : float) : outcome (float * float * float) :=
  if (s =? 0)%float then Done (v, v, v)
  else
    i ← Py.int_of_float (h * 6)%float;
    f ← Py.sub (h * 6)%float i;
    let p := (v * (1 - s))%float in
    let q := (v * (1 - s * f))%float in
    let t := (v * (1 - s * (1 - f)))%float in
    let i := i mod 6 in
    if i =? 0 then Done (v, t, p)
    else if i =? 1 then Done (q, v, p)
    else if i =? 2 then Done (p, v, t)
    else if i =? 3 then Done (p, q, v)
    else if i =? 4 then Done (t, p, v)
    else Done (v, p, q).

End colorsys.

(** ** The palette: [generate_safe_colors] *)

(** The test of lines 43-47: yellow, green and light blue hue bands. *)
Definition banned (hue_deg : float) : bool :=
  ((50 <=? hue_deg)%float && (hue_deg <=? 70)%float)
  || ((100 <=? hue_deg)%float && (hue_deg <=? 140)%float)
  || ((180 <=? hue_deg)%float && (hue_deg <=? 210)%float).

(** The double that the literal [0.85] denotes. *)
Definition v085 : float := 0x1.b333333333333p-1%float.

(** Lines 49-50: the colour of an accepted hue. *)
Definition hex_of_hue (hue_deg : float) : outcome string :=
  rgb ← colorsys.hsv_to_rgb (hue_deg / 360)%float 1%float v085;
  let '(r, g, b) := rgb in
  ri ← Py.int_of_float (r * 255)%float;
  gi ← Py.int_of_float (g * 255)%float;
  bi ← Py.int_of_float (b * 255)%float;
  Done ("#" +:+ Py.format_02X ri +:+ Py.format_02X gi +:+ Py.format_02X bi).

(** The [while len(colors) < n] loop of lines 42-54; one unit of fuel per
    iteration. *)
Fixpoint safe_colors_loop (fuel : nat) (n : Z) (step hue_deg : float)
    (colors : list string) : outcome (list string) :=
  if Z.of_nat (length colors) <? n then
    match fuel with
    | O => OutOfFuel
    | S fuel' =>
        colors' ← (if banned hue_deg then Done colors
                   else hex_color ← hex_of_hue hue_deg;
                        Done (colors ++ [hex_color]));
        let hue_deg := (hue_deg + step)%float in
        let hue_deg := if (360 <=? hue_deg)%float then (hue_deg - 360)%float
                       else hue_deg in
        safe_colors_loop fuel' n step hue_deg colors'
    end
  else Done colors.

Definition generate_safe_colors (fuel : nat) (n : Z) : outcome (list string) :=
  step ← Py.truediv 360%float n;
  safe_colors_loop fuel n step 0%float [].

(** [COLORS = generate_safe_colors(8)] (line 57). *)
Definition COLORS : list string :=
  Eval vm_compute in
    match generate_safe_colors 16 8 with Done l => l | _ => [] end.

(** ** Python strings *)

Module Str.

Definition truthy (s : string) : bool :=
  match s with EmptyString => false | String _ _ => true end.

Fixpoint map (f : ascii -> ascii) (s : string) : string :=
  match s with
  | EmptyString => EmptyString
  | String c s' => String (f c) (map f s')
  end.

Fixpoint forallb (p : ascii -> bool) (s : string) : bool :=
  match s with
  | EmptyString => true
  | String c s' => p c && forallb p s'
  end.

Fixpoint lstrip (p : ascii -> bool) (s : string) : string :=
  match s with
  | EmptyString => EmptyString
  | String c s' => if p c then lstrip p s' else s
  end.

Fixpoint rstrip (p : ascii -> bool) (s : string) : string :=
  match s with
  | EmptyString => EmptyString
  | String c s' =>
      match rstrip p s' with
      | EmptyString => if p c then EmptyString else String c EmptyString
      | r => String c r
      end
  end.

(** [s.strip(chars)] with the characters to strip given as a predicate. *)
Definition strip (p : ascii -> bool) (s : string) : string :=
  rstrip p (lstrip p s).

Definition code (c : ascii) : N := N_of_ascii c.

(** [str.isspace] on one code point below 256. *)
Definition is_space (c : ascii) : bool :=
  let n := code c in
  ((9 <=? n) && (n <=? 13) || (28 <=? n) && (n <=? 32)
   || (n =? 133) || (n =? 160))%N.

Definition is_char (a c : ascii) : bool := (code a =? code c)%N.

(** [s.replace(a, b)] for single characters [a] and [b]. *)
Definition replace_char (a b : ascii) (s : string) : string :=
  map (fun c => if is_char a c then b else c) s.

(** Split at the last occurrence of [c] (the character itself dropped). *)
Fixpoint rsplit (c : ascii) (s : string) : option (string * string) :=
  match s with
  | EmptyString => None
  | String a s' =>
      match rsplit c s' with
      | Some (h, t) => Some (String a h, t)
      | None => if is_char c a then Some (EmptyString, s') else None
      end
  end.

Definition endswith_char (c : ascii) (s : string) : bool :=
  match rsplit c s with
  | Some (_, EmptyString) => true
  | _ => false
  end.

Definition startswith_char (c : ascii) (s : string) : bool :=
  match s with
  | String a _ => is_char c a
  | EmptyString => false
  end.

End Str.

(** ** [sanitize_filename] (lines 59-65) *)

(** The class [[A-Za-z0-9 _-]] of the regular expression. *)
Definition allowed_char (c : ascii) : bool :=
  let n := Str.code c in
  ((65 <=? n) && (n <=? 90) || (97 <=? n) && (n <=? 122)
   || (48 <=? n) && (n <=? 57)
   || (n =? 32) || (n =? 95) || (n =? 45))%N.

(** [re.sub(r'[^A-Za-z0-9 _-]', '_', name)]. *)
Definition re_sub_disallowed (name : string) : string :=
  Str.map (fun c => if allowed_char c then c else "_"%char) name.

Definition sanitize_filename (name : string) : string :=
  if negb (Str.truthy name) then "deelroute"
  else
    let sanitized := re_sub_disallowed name in
    let sanitized :=
      Str.strip (Str.is_char "_") (Str.replace_char " " "_" sanitized) in
    if Str.truthy sanitized then sanitized else "deelroute".

(** ** [os.path] (the POSIX flavour, [posixpath]) *)

Module os_path.

Definition sep : ascii := "/"%char.

Definition basename (p : string) : string :=
  match Str.rsplit sep p with
  | Some (_, t) => t
  | None => p
  end.

Definition dirname (p : string) : string :=
  match Str.rsplit sep p with
  | None => ""
  | Some (h, _) =>
      let head := h +:+ "/" in
      if Str.forallb (Str.is_char sep) head then head
      else Str.rstrip (Str.is_char sep) head
  end.

(** [splitext]: the extension starts at the last dot of the last path
    component, unless only dots precede it there. *)
Definition splitext (p : string) : string * string :=
  let '(dir, file) :=
    match Str.rsplit sep p with
    | Some (h, t) => (h +:+ "/", t)
    | None => ("", p)
    end in
  match Str.rsplit "." file with
  | Some (stem, ext) =>
      if Str.forallb (Str.is_char ".") stem then (p, "")
      else (dir +:+ stem, "." +:+ ext)
  | None => (p, "")
  end.

(** [os.path.join(a, b)]. *)
Definition join (a b : string) : string :=
  if Str.startswith_char sep b then b
  else if negb (Str.truthy a) || Str.endswith_char sep a then a +:+ b
  else a +:+ "/" +:+ b.

End os_path.

(** ** [xml.etree.ElementTree] elements *)

(** Lines 32-33. *)
Definition GPX_NS : string := "http://www.topografix.com/GPX/1/1".
Definition GARMIN_GPXX_NS : string :=
  "http://www.garmin.com/xmlschemas/GpxExtensions/v3".

(** The tag [{uri}local] that the parser gives a namespaced element, and
    that [find] and [findall] derive from [prefix:local] and the [ns] map. *)
Definition qname (uri local : string) : string :=
  "{" +:+ uri +:+ "}" +:+ local.

Local Unset Elimination Schemes.

(** An element: tag, attribute dictionary (in insertion order), text,
    tail (the text between the end of the element and the next sibling or
    the end of the parent) and children. The script never reads or sets a
    tail, but [ET.tostring] writes it after the element, so it is part of
    what the copies of lines 147 and 201 serialise. *)
Inductive Element : Type :=
  Elem { tag : string;
         attrib : list (string * string);
         text : option string;
         tail : option string;
         children : list Element }.

Local Set Elimination Schemes.

Section Element_ind.
Variable P : Element -> Prop.
Hypothesis P_Elem :
  forall t a x tl cs, Forall P cs -> P (Elem t a x tl cs).

Fixpoint Element_ind (e : Element) : P e :=
  match e with
  | Elem t a x tl cs =>
      P_Elem t a x tl cs
        ((fix go (l : list Element) : Forall P l :=
            match l with
            | [] => List.Forall_nil P
            | c :: l' => List.Forall_cons P c l' (Element_ind c) (go l')
            end) cs)
  end.
End Element_ind.

Module ET.

(** [ET.Element(tag)]. *)
Definition Element_new (t : string) : Element := Elem t [] None None [].

Definition has_tag (t : string) (e : Element) : bool :=
  bool_decide (tag e = t).

(** [elem.get(key)]. *)
Fixpoint get_attr (key : string) (a : list (string * string)) : option string :=
  match a with
  | [] => None
  | (k, v) :: a' => if bool_decide (k = key) then Some v else get_attr key a'
  end.
Definition get (key : string) (e : Element) : option string :=
  get_attr key (attrib e).

(** [elem.text = txt]. *)
Definition set_text (txt : string) (e : Element) : Element :=
  Elem (tag e) (attrib e) (Some txt) (tail e) (children e).

(** [elem.append(c)] and [elem.insert(0, c)]. *)
Definition append (c : Element) (e : Element) : Element :=
  Elem (tag e) (attrib e) (text e) (tail e) (children e ++ [c]).
Definition insert0 (c : Element) (e : Element) : Element :=
  Elem (tag e) (attrib e) (text e) (tail e) (c :: children e).

(** In-place mutation of the child at index [i]: the element with that
    child replaced by its state after the mutation [f]. *)
Definition with_child (i : nat) (f : Element -> Element) (e : Element) : Element :=
  Elem (tag e) (attrib e) (text e) (tail e) (alter f i (children e)).

(** [elem.find(t)] for a tag (no path): position and value of the first
    child with that tag. *)
Definition find (t : string) (e : Element) : option (nat * Element) :=
  list_find (fun c => tag c = t) (children e).

(** [elem.findall(t)] for a tag (no path): the positions of the children
    with that tag, in document order (the list of references the loop of
    [split_gpx] walks). *)
Fixpoint positions_from (t : string) (i : nat) (cs : list Element) : list nat :=
  match cs with
  | [] => []
  | c :: cs' =>
      if has_tag t c then i :: positions_from t (S i) cs'
      else positions_from t (S i) cs'
  end.
Definition findall_pos (t : string) (e : Element) : list nat :=
  positions_from t 0 (children e).

(** [elem.findall(t)] as values. *)
Definition findall (t : string) (e : Element) : list Element :=
  List.filter (has_tag t) (children e).

(** The proper descendants of an element in document order (what
    [elem.iter()] yields after the element itself). *)
Fixpoint descendants (e : Element) : list Element :=
  match e with
  | Elem _ _ _ _ cs =>
      (fix go (l : list Element) : list Element :=
         match l with
         | [] => []
         | c :: l' => c :: descendants c ++ go l'
         end) cs
  end.

(** [elem.findall('.//' + t)]. *)
Definition findall_desc (t : string) (e : Element) : list Element :=
  List.filter (has_tag t) (descendants e).

(** [d = elem.find('.//' + t)] followed by an in-place mutation [f] of
    [d]: the element after the mutation, or [None] when [find] returns
    [None]. The search is in document order: a child before its own
    descendants, these before the next child. *)
Fixpoint update_first_desc (t : string) (f : Element -> Element)
    (e : Element) : option Element :=
  match e with
  | Elem tg a x tl cs =>
      option_map (Elem tg a x tl)
        ((fix go (l : list Element) : option (list Element) :=
            match l with
            | [] => None
            | c :: l' =>
                if has_tag t c then Some (f c :: l')
                else match update_first_desc t f c with
                     | Some c' => Some (c' :: l')
                     | None => option_map (cons c) (go l')
                     end
            end) cs)
  end.

End ET.

(** ** Colour injection *)

(** [e.find(t)], and when that is [None], [ET.Element(t)] appended to [e]:
    the element after the step and the position of the child found or
    created (lines 69-72 and 73-76). *)
Definition find_or_append (t : string) (e : Element) : Element * nat :=
  match ET.find t e with
  | Some (i, _) => (e, i)
  | None => (ET.append (ET.Element_new t) e, length (children e))
  end.

(** Lines 67-77. *)
Definition add_standard_display_color (track_elem : Element)
    (hex_color : string) : Element :=
  let '(track_elem, i) := find_or_append "extensions" track_elem in
  ET.with_child i
    (fun std_ext =>
       let '(std_ext, j) := find_or_append "display_color" std_ext in
       ET.with_child j (ET.set_text hex_color) std_ext)
    track_elem.

Definition gpxt_DisplayColor : string := qname GARMIN_GPXX_NS "DisplayColor".

(** Lines 95-98: the block that is appended when no vendor colour exists. *)
Definition gpxt_block (hex_color : string) : Element :=
  Elem (qname GPX_NS "extensions") [] None None
    [Elem (qname GARMIN_GPXX_NS "TrackExtension") [] None None
       [Elem gpxt_DisplayColor [] (Some hex_color) None []]].

(** Lines 79-99. *)
Definition add_or_update_gpxt_display_color (track_elem : Element)
    (hex_color : string) : Element :=
  match ET.update_first_desc gpxt_DisplayColor (ET.set_text hex_color)
          track_elem with
  | Some track_elem' => track_elem'
  | None => ET.append (gpxt_block hex_color) track_elem
  end.

(** ** Bounds *)

(** [min(l)] and [max(l)] of a non-empty list whose first element is
    [cur]: the builtins keep the first extremal element and replace it
    only on a strict comparison. *)
Definition py_min (cur : float) (l : list float) : float :=
  foldl (fun cur item => if (item <? cur)%float then item else cur) cur l.
Definition py_max (cur : float) (l : list float) : float :=
  foldl (fun cur item => if (cur <? item)%float then item else cur) cur l.

(** ** The world outside *)

(** What [ET.parse(path)] does: a tree, [ET.ParseError], or another
    exception (an unreadable file), each with its message. *)
Inductive ParseResult : Type :=
  | Parsed (root : Element)
  | ParseError (e : string)
  | OtherError (e : string).

(** What a run does to the world outside: a call of
    [os.makedirs(path, exist_ok=True)], of [print(line)] or of
    [ET.ElementTree(doc).write(path, ...)], recorded when it is made,
    whether it then returns or raises. A write is recorded with the path
    as the script spells it and the tree it hands over; which file the
    path names and which bytes the library writes for the tree are not
    part of the record. *)
Inductive Effect : Type :=
  | MakeDirs (path : string)
  | Print (line : string)
  | WriteTree (path : string) (doc : Element).

(** The environment of a run: the clock, read once and formatted with
    [strftime("%Y%m%d_%H%M%S")]; the parser on the files present; and
    the exception, if any, with which a call of [os.makedirs], [print] or
    [ElementTree.write] ends, given the calls made before it (a parent
    that is no directory or is not writable, a name that is too long, a
    full disk, a line the output stream cannot encode). *)
Record Env : Type := {
  now : string;
  parse : string -> ParseResult;
  makedirs_error : list Effect -> string -> option string;
  print_error : list Effect -> string -> option string;
  write_error : list Effect -> string -> Element -> option string
}.

(** Code that acts on the world: from the calls made so far to the calls
    made afterwards and a result or an exception. *)
Definition IO (A : Type) : Type := list Effect -> list Effect * outcome A.

#[global] Instance IO_ret : MRet IO := fun A a t => (t, Done a).
#[global] Instance IO_bind : MBind IO := fun A B k m t =>
  match m t with
  | (t', Done a) => k a t'
  | (t', Raise e) => (t', Raise e)
  | (t', OutOfFuel) => (t', OutOfFuel)
  end.

(** Code without effects, run for its result or its exception. *)
Definition lift {A : Type} (o : outcome A) : IO A := fun t => (t, o).

(** A call to the world outside: it is recorded, and it returns unless
    the environment has an exception for it. *)
Definition call (ev : Effect) (error : list Effect -> option string)
    : IO unit :=
  fun t =>
    (t ++ [ev],
     match error t with
     | Some exn => Raise exn
     | None => Done tt
     end).

(** [print(line)]. *)
Definition print (env : Env) (line : string) : IO unit :=
  call (Print line) (fun t => print_error env t line).

(** [os.makedirs(d, exist_ok=True)]. *)
Definition makedirs (env : Env) (d : string) : IO unit :=
  call (MakeDirs d) (fun t => makedirs_error env t d).

(** [ET.ElementTree(doc).write(path, encoding='utf-8',
    xml_declaration=True)]. *)
Definition write (env : Env) (path : string) (doc : Element) : IO unit :=
  call (WriteTree path doc) (fun t => write_error env t path doc).

Section Script.

(** [float(s)] on a string: [None] stands for [ValueError]. *)
Variable float_of_str : string -> option float.
(** [f"{x}"] on a float. *)
Variable str_of_float : float -> string.
(** [ET.fromstring(ET.tostring(e, encoding='utf-8'))]: the element read
    back from the serialisation of [e], or the exception of the parser
    ([ParseError] when [e] has a tail that is not white space only, which
    [tostring] writes after the element). *)
Variable fromstring_tostring : Element -> outcome Element.

Definition opt_truthy (o : option string) : bool :=
  match o with
  | Some s => Str.truthy s
  | None => false
  end.

(** The body of the loop of lines 106-114 on the lists [lats], [lons]. *)
Definition bounds_step (acc : list float * list float) (pt : Element)
    : list float * list float :=
  let '(lats, lons) := acc in
  let lat := ET.get "lat" pt in
  let lon := ET.get "lon" pt in
  if opt_truthy lat && opt_truthy lon then
    match float_of_str (default "" lat) with
    | None => (lats, lons)                 (* ValueError in [float(lat)] *)
    | Some la =>
        let lats := lats ++ [la] in
        match float_of_str (default "" lon) with
        | None => (lats, lons)             (* ValueError in [float(lon)] *)
        | Some lo => (lats, lons ++ [lo])
        end
    end
  else (lats, lons).

Definition collect_coords (trkpts : list Element) : list float * list float :=
  foldl bounds_step ([], []) trkpts.

(** Lines 101-117. *)
Definition calculate_bounds (track_elem : Element)
    : option (float * float * float * float) :=
  let trkpts := ET.findall_desc (qname GPX_NS "trkpt") track_elem in
  match collect_coords trkpts with
  | (la :: lats, lo :: lons) =>
      Some (py_min la lats, py_min lo lons, py_max la lats, py_max lo lons)
  | _ => None
  end.

(** Lines 119-129. *)
Definition add_bounds (track_elem : Element)
    (bounds : option (float * float * float * float)) : Element :=
  match bounds with
  | Some (minlat, minlon, maxlat, maxlon) =>
      let bounds_elem :=
        Elem "bounds"
          [("minlat", str_of_float minlat); ("minlon", str_of_float minlon);
           ("maxlat", str_of_float maxlat); ("maxlon", str_of_float maxlon)]
          None None [] in
      ET.insert0 bounds_elem track_elem
  | None => track_elem
  end.

(** ** The orchestrator *)

(** Lines 139-145 and 194-200: the root of an output document. *)
Definition new_gpx_root (content : list Element) : Element :=
  Elem "gpx"
    [("version", "1.1"); ("creator", "GPX Splitter Script");
     ("xmlns", GPX_NS); ("xmlns:gpx", GPX_NS);
     ("xmlns:gpxt", GARMIN_GPXX_NS)]
    None None content.

(** Lines 131-152. The copies are made one by one, in order, before the
    document is written. *)
Definition write_all_waypoints (env : Env) (root : Element)
    (target_folder : string) : IO unit :=
  let wpts := ET.findall (qname GPX_NS "wpt") root in
  match wpts with
  | [] =>
      print env
        "Geen <wpt> waypoints gevonden; All-Waypoints.gpx niet aangemaakt."
  | _ :: _ =>
      copies ← lift (mapM fromstring_tostring wpts);
      let doc := new_gpx_root copies in
      let output_path := os_path.join target_folder "All-Waypoints.gpx" in
      _ ← write env output_path doc;
      print env (pretty (length wpts) +:+ " waypoints opgeslagen in: "
                 +:+ output_path)
  end.

(** Lines 178-179. *)
Definition track_name (idx : nat) (track : Element) : string :=
  match ET.find (qname GPX_NS "name") track with
  | Some (_, name_elem) =>
      match text name_elem with
      | Some s =>
          if Str.truthy s then Str.strip Str.is_space s
          else "deelroute_" +:+ pretty idx
      | None => "deelroute_" +:+ pretty idx
      end
  | None => "deelroute_" +:+ pretty idx
  end.

(** Lines 180 and 204. *)
Definition output_path (target_folder : string) (idx : nat)
    (track : Element) : string :=
  let safe_name := sanitize_filename (track_name idx track) in
  os_path.join target_folder (safe_name +:+ ".gpx").

(** Line 183: [COLORS[(idx - 1) % len(COLORS)]]. *)
Definition chosen_color (idx : nat) : outcome string :=
  match length COLORS with
  | O => Raise "ZeroDivisionError"
  | S _ =>
      match COLORS !! ((idx - 1) `mod` length COLORS)%nat with
      | Some c => Done c
      | None => Raise "IndexError"
      end
  end.

(** Lines 186-191: the mutations of one track, in order. *)
Definition annotate (chosen_color_hex : string) (track : Element) : Element :=
  let track := add_standard_display_color track chosen_color_hex in
  let track := add_or_update_gpxt_display_color track chosen_color_hex in
  let bounds := calculate_bounds track in
  add_bounds track bounds.

(** One iteration of the loop of lines 176-205. [i] is the position in
    [root] of the element [track] refers to; the element is mutated in
    place, so its final state is the child of [root] afterwards. The copy
    of line 201 is taken after the mutations and can raise; so can the
    write of line 205. The result is the tree after the iteration. *)
Definition split_track (env : Env) (target_folder : string) (idx i : nat)
    (root : Element) : IO Element :=
  match children root !! i with
  | None => lift (Raise "dangling track reference")
  | Some track =>
      let path := output_path target_folder idx track in
      chosen_color_hex ← lift (chosen_color idx);
      let track := annotate chosen_color_hex track in
      let root := ET.with_child i (fun _ => track) root in
      track_copy ← lift (fromstring_tostring track);
      let doc := new_gpx_root [track_copy] in
      _ ← write env path doc;
      mret root
  end.

(** [for idx, track in enumerate(tracks, start=idx)]. *)
Fixpoint track_loop (env : Env) (target_folder : string) (idx : nat)
    (tracks : list nat) (root : Element) : IO Element :=
  match tracks with
  | [] => mret root
  | i :: tracks' =>
      root ← split_track env target_folder idx i root;
      track_loop env target_folder (S idx) tracks' root
  end.

(** Lines 156-158. *)
Definition target_folder_of (input_gpx_path timestamp : string) : string :=
  let base_name := (os_path.splitext (os_path.basename input_gpx_path)).1 in
  os_path.join (os_path.dirname input_gpx_path)
    (base_name +:+ "_" +:+ timestamp).

(** Lines 154-211. The folder is made before the [try] that guards the
    parse, so an exception of [os.makedirs] ends the run before anything
    is read or reported. A run that returns gives the parse tree as it is
    in memory then ([None] when nothing was parsed). *)
Definition split_gpx (env : Env) (input_gpx_path : string)
    : IO (option Element) :=
  let target_folder := target_folder_of input_gpx_path (now env) in
  _ ← makedirs env target_folder;
  match parse env input_gpx_path with
  | ParseError e =>
      _ ← print env
            ("Fout: Het GPX-bestand kon niet worden geparsed: " +:+ e);
      mret None
  | OtherError e =>
      _ ← print env
            ("Onverwachte fout bij het lezen van het GPX-bestand: " +:+ e);
      mret None
  | Parsed root =>
      let tracks := ET.findall_pos (qname GPX_NS "trk") root in
      root ← match tracks with
              | [] =>
                  _ ← print env
                        "Geen <trk> deelroutes gevonden in het GPX-bestand.";
                  mret root
              | _ :: _ =>
                  root ← track_loop env target_folder 1 tracks root;
                  _ ← print env
                        (pretty (length tracks)
                         +:+ " deelroutes zijn succesvol gesplitst en opgeslagen in: "
                         +:+ target_folder);
                  mret root
              end;
      _ ← write_all_waypoints env root target_folder;
      mret (Some root)
  end.

(** Lines 227-245, from the parsed arguments on: [input] is [args.input],
    [None] when the option was not given; [help_text] is what
    [build_help_text()] returns, [argparse_help] what
    [parser.print_help()] prints, [isfile] is [os.path.isfile]. *)
Definition main (help_text argparse_help : string) (isfile : string -> bool)
    (env : Env) (input : option string) : IO (option Element) :=
  if negb (opt_truthy input) then
    _ ← print env help_text;
    _ ← print env argparse_help;
    mret None
  else
    let path := default "" input in
    if negb (isfile path) then
      _ ← print env ("Fout: Het opgegeven GPX-bestand bestaat niet."
                     +:+ String "010"%char "");
      _ ← print env help_text;
      mret None
    else split_gpx env path.

End Script.

(** ** Instances of the builtins for concrete runs *)

Module Sample.

Definition digit_value (c : ascii) : option Z :=
  let n := Z.of_N (Str.code c) in
  if (48 <=? n) && (n <=? 57) then Some (n - 48) else None.

Fixpoint digits_value (acc : Z) (s : string) : option Z :=
  match s with
  | EmptyString => Some acc
  | String c s' =>
      match digit_value c with
      | Some d => digits_value (10 * acc + d) s'
      | None => None
      end
  end.

(** [float(s)] on the strings of the examples: it agrees with the builtin
    on a string of one to fifteen decimal digits, on ["nan"], and on every
    string the builtin rejects; the other spellings the builtin accepts
    (signs, fractions, exponents, surrounding blanks) are not covered. *)
Definition float_of_str (s : string) : option float :=
  if bool_decide (s = "nan") then Some PrimFloat.nan
  else if Str.truthy s && (String.length s <=? 15)%nat then
    z ← digits_value 0 s;
    match Py.float_of_int z with
    | Done x => Some x
    | _ => None
    end
  else None.

(** [f"{x}"] on the floats of the examples: it agrees with the builtin on
    NaN and on the integral values from 1 up to 10^15. *)
Definition str_of_float (x : float) : string :=
  match Py.int_of_float x with
  | Done z => pretty z +:+ ".0"
  | _ => "nan"
  end.

(** A space, tab, line feed or carriage return. *)
Definition is_xml_space (c : ascii) : bool :=
  let n := Str.code c in ((n =? 32) || (n =? 9) || (n =? 10) || (n =? 13))%N.

Definition nonempty (x : option string) : option string :=
  match x with
  | Some s => if Str.truthy s then Some s else None
  | None => None
  end.

(** What is read back for an element below the one serialised: a text or
    tail of no characters is written as nothing and read back as
    [None]. *)
Fixpoint read_back (e : Element) : Element :=
  match e with
  | Elem t a x tl cs =>
      Elem t a (nonempty x) (nonempty tl) (List.map read_back cs)
  end.

(** [ET.fromstring(ET.tostring(e, encoding='utf-8'))] on the elements of
    the examples, whose texts, tails and attribute values hold no tab, line
    break or carriage return (attributes are written in insertion order,
    as Python 3.8 and later do): the tail of [e] is written after the
    element, so a tail that is not white space only makes the parser raise
    [ParseError]; otherwise the result is a copy of [e] without tail. *)
Definition fromstring_tostring (e : Element) : outcome Element :=
  if Str.forallb is_xml_space (default "" (tail e)) then
    Done (Elem (tag e) (attrib e) (nonempty (text e)) None
            (List.map read_back (children e)))
  else Raise "ParseError: junk after document element".

Definition trkpt (lat lon : string) : Element :=
  Elem (qname GPX_NS "trkpt") [("lat", lat); ("lon", lon)] None None [].

Definition trk (name : option string) (pts : list Element) : Element :=
  Elem (qname GPX_NS "trk") [] None None
    (match name with
     | Some s => [Elem (qname GPX_NS "name") [] (Some s) None []]
     | None => []
     end ++ [Elem (qname GPX_NS "trkseg") [] None None pts]).

Definition wpt (lat lon : string) : Element :=
  Elem (qname GPX_NS "wpt") [("lat", lat); ("lon", lon)] None None [].

Definition gpx (content : list Element) : Element :=
  Elem (qname GPX_NS "gpx") [("version", "1.1")] None None content.

(** A run at 2024-05-01 12:00:00 in which every path holds [doc] and no
    call to the world outside raises. *)
Definition env_with (doc : ParseResult) : Env :=
  {| now := "20240501_120000";
     parse := fun _ => doc;
     makedirs_error := fun _ _ => None;
     print_error := fun _ _ => None;
     write_error := fun _ _ _ => None |}.

(** The same run in a directory that is not writable. *)
Definition env_read_only (doc : ParseResult) : Env :=
  {| now := "20240501_120000";
     parse := fun _ => doc;
     makedirs_error := fun _ _ =>
       Some "PermissionError: [Errno 13] Permission denied";
     print_error := fun _ _ => None;
     write_error := fun _ _ _ =>
       Some "PermissionError: [Errno 13] Permission denied" |}.

(** The same run on a file system whose file names hold at most 255
    bytes. *)
Definition env_name_max (doc : ParseResult) : Env :=
  {| now := "20240501_120000";
     parse := fun _ => doc;
     makedirs_error := fun _ _ => None;
     print_error := fun _ _ => None;
     write_error := fun _ path _ =>
       if (255 <? String.length (os_path.basename path))%nat
       then Some "OSError: [Errno 36] File name too long"
       else None |}.

Definition split (env : Env) : list Effect * outcome (option Element) :=
  split_gpx float_of_str str_of_float fromstring_tostring env
    "/data/tour.gpx" [].

Definition run (doc : ParseResult)
    : list Effect * outcome (option Element) :=
  split (env_with doc).

End Sample.

(** * Properties *)

(** ** The order of binary64 values that are not NaN *)

Module FloatOrder.

Definition not_nan (x : float) : Prop := PrimFloat.is_nan x = false.

Ltac cmp_case c :=
  lazymatch c with
  | CompOpp ?c' => cmp_case c'
  | _ ?a ?b =>
      let H := fresh in
      lazymatch type of a with
      | Z => pose proof (Z.compare_spec a b) as H;
             change (Z.compare a b) with c in H; destruct H
      | positive =>
             pose proof (Pos.compare_spec a b) as H;
             change (Pos.compare a b) with c in H; destruct H
      end
  end.

Ltac cmp_cases :=
  repeat match goal with
    | s : bool |- _ => destruct s
    | |- context [match ?c with Eq => _ | Lt => _ | Gt => _ end] => cmp_case c
    | H : context [match ?c with Eq => _ | Lt => _ | Gt => _ end] |- _ =>
        cmp_case c
    | |- context [PosDef.Pos.compare_cont Eq ?a ?b] =>
        cmp_case (PosDef.Pos.compare_cont Eq a b)
    end;
  simpl in *; try congruence; try lia.

Lemma SFcompare_refl (x : spec_float) :
  x <> S754_nan -> SFcompare x x = Some Eq.
Proof.
  destruct x as [s| s | |s m e]; intros Hx; try congruence; simpl; cmp_cases.
Qed.

Lemma not_nan_SF (x : float) : not_nan x -> Prim2SF x <> S754_nan.
Proof.
  unfold not_nan, PrimFloat.is_nan. rewrite FloatAxioms.eqb_spec. unfold SFeqb.
  intros H E. rewrite E in H. discriminate H.
Qed.

Lemma leb_refl (x : float) : not_nan x -> (x <=? x)%float = true.
Proof.
  intros H. rewrite FloatAxioms.leb_spec. unfold SFleb.
  rewrite SFcompare_refl by (apply not_nan_SF; exact H). reflexivity.
Qed.

Lemma SF_not_lt_le (x y : spec_float) :
  x <> S754_nan -> y <> S754_nan -> SFltb x y = false -> SFleb y x = true.
Proof.
  unfold SFltb, SFleb.
  destruct x as [? | ? | | ? mx ex], y as [? | ? | | ? my ey];
    intros Hx Hy; try congruence; simpl; cmp_cases.
Qed.

Lemma SF_lt_le_trans (x y z : spec_float) :
  SFltb x y = true -> SFleb y z = true -> SFleb x z = true.
Proof.
  unfold SFltb, SFleb.
  destruct x as [? | ? | | ? mx ex], y as [? | ? | | ? my ey],
    z as [? | ? | | ? mz ez]; simpl; cmp_cases.
Qed.

Lemma SF_le_lt_trans (x y z : spec_float) :
  SFleb x y = true -> SFltb y z = true -> SFleb x z = true.
Proof.
  unfold SFltb, SFleb.
  destruct x as [? | ? | | ? mx ex], y as [? | ? | | ? my ey],
    z as [? | ? | | ? mz ez]; simpl; cmp_cases.
Qed.

Lemma not_lt_le (x y : float) :
  not_nan x -> not_nan y -> (x <? y)%float = false -> (y <=? x)%float = true.
Proof.
  intros Hx Hy. rewrite FloatAxioms.ltb_spec, FloatAxioms.leb_spec.
  apply SF_not_lt_le; apply not_nan_SF; assumption.
Qed.

Lemma lt_le_trans (x y z : float) :
  (x <? y)%float = true -> (y <=? z)%float = true -> (x <=? z)%float = true.
Proof. rewrite FloatAxioms.ltb_spec, !FloatAxioms.leb_spec. apply SF_lt_le_trans. Qed.

Lemma le_lt_trans (x y z : float) :
  (x <=? y)%float = true -> (y <? z)%float = true -> (x <=? z)%float = true.
Proof. rewrite FloatAxioms.ltb_spec, !FloatAxioms.leb_spec. apply SF_le_lt_trans. Qed.

End FloatOrder.

(** ** [min] and [max] of a list without NaN *)

Section MinMax.
Import FloatOrder.

(** [m] is a least element of [l] ([lo = true]) or a greatest one. *)
Definition extremum (lo : bool) (m : float) (l : list float) : Prop :=
  m ∈ l /\
  forall x, x ∈ l ->
    (if lo then (m <=? x)%float else (x <=? m)%float) = true.

Lemma py_min_spec (l : list float) : forall cur seen,
  Forall not_nan l -> extremum true cur seen ->
  extremum true (py_min cur l) (seen ++ l).
Proof.
  induction l as [|item l IH]; intros cur seen Hl [Hin Hle]; simpl.
  - rewrite app_nil_r. split; assumption.
  - apply Forall_cons in Hl as [Hitem Hl].
    replace (seen ++ item :: l) with ((seen ++ [item]) ++ l)
      by (rewrite <- app_assoc; reflexivity).
    apply IH; [exact Hl|].
    destruct (item <? cur)%float eqn:Hlt.
    + split; [set_solver|]. intros x Hx.
      apply elem_of_app in Hx as [Hx|Hx].
      * eapply lt_le_trans; [exact Hlt | apply Hle, Hx].
      * apply list_elem_of_singleton in Hx as ->. apply leb_refl, Hitem.
    + split; [set_solver|]. intros x Hx.
      apply elem_of_app in Hx as [Hx|Hx]; [apply Hle, Hx|].
      apply list_elem_of_singleton in Hx as ->.
      apply not_lt_le; [exact Hitem| |exact Hlt].
      unfold not_nan, PrimFloat.is_nan.
      specialize (Hle cur Hin). rewrite FloatAxioms.leb_spec in Hle.
      rewrite FloatAxioms.eqb_spec. unfold SFleb, SFeqb in *.
      destruct (Prim2SF cur) as [[]|[]| |[] ? ?]; simpl in *;
        try discriminate; try reflexivity; cmp_cases.
Qed.

Lemma py_max_spec (l : list float) : forall cur seen,
  Forall not_nan l -> extremum false cur seen ->
  extremum false (py_max cur l) (seen ++ l).
Proof.
  induction l as [|item l IH]; intros cur seen Hl [Hin Hle]; simpl.
  - rewrite app_nil_r. split; assumption.
  - apply Forall_cons in Hl as [Hitem Hl].
    replace (seen ++ item :: l) with ((seen ++ [item]) ++ l)
      by (rewrite <- app_assoc; reflexivity).
    apply IH; [exact Hl|].
    destruct (cur <? item)%float eqn:Hlt.
    + split; [set_solver|]. intros x Hx.
      apply elem_of_app in Hx as [Hx|Hx].
      * eapply le_lt_trans; [apply Hle, Hx | exact Hlt].
      * apply list_elem_of_singleton in Hx as ->. apply leb_refl, Hitem.
    + split; [set_solver|]. intros x Hx.
      apply elem_of_app in Hx as [Hx|Hx]; [apply Hle, Hx|].
      apply list_elem_of_singleton in Hx as ->.
      apply not_lt_le; [|exact Hitem|exact Hlt].
      unfold not_nan, PrimFloat.is_nan.
      specialize (Hle cur Hin). rewrite FloatAxioms.leb_spec in Hle.
      rewrite FloatAxioms.eqb_spec. unfold SFleb, SFeqb in *.
      destruct (Prim2SF cur) as [[]|[]| |[] ? ?]; simpl in *;
        try discriminate; try reflexivity; cmp_cases.
Qed.

Lemma extremum_singleton (lo : bool) (x : float) :
  not_nan x -> extremum lo x [x].
Proof.
  intros Hx. split; [set_solver|]. intros y Hy.
  apply list_elem_of_singleton in Hy as ->.
  destruct lo; apply leb_refl, Hx.
Qed.

Lemma py_min_extremum (cur : float) (l : list float) :
  Forall not_nan (cur :: l) -> extremum true (py_min cur l) (cur :: l).
Proof.
  intros H. apply Forall_cons in H as [Hc Hl].
  apply (py_min_spec l cur [cur] Hl), extremum_singleton, Hc.
Qed.

Lemma py_max_extremum (cur : float) (l : list float) :
  Forall not_nan (cur :: l) -> extremum false (py_max cur l) (cur :: l).
Proof.
  intros H. apply Forall_cons in H as [Hc Hl].
  apply (py_max_spec l cur [cur] Hl), extremum_singleton, Hc.
Qed.

Lemma extremum_min_le_max (mn mx : float) (l : list float) :
  extremum true mn l -> extremum false mx l -> (mn <=? mx)%float = true.
Proof. intros [_ Hmn] [Hmx _]. apply Hmn, Hmx. Qed.

End MinMax.

(** ** The coordinates [calculate_bounds] collects *)

Section Coords.
Variable float_of_str : string -> option float.

(** A point is valid when both attributes are there and both parse; its
    coordinates are then the two parsed values. *)
Definition parsed_coords (pt : Element) : option (float * float) :=
  lat ← ET.get "lat" pt; lon ← ET.get "lon" pt;
  a ← float_of_str lat; b ← float_of_str lon; Some (a, b).

Definition valid_points (pts : list Element) : list (float * float) :=
  omap parsed_coords pts.

(** A point whose [lat] parses and whose [lon] does not. *)
Definition half_parsed (pt : Element) : bool :=
  match ET.get "lat" pt, ET.get "lon" pt with
  | Some lat, Some lon =>
      Str.truthy lat && Str.truthy lon
      && bool_decide (is_Some (float_of_str lat))
      && bool_decide (float_of_str lon = None)
  | _, _ => false
  end.

Hypothesis float_of_str_empty : float_of_str "" = None.

Lemma truthy_false (s : string) : Str.truthy s = false -> s = "".
Proof. destruct s; [reflexivity | discriminate]. Qed.

Lemma bounds_step_valid (acc : list float * list float) (pt : Element) :
  half_parsed pt = false ->
  bounds_step float_of_str acc pt =
    match parsed_coords pt with
    | Some (a, b) => (acc.1 ++ [a], acc.2 ++ [b])
    | None => acc
    end.
Proof.
  destruct acc as [lats lons].
  unfold bounds_step, parsed_coords, half_parsed, opt_truthy.
  destruct (ET.get "lat" pt) as [lat|], (ET.get "lon" pt) as [lon|];
    simpl; try reflexivity; [|destruct (Str.truthy lat); reflexivity].
  destruct (Str.truthy lat) eqn:Hlat; simpl.
  - destruct (Str.truthy lon) eqn:Hlon; simpl.
    + destruct (float_of_str lat) as [a|]; simpl; [|reflexivity].
      destruct (float_of_str lon) as [b|]; simpl; [reflexivity|].
      discriminate.
    + intros _. apply truthy_false in Hlon as ->.
      rewrite float_of_str_empty.
      destruct (float_of_str lat); reflexivity.
  - intros _. apply truthy_false in Hlat as ->.
    rewrite float_of_str_empty. reflexivity.
Qed.

Lemma collect_coords_valid (pts : list Element) :
  Forall (fun pt => half_parsed pt = false) pts ->
  collect_coords float_of_str pts =
    ((valid_points pts).*1, (valid_points pts).*2).
Proof.
  unfold collect_coords.
  enough (forall acc,
    Forall (fun pt => half_parsed pt = false) pts ->
    foldl (bounds_step float_of_str) acc pts =
      (acc.1 ++ (valid_points pts).*1, acc.2 ++ (valid_points pts).*2))
    as H by (intros Hp; apply (H ([], []) Hp)).
  induction pts as [|pt pts IH]; intros [lats lons] Hp.
  - simpl. rewrite !app_nil_r. reflexivity.
  - apply Forall_cons in Hp as [Hpt Hp]. cbn [foldl].
    rewrite (bounds_step_valid _ _ Hpt), (IH _ Hp).
    unfold valid_points. simpl.
    destruct (parsed_coords pt) as [[a b]|]; simpl;
      rewrite <- ?app_assoc; reflexivity.
Qed.

End Coords.

(** ** Bounding box *)

Definition trkpts_of (track_elem : Element) : list Element :=
  ET.findall_desc (qname GPX_NS "trkpt") track_elem.

Lemma bounds_step_skip (f : string -> option float) (pt : Element)
    (acc : list float * list float) :
  opt_truthy (ET.get "lat" pt) && opt_truthy (ET.get "lon" pt) = false ->
  bounds_step f acc pt = acc.
Proof.
  intros H. destruct acc as [lats lons]. unfold bounds_step.
  rewrite H. reflexivity.
Qed.

Lemma collect_coords_skip (f : string -> option float) (pt : Element)
    (l1 l2 : list Element) :
  (forall acc, bounds_step f acc pt = acc) ->
  collect_coords f (l1 ++ pt :: l2) = collect_coords f (l1 ++ l2).
Proof.
  intros H. unfold collect_coords.
  rewrite !foldl_app. cbn [foldl]. rewrite H. reflexivity.
Qed.

(** C9: a track point whose [lat] or [lon] attribute is absent or empty is
    skipped by the guard [if lat and lon], whatever [float] would do with
    its attributes: the step of the loop leaves both lists as they are for
    every parser, and the bounds of a track are those of the track without
    the point. *)
Theorem calculate_bounds_skips_missing_attribute
    (float_of_str : string -> option float) (pt : Element) :
  ET.get "lat" pt = None \/ ET.get "lat" pt = Some "" \/
  ET.get "lon" pt = None \/ ET.get "lon" pt = Some "" ->
  (forall f acc, bounds_step f acc pt = acc) /\
  (forall l1 l2 track track',
     trkpts_of track = l1 ++ pt :: l2 ->
     trkpts_of track' = l1 ++ l2 ->
     calculate_bounds float_of_str track =
     calculate_bounds float_of_str track').
Proof.
  intros H.
  assert (Hskip : forall f acc, bounds_step f acc pt = acc).
  { intros f acc. apply bounds_step_skip.
    destruct H as [-> | [-> | [-> | ->]]]; simpl;
      rewrite ?andb_false_r; reflexivity. }
  split; [exact Hskip|].
  intros l1 l2 track track' E E'. unfold calculate_bounds.
  fold (trkpts_of track). fold (trkpts_of track').
  rewrite E, E', collect_coords_skip by apply Hskip. reflexivity.
Qed.

Lemma calculate_bounds_skips_missing_attribute_witness :
  let pt := Sample.trkpt "" "20" in
  ET.get "lat" pt = Some "" /\
  calculate_bounds Sample.float_of_str
    (Sample.trk None [Sample.trkpt "10" "20"; pt; Sample.trkpt "12" "18"]) =
  calculate_bounds Sample.float_of_str
    (Sample.trk None [Sample.trkpt "10" "20"; Sample.trkpt "12" "18"]).
Proof.
  split; [reflexivity|].
  apply (proj2 (calculate_bounds_skips_missing_attribute Sample.float_of_str
                  (Sample.trkpt "" "20") (or_intror (or_introl eq_refl)))
           [Sample.trkpt "10" "20"] [Sample.trkpt "12" "18"]);
    reflexivity.
Defined.

(** A point whose [lat] does not parse leaves both lists as they are. *)
Lemma bounds_step_lat_unparsed (f : string -> option float) (pt : Element)
    (lat : string) (acc : list float * list float) :
  ET.get "lat" pt = Some lat -> f lat = None -> bounds_step f acc pt = acc.
Proof.
  intros Hlat Hf. destruct acc as [lats lons]. unfold bounds_step.
  rewrite Hlat. simpl. rewrite Hf.
  destruct (_ && _); reflexivity.
Qed.

(** A point whose [lat] parses and whose [lon] does not: [lats.append] has
    run when [float(lon)] raises, so the latitude stays in [lats]. *)
Lemma bounds_step_lon_unparsed (f : string -> option float) (pt : Element)
    (lat lon : string) (a : float) (lats lons : list float) :
  ET.get "lat" pt = Some lat -> ET.get "lon" pt = Some lon ->
  Str.truthy lat = true -> Str.truthy lon = true ->
  f lat = Some a -> f lon = None ->
  bounds_step f (lats, lons) pt = (lats ++ [a], lons).
Proof.
  intros Hlat Hlon Tlat Tlon Ha Hb. unfold bounds_step.
  rewrite Hlat, Hlon. simpl. rewrite Tlat, Tlon, Ha, Hb. reflexivity.
Qed.

(** C3: the code at a track with a point whose [lon] does not parse: the
    latitude 99 of that point is the maximal latitude of the box, whereas
    the same track without the point has maximal latitude 10. A point
    whose [lat] does not parse changes nothing. *)
Theorem calculate_bounds_half_parsed_point :
  calculate_bounds Sample.float_of_str
    (Sample.trk None [Sample.trkpt "10" "20"; Sample.trkpt "99" "abc"])
  = Some (10, 20, 99, 20)%float /\
  calculate_bounds Sample.float_of_str
    (Sample.trk None [Sample.trkpt "10" "20"])
  = Some (10, 20, 10, 20)%float /\
  calculate_bounds Sample.float_of_str
    (Sample.trk None [Sample.trkpt "10" "20"; Sample.trkpt "abc" "99"])
  = Some (10, 20, 10, 20)%float.
Proof. repeat split; vm_compute; reflexivity. Qed.

Definition bounds_elem (str_of_float : float -> string)
    (b : float * float * float * float) : Element :=
  let '(minlat, minlon, maxlat, maxlon) := b in
  Elem "bounds"
    [("minlat", str_of_float minlat); ("minlon", str_of_float minlon);
     ("maxlat", str_of_float maxlat); ("maxlon", str_of_float maxlon)]
    None None [].

(** C5, as the claim states it, fails on two tracks: one with a point
    whose [lon] does not parse (the box takes its latitude, which no valid
    point has), and one whose only point is NaN (the box does not satisfy
    [min_lat <= max_lat]). *)
Lemma calculate_bounds_not_extrema_of_valid_points :
  (let track :=
     Sample.trk None [Sample.trkpt "10" "20"; Sample.trkpt "99" "abc"] in
   valid_points Sample.float_of_str (trkpts_of track) = [(10, 20)%float] /\
   calculate_bounds Sample.float_of_str track = Some (10, 20, 99, 20)%float /\
   ~ extremum false 99%float [10%float]) /\
  (let track := Sample.trk None [Sample.trkpt "nan" "nan"] in
   valid_points Sample.float_of_str (trkpts_of track)
     = [(PrimFloat.nan, PrimFloat.nan)] /\
   calculate_bounds Sample.float_of_str track
     = Some (PrimFloat.nan, PrimFloat.nan, PrimFloat.nan, PrimFloat.nan) /\
   (PrimFloat.nan <=? PrimFloat.nan)%float = false).
Proof.
  repeat split; try (vm_compute; reflexivity).
  intros [Hin _]. apply list_elem_of_singleton in Hin.
  apply (f_equal (fun x => (x =? 10)%float)) in Hin.
  vm_compute in Hin. discriminate Hin.
Qed.

(** C5 (amended): when [float] rejects the empty string, no point of the
    track has a [lat] that parses beside a [lon] that does not, and no
    parsed coordinate is NaN, then: with at least one valid point the box
    is made of a least and a greatest valid latitude and longitude, has
    [min_lat <= max_lat] and [min_lon <= max_lon], and [add_bounds] puts
    the [bounds] element before all other children of the track; with no
    valid point there is no box and [add_bounds] leaves the track as it
    is. *)
Theorem calculate_bounds_valid_points
    (float_of_str : string -> option float) (str_of_float : float -> string)
    (track : Element) :
  float_of_str "" = None ->
  Forall (fun pt => half_parsed float_of_str pt = false) (trkpts_of track) ->
  Forall (fun p => FloatOrder.not_nan p.1 /\ FloatOrder.not_nan p.2)
    (valid_points float_of_str (trkpts_of track)) ->
  let valid := valid_points float_of_str (trkpts_of track) in
  match valid with
  | [] =>
      calculate_bounds float_of_str track = None /\
      add_bounds str_of_float track (calculate_bounds float_of_str track)
        = track
  | _ :: _ =>
      exists minlat minlon maxlat maxlon,
        calculate_bounds float_of_str track
          = Some (minlat, minlon, maxlat, maxlon) /\
        extremum true minlat valid.*1 /\ extremum true minlon valid.*2 /\
        extremum false maxlat valid.*1 /\ extremum false maxlon valid.*2 /\
        (minlat <=? maxlat)%float = true /\
        (minlon <=? maxlon)%float = true /\
        children
          (add_bounds str_of_float track (calculate_bounds float_of_str track))
          = bounds_elem str_of_float (minlat, minlon, maxlat, maxlon)
            :: children track
  end.
Proof.
  intros Hempty Hhalf Hnan valid.
  assert (Hc : collect_coords float_of_str (trkpts_of track)
               = (valid.*1, valid.*2))
    by (apply collect_coords_valid; assumption).
  unfold calculate_bounds. fold (trkpts_of track). rewrite Hc.
  subst valid.
  destruct (valid_points float_of_str (trkpts_of track)) as [|[a b] V].
  - split; reflexivity.
  - assert (Ha : Forall FloatOrder.not_nan (a :: V.*1)).
    { apply Forall_cons in Hnan as [[Ha _] HV]. apply Forall_cons.
      split; [exact Ha|]. apply Forall_fmap.
      eapply Forall_impl; [exact HV|]. intros p [H _]. exact H. }
    assert (Hb : Forall FloatOrder.not_nan (b :: V.*2)).
    { apply Forall_cons in Hnan as [[_ Hb] HV]. apply Forall_cons.
      split; [exact Hb|]. apply Forall_fmap.
      eapply Forall_impl; [exact HV|]. intros p [_ H]. exact H. }
    cbn [fmap list_fmap fst snd].
    pose proof (py_min_extremum a (V.*1) Ha) as Hmina.
    pose proof (py_max_extremum a (V.*1) Ha) as Hmaxa.
    pose proof (py_min_extremum b (V.*2) Hb) as Hminb.
    pose proof (py_max_extremum b (V.*2) Hb) as Hmaxb.
    eexists _, _, _, _. split; [reflexivity|].
    refine (conj Hmina (conj Hminb (conj Hmaxa (conj Hmaxb
              (conj _ (conj _ _)))))).
    + eapply extremum_min_le_max; eassumption.
    + eapply extremum_min_le_max; eassumption.
    + reflexivity.
Qed.

Lemma calculate_bounds_valid_points_witness :
  let track :=
    Sample.trk None [Sample.trkpt "10" "20"; Sample.trkpt "12" "18"] in
  exists minlat minlon maxlat maxlon,
    calculate_bounds Sample.float_of_str track
      = Some (minlat, minlon, maxlat, maxlon) /\
    extremum true minlat [10; 12]%float /\
    extremum true minlon [20; 18]%float /\
    extremum false maxlat [10; 12]%float /\
    extremum false maxlon [20; 18]%float /\
    (minlat <=? maxlat)%float = true /\
    (minlon <=? maxlon)%float = true /\
    children
      (add_bounds Sample.str_of_float track
         (calculate_bounds Sample.float_of_str track))
      = bounds_elem Sample.str_of_float (minlat, minlon, maxlat, maxlon)
        :: children track.
Proof.
  intros track.
  refine (calculate_bounds_valid_points Sample.float_of_str
            Sample.str_of_float track eq_refl _ _).
  - repeat constructor.
  - repeat constructor.
Defined.

(** The example of the specification: the box of the points (10, 20) and
    (12, 18), and the element [add_bounds] inserts for it. *)
Example calculate_bounds_example :
  let track :=
    Sample.trk None [Sample.trkpt "10" "20"; Sample.trkpt "12" "18"] in
  calculate_bounds Sample.float_of_str track = Some (10, 18, 12, 20)%float /\
  head (children (add_bounds Sample.str_of_float track
                    (calculate_bounds Sample.float_of_str track)))
  = Some (Elem "bounds"
            [("minlat", "10.0"); ("minlon", "18.0");
             ("maxlat", "12.0"); ("maxlon", "20.0")] None None []).
Proof. split; vm_compute; reflexivity. Qed.

(** ** File names *)

(** A character that is still itself, and not an underscore, after the
    two replacements of [sanitize_filename]: a letter, a digit or a
    hyphen. *)
Definition survives (c : ascii) : bool :=
  allowed_char c && negb (Str.is_char " " c) && negb (Str.is_char "_" c).

Lemma forallb_lstrip (p : ascii -> bool) (s : string) :
  Str.forallb p s = true -> Str.lstrip p s = "".
Proof.
  induction s as [|c s IH]; simpl; [reflexivity|].
  intros H. apply andb_prop in H as [Hc Hs]. rewrite Hc. apply IH, Hs.
Qed.

Lemma forallb_strip (p : ascii -> bool) (s : string) :
  Str.forallb p s = true -> Str.strip p s = "".
Proof. intros H. unfold Str.strip. rewrite forallb_lstrip by exact H. reflexivity. Qed.

Lemma forallb_map (p q : ascii -> bool) (f : ascii -> ascii) (s : string) :
  (forall c, p c = true -> q (f c) = true) ->
  Str.forallb p s = true -> Str.forallb q (Str.map f s) = true.
Proof.
  intros Hf. induction s as [|c s IH]; simpl; [reflexivity|].
  intros H. apply andb_prop in H as [Hc Hs].
  rewrite (Hf c Hc), (IH Hs). reflexivity.
Qed.

Lemma unsurviving_char (c : ascii) :
  negb (survives c) = true ->
  Str.is_char "_"
    ((fun c => if Str.is_char " " c then "_"%char else c)
       (if allowed_char c then c else "_"%char)) = true.
Proof.
  destruct c as [[] [] [] [] [] [] [] []]; vm_compute;
    intros H; first [reflexivity | discriminate H].
Qed.

(** C4, as the claim states it, fails: the space and the [#] of the
    example each become an underscore and the two are kept, and a name of
    hyphens, which the character class allows, is returned as it is. *)
Lemma sanitize_filename_keeps_underscore_runs :
  sanitize_filename "Ronde van Drenthe #2024" <> "Ronde_van_Drenthe_2024" /\
  sanitize_filename "---" <> "deelroute".
Proof. split; intros H; vm_compute in H; discriminate H. Qed.

(** C4 (amended): [sanitize_filename "Ronde van Drenthe #2024"] is
    ["Ronde_van_Drenthe__2024"], with two underscores between [Drenthe] and
    [2024]; the empty name, and every name without a letter, digit or
    hyphen, gives the fallback ["deelroute"]. *)
Theorem sanitize_filename_fallback (name : string) :
  Str.forallb (fun c => negb (survives c)) name = true ->
  sanitize_filename "Ronde van Drenthe #2024" = "Ronde_van_Drenthe__2024" /\
  sanitize_filename "" = "deelroute" /\
  sanitize_filename name = "deelroute".
Proof.
  intros H. split; [reflexivity|]. split; [reflexivity|].
  unfold sanitize_filename. destruct (Str.truthy name); [|reflexivity]. simpl.
  rewrite forallb_strip; [reflexivity|].
  unfold re_sub_disallowed, Str.replace_char.
  eapply forallb_map; [|eapply forallb_map; [|exact H]].
  - intros c Hc. exact Hc.
  - intros c Hc. apply (unsurviving_char c Hc).
Qed.

Lemma sanitize_filename_fallback_witness :
  sanitize_filename "Ronde van Drenthe #2024" = "Ronde_van_Drenthe__2024" /\
  sanitize_filename "" = "deelroute" /\
  sanitize_filename "#!? _." = "deelroute".
Proof. exact (sanitize_filename_fallback "#!? _." eq_refl). Defined.

(** A track whose [name] child has a text of blanks only (at least one). *)
Definition blank_name (track : Element) : Prop :=
  exists j name_elem s,
    ET.find (qname GPX_NS "name") track = Some (j, name_elem) /\
    text name_elem = Some s /\
    Str.truthy s = true /\ Str.forallb Str.is_space s = true.

Lemma blank_name_track_name (idx : nat) (track : Element) :
  blank_name track -> track_name idx track = "".
Proof.
  intros (j & name_elem & s & Hfind & Htext & Hs & Hblank).
  unfold track_name. rewrite Hfind, Htext, Hs. apply forallb_strip, Hblank.
Qed.

(** C10: a track whose name is made of blanks gets the empty label, not
    ["deelroute_<idx>"], so its file is [deelroute.gpx] whatever its
    ordinal, and two such tracks of one input are written to the same
    path. *)
Theorem blank_names_share_a_file (target_folder : string) (idx idx' : nat)
    (track track' : Element) :
  blank_name track -> blank_name track' ->
  track_name idx track = "" /\
  track_name idx track <> "deelroute_" +:+ pretty idx /\
  output_path target_folder idx track
    = os_path.join target_folder "deelroute.gpx" /\
  output_path target_folder idx' track'
    = output_path target_folder idx track.
Proof.
  intros H H'.
  pose proof (blank_name_track_name idx track H) as E.
  pose proof (blank_name_track_name idx' track' H') as E'.
  unfold output_path. rewrite E, E'.
  repeat split; try reflexivity. discriminate.
Qed.

Lemma blank_names_share_a_file_witness :
  let t1 := Sample.trk (Some "  ") [Sample.trkpt "10" "20"] in
  let t2 := Sample.trk (Some " ") [] in
  track_name 1 t1 = "" /\
  track_name 1 t1 <> "deelroute_" +:+ pretty 1%nat /\
  output_path "/data/out" 1 t1 = os_path.join "/data/out" "deelroute.gpx" /\
  output_path "/data/out" 2 t2 = output_path "/data/out" 1 t1.
Proof.
  intros t1 t2.
  apply (blank_names_share_a_file "/data/out" 1 2 t1 t2).
  - exists 0%nat, (Elem (qname GPX_NS "name") [] (Some "  ") None []), "  ".
    repeat split; reflexivity.
  - exists 0%nat, (Elem (qname GPX_NS "name") [] (Some " ") None []), " ".
    repeat split; reflexivity.
Defined.

(** ** The palette *)

Definition is_upper_hex (c : ascii) : bool :=
  let n := Str.code c in
  ((48 <=? n) && (n <=? 57) || (65 <=? n) && (n <=? 70))%N.

(** A well-formed upper-case [#RRGGBB] string. *)
Definition is_hex_color (s : string) : bool :=
  match s with
  | String c rest =>
      Str.is_char "#" c && (String.length rest =? 6)%nat
      && Str.forallb is_upper_hex rest
  | EmptyString => false
  end.

(** A hue within the closed band from [lo] to [hi], and a hue outside the
    three bands of yellow, green and light blue. *)
Definition in_band (lo hi hue : float) : Prop :=
  (lo <=? hue)%float = true /\ (hue <=? hi)%float = true.

Definition outside_bands (hue : float) : Prop :=
  ~ in_band 50 70 hue /\ ~ in_band 100 140 hue /\ ~ in_band 180 210 hue.

(** The loop of lines 42-54 once more, keeping beside every colour the
    value [hue_deg] had when the colour was appended: its starting hue. *)
Fixpoint safe_colors_walk (fuel : nat) (n : Z) (step hue_deg : float)
    (entries : list (float * string)) : outcome (list (float * string)) :=
  if Z.of_nat (length entries) <? n then
    match fuel with
    | O => OutOfFuel
    | S fuel' =>
        entries' ← (if banned hue_deg then Done entries
                    else hex_color ← hex_of_hue hue_deg;
                         Done (entries ++ [(hue_deg, hex_color)]));
        let hue_deg := (hue_deg + step)%float in
        let hue_deg := if (360 <=? hue_deg)%float then (hue_deg - 360)%float
                       else hue_deg in
        safe_colors_walk fuel' n step hue_deg entries'
    end
  else Done entries.

Definition generate_safe_colors_walk (fuel : nat) (n : Z)
    : outcome (list (float * string)) :=
  step ← Py.truediv 360%float n;
  safe_colors_walk fuel n step 0%float [].

(** The colours of the walk are the list the loop builds. *)
Lemma safe_colors_walk_colors (fuel : nat) :
  forall n step hue_deg entries,
    safe_colors_loop fuel n step hue_deg entries.*2
    = (fun l => l.*2) <$> safe_colors_walk fuel n step hue_deg entries.
Proof.
  induction fuel as [|fuel IH]; intros n step hue entries;
    cbn [safe_colors_loop safe_colors_walk]; rewrite length_fmap;
    destruct (Z.of_nat (length entries) <? n); try reflexivity.
  destruct (banned hue); cbn [mbind outcome_bind].
  - apply IH.
  - destruct (hex_of_hue hue) as [c| |]; cbn [mbind outcome_bind];
      try reflexivity.
    rewrite <- IH, fmap_app. reflexivity.
Qed.

Lemma generate_safe_colors_walk_colors (fuel : nat) (n : Z) :
  generate_safe_colors fuel n
  = (fun l => l.*2) <$> generate_safe_colors_walk fuel n.
Proof.
  unfold generate_safe_colors, generate_safe_colors_walk.
  destruct (Py.truediv 360 n) as [step| |]; cbn [mbind outcome_bind];
    try reflexivity.
  apply (safe_colors_walk_colors fuel n step 0%float []).
Qed.

Lemma safe_colors_loop_fuel (fuel : nat) :
  forall fuel' n step hue_deg colors result,
    (fuel <= fuel')%nat ->
    safe_colors_loop fuel n step hue_deg colors = Done result ->
    safe_colors_loop fuel' n step hue_deg colors = Done result.
Proof.
  induction fuel as [|fuel IH]; intros fuel' n step hue colors result Hle;
    destruct fuel' as [|fuel']; simpl;
    destruct (Z.of_nat (length colors) <? n); try (intros; assumption);
    try discriminate; try lia.
  destruct (banned hue); simpl.
  - apply IH. lia.
  - destruct (hex_of_hue hue) as [c| |]; simpl; try discriminate.
    apply IH. lia.
Qed.

Lemma generate_safe_colors_fuel (fuel fuel' : nat) (n : Z)
    (result : list string) :
  (fuel <= fuel')%nat ->
  generate_safe_colors fuel n = Done result ->
  generate_safe_colors fuel' n = Done result.
Proof.
  unfold generate_safe_colors. intros Hle.
  destruct (Py.truediv 360 n) as [step| |]; cbn [mbind outcome_bind];
    try discriminate.
  apply safe_colors_loop_fuel, Hle.
Qed.

Lemma safe_colors_walk_fuel (fuel : nat) :
  forall fuel' n step hue_deg entries result,
    (fuel <= fuel')%nat ->
    safe_colors_walk fuel n step hue_deg entries = Done result ->
    safe_colors_walk fuel' n step hue_deg entries = Done result.
Proof.
  induction fuel as [|fuel IH]; intros fuel' n step hue entries result Hle;
    destruct fuel' as [|fuel']; simpl;
    destruct (Z.of_nat (length entries) <? n); try (intros; assumption);
    try discriminate; try lia.
  destruct (banned hue); simpl.
  - apply IH. lia.
  - destruct (hex_of_hue hue) as [c| |]; simpl; try discriminate.
    apply IH. lia.
Qed.

Lemma generate_safe_colors_walk_fuel (fuel fuel' : nat) (n : Z)
    (result : list (float * string)) :
  (fuel <= fuel')%nat ->
  generate_safe_colors_walk fuel n = Done result ->
  generate_safe_colors_walk fuel' n = Done result.
Proof.
  unfold generate_safe_colors_walk. intros Hle.
  destruct (Py.truediv 360 n) as [step| |]; cbn [mbind outcome_bind];
    try discriminate.
  apply safe_colors_walk_fuel, Hle.
Qed.

(** The test of the loop lets a hue pass only when it is outside the three
    bands. *)
Lemma banned_false_outside (hue_deg : float) :
  banned hue_deg = false -> outside_bands hue_deg.
Proof.
  unfold banned, outside_bands, in_band. intros H.
  apply orb_false_iff in H as [H H3]. apply orb_false_iff in H as [H1 H2].
  repeat split; intros [Hlo Hhi]; rewrite Hlo, Hhi in *; discriminate.
Qed.

(** C2: the code at [n = 8], the palette the script uses: the walk has
    collected six colours when the hue wraps past 360 and starts again at
    0, so the seventh and eighth colour repeat the first and second. The
    same happens for [n = 4] and [n = 12]. *)
Theorem generate_safe_colors_repeats :
  generate_safe_colors 16 8 =
    Done ["#D80000"; "#D8A200"; "#6CD800"; "#0036D8"; "#6C00D8"; "#D800A2";
          "#D80000"; "#D8A200"] /\
  COLORS !! 0%nat = COLORS !! 6%nat /\
  COLORS !! 1%nat = COLORS !! 7%nat /\
  ~ NoDup COLORS /\
  generate_safe_colors 16 4 =
    Done ["#D80000"; "#6CD800"; "#6C00D8"; "#D80000"] /\
  generate_safe_colors 24 12 =
    Done ["#D80000"; "#D86C00"; "#6CD800"; "#00D86C"; "#0000D8"; "#6C00D8";
          "#D800D8"; "#D8006C"; "#D80000"; "#D86C00"; "#6CD800"; "#00D86C"].
Proof.
  repeat split; try (vm_compute; reflexivity).
  intros H. apply NoDup_cons in H as [H _]. apply H. set_solver.
Qed.

(** The entries of the palette for [n] among 1, 4, 8 and 12: starting hue
    and colour. *)
Definition pinned_palette (n : Z) : list (float * string) :=
  if n =? 1 then [(0, "#D80000")]%float
  else if n =? 4 then
    [(0, "#D80000"); (90, "#6CD800"); (270, "#6C00D8"); (0, "#D80000")]%float
  else if n =? 8 then
    [(0, "#D80000"); (45, "#D8A200"); (90, "#6CD800"); (225, "#0036D8");
     (270, "#6C00D8"); (315, "#D800A2"); (0, "#D80000");
     (45, "#D8A200")]%float
  else if n =? 12 then
    [(0, "#D80000"); (30, "#D86C00"); (90, "#6CD800"); (150, "#00D86C");
     (240, "#0000D8"); (270, "#6C00D8"); (300, "#D800D8"); (330, "#D8006C");
     (0, "#D80000"); (30, "#D86C00"); (90, "#6CD800");
     (150, "#00D86C")]%float
  else [].

Lemma outside_bands_intro (hue : float) :
  ((50 <=? hue) && (hue <=? 70))%float = false ->
  ((100 <=? hue) && (hue <=? 140))%float = false ->
  ((180 <=? hue) && (hue <=? 210))%float = false ->
  outside_bands hue.
Proof.
  intros H1 H2 H3.
  repeat split; intros [Hlo Hhi]; rewrite Hlo, Hhi in *; discriminate.
Qed.

Ltac pinned_entries :=
  repeat (constructor;
          [split; [apply outside_bands_intro; vm_compute; reflexivity|];
           split; vm_compute; reflexivity|]);
  constructor.

(** C7: for [n] among 1, 4, 8 and 12 the loop ends within [2 * n]
    iterations and, with any fuel from there on, returns one and the same
    list of [n] strings (the colours of [pinned_palette]). Each entry is a
    well-formed upper-case [#RRGGBB] string, it is the colour made from
    the value [hue_deg] had when the loop appended it, and that starting
    hue lies outside the bands [50,70], [100,140] and [180,210]. *)
Theorem generate_safe_colors_palette (n : Z) :
  n = 1 \/ n = 4 \/ n = 8 \/ n = 12 ->
  (forall fuel, (2 * Z.to_nat n <= fuel)%nat ->
     generate_safe_colors_walk fuel n = Done (pinned_palette n) /\
     generate_safe_colors fuel n = Done (pinned_palette n).*2) /\
  length (pinned_palette n) = Z.to_nat n /\
  Forall (fun entry =>
            outside_bands entry.1 /\
            hex_of_hue entry.1 = Done entry.2 /\
            is_hex_color entry.2 = true)
    (pinned_palette n).
Proof.
  intros Hn.
  assert (Hwalk : forall fuel, (2 * Z.to_nat n <= fuel)%nat ->
            generate_safe_colors_walk fuel n = Done (pinned_palette n)).
  { intros fuel Hfuel.
    eapply generate_safe_colors_walk_fuel; [exact Hfuel|].
    destruct Hn as [-> | [-> | [-> | ->]]]; vm_compute; reflexivity. }
  split.
  - intros fuel Hfuel. split; [apply Hwalk, Hfuel|].
    rewrite generate_safe_colors_walk_colors, (Hwalk fuel Hfuel).
    reflexivity.
  - destruct Hn as [-> | [-> | [-> | ->]]];
      (split; [reflexivity | pinned_entries]).
Qed.

Lemma generate_safe_colors_palette_witness :
  (forall fuel, (2 * Z.to_nat 8 <= fuel)%nat ->
     generate_safe_colors_walk fuel 8 = Done (pinned_palette 8) /\
     generate_safe_colors fuel 8 = Done (pinned_palette 8).*2) /\
  length (pinned_palette 8) = Z.to_nat 8 /\
  Forall (fun entry =>
            outside_bands entry.1 /\
            hex_of_hue entry.1 = Done entry.2 /\
            is_hex_color entry.2 = true)
    (pinned_palette 8).
Proof.
  exact (generate_safe_colors_palette 8
           (or_intror (or_intror (or_introl eq_refl)))).
Defined.

(** The palette for [n = 8], pinned: the lookup table of the script. *)
Example generate_safe_colors_8 (fuel : nat) :
  (16 <= fuel)%nat ->
  generate_safe_colors fuel 8 = Done COLORS /\ length COLORS = 8%nat.
Proof.
  intros H. split; [|reflexivity].
  eapply generate_safe_colors_fuel; [exact H|]. vm_compute. reflexivity.
Qed.

(** ** Finding and updating elements *)

Section FindUpdate.

Lemma find_split (t : string) (e : Element) (i : nat) (x : Element) :
  ET.find t e = Some (i, x) ->
  exists l1 l2,
    children e = l1 ++ x :: l2 /\ length l1 = i /\ tag x = t /\
    list_find (fun c => tag c = t) l1 = None.
Proof.
  unfold ET.find. intros (Hi & Hx & Hlt)%list_find_Some.
  apply list_elem_of_split_length in Hi as (l1 & l2 & E & Hlen).
  exists l1, l2. repeat split; [exact E | symmetry; exact Hlen | exact Hx |].
  apply list_find_None, Forall_lookup. intros j y Hj.
  apply (Hlt j y).
  - rewrite E. apply lookup_app_l_Some, Hj.
  - apply lookup_lt_Some in Hj. lia.
Qed.

Lemma list_find_middle (t : string) (l1 l2 : list Element) (x : Element) :
  list_find (fun c => tag c = t) l1 = None -> tag x = t ->
  list_find (fun c => tag c = t) (l1 ++ x :: l2) = Some (length l1, x).
Proof.
  intros H1 Hx. rewrite list_find_app_r by exact H1.
  simpl. rewrite decide_True by exact Hx. reflexivity.
Qed.

Lemma alter_middle {A} (f : A -> A) (l1 l2 : list A) (x : A) :
  alter f (length l1) (l1 ++ x :: l2) = l1 ++ f x :: l2.
Proof.
  replace (length l1) with (length l1 + 0)%nat by lia.
  rewrite alter_app_r. reflexivity.
Qed.

(** [find_or_append] followed by the mutation of the child it gives. *)
Definition upsert (t : string) (f : Element -> Element) (e : Element)
    : Element :=
  let '(e, i) := find_or_append t e in ET.with_child i f e.

Lemma upsert_found (t : string) (f : Element -> Element) (tg : string)
    (a : list (string * string)) (x tl : option string)
    (l1 l2 : list Element) (c : Element) :
  list_find (fun c => tag c = t) l1 = None -> tag c = t ->
  upsert t f (Elem tg a x tl (l1 ++ c :: l2)) = Elem tg a x tl (l1 ++ f c :: l2).
Proof.
  intros H1 Hc. unfold upsert, find_or_append, ET.find. simpl.
  rewrite (list_find_middle t l1 l2 c H1 Hc).
  unfold ET.with_child. simpl. rewrite alter_middle. reflexivity.
Qed.

Lemma upsert_created (t : string) (f : Element -> Element) (e : Element) :
  ET.find t e = None ->
  upsert t f e =
    Elem (tag e) (attrib e) (text e) (tail e)
      (children e ++ [f (ET.Element_new t)]).
Proof.
  intros H. unfold upsert, find_or_append. rewrite H.
  unfold ET.with_child, ET.append. simpl.
  rewrite alter_middle. reflexivity.
Qed.

Lemma upsert_tag (t : string) (f : Element -> Element) (e : Element) :
  tag (upsert t f e) = tag e.
Proof.
  unfold upsert, find_or_append.
  destruct (ET.find t e) as [[i c]|]; reflexivity.
Qed.

Lemma upsert_ext (t : string) (f g : Element -> Element) (e : Element) :
  (forall c, f c = g c) -> upsert t f e = upsert t g e.
Proof.
  intros H. unfold upsert, find_or_append.
  destruct (ET.find t e) as [[i c]|]; unfold ET.with_child; f_equal;
    apply list_alter_ext; auto.
Qed.

(** A second find-or-create finds what the first one found or created. *)
Lemma upsert_upsert (t : string) (f g : Element -> Element) (e : Element) :
  (forall c, tag (f c) = tag c) ->
  upsert t g (upsert t f e) = upsert t (fun c => g (f c)) e.
Proof.
  intros Hf. destruct e as [tg a x tl cs].
  destruct (ET.find t (Elem tg a x tl cs)) as [[i c]|] eqn:Hfind.
  - apply find_split in Hfind as (l1 & l2 & E & _ & Hc & H1).
    simpl in E. subst cs.
    rewrite !upsert_found by (rewrite ?Hf; assumption). reflexivity.
  - rewrite (upsert_created t f _ Hfind).
    rewrite (upsert_created t (fun c => g (f c)) _ Hfind). simpl.
    rewrite upsert_found; [reflexivity| |rewrite Hf; reflexivity].
    exact Hfind.
Qed.

Lemma add_standard_display_color_upsert (track : Element) (hex : string) :
  add_standard_display_color track hex =
    upsert "extensions" (upsert "display_color" (ET.set_text hex)) track.
Proof. reflexivity. Qed.

Lemma set_text_set_text (c1 c2 : string) (e : Element) :
  ET.set_text c2 (ET.set_text c1 e) = ET.set_text c2 e.
Proof. reflexivity. Qed.

(** Two generic injections are one injection of the later colour. *)
Lemma add_standard_display_color_twice (track : Element) (c1 c2 : string) :
  add_standard_display_color (add_standard_display_color track c1) c2 =
  add_standard_display_color track c2.
Proof.
  rewrite !add_standard_display_color_upsert.
  rewrite upsert_upsert by (intros; apply upsert_tag).
  apply upsert_ext. intros c.
  rewrite upsert_upsert by reflexivity.
  apply upsert_ext. intros d. apply set_text_set_text.
Qed.

End FindUpdate.

(** ** Descendants *)

Section Descendants.

(** The elements below a list of siblings, in document order. *)
Definition descendants_in (l : list Element) : list Element :=
  flat_map (fun c => c :: ET.descendants c) l.

Lemma descendants_children (e : Element) :
  ET.descendants e = descendants_in (children e).
Proof.
  destruct e as [t a x tl cs]. simpl.
  induction cs as [|c cs IH]; simpl; [reflexivity|].
  rewrite IH. reflexivity.
Qed.

Lemma descendants_in_app (l1 l2 : list Element) :
  descendants_in (l1 ++ l2) = descendants_in l1 ++ descendants_in l2.
Proof. apply flat_map_app. Qed.

(** The search of [update_first_desc] among a list of siblings. *)
Fixpoint update_first_in (t : string) (f : Element -> Element)
    (l : list Element) : option (list Element) :=
  match l with
  | [] => None
  | c :: l' =>
      if ET.has_tag t c then Some (f c :: l')
      else match ET.update_first_desc t f c with
           | Some c' => Some (c' :: l')
           | None => option_map (cons c) (update_first_in t f l')
           end
  end.

Lemma update_first_desc_children (t : string) (f : Element -> Element)
    (tg : string) (a : list (string * string)) (x tl : option string)
    (cs : list Element) :
  ET.update_first_desc t f (Elem tg a x tl cs) =
    option_map (Elem tg a x tl) (update_first_in t f cs).
Proof.
  simpl. f_equal.
  induction cs as [|c cs IH]; simpl; [reflexivity|].
  rewrite IH. reflexivity.
Qed.

Lemma findall_desc_children (t : string) (e : Element) :
  ET.findall_desc t e = List.filter (ET.has_tag t) (descendants_in (children e)).
Proof. unfold ET.findall_desc. rewrite descendants_children. reflexivity. Qed.

(** [find('.//t')] is [None] exactly when [findall('.//t')] is empty. *)
Lemma update_first_desc_None (t : string) (f : Element -> Element)
    (e : Element) :
  ET.update_first_desc t f e = None <-> ET.findall_desc t e = [].
Proof.
  induction e as [tg a x tl cs IH] using Element_ind.
  rewrite update_first_desc_children, findall_desc_children. simpl.
  assert (H : update_first_in t f cs = None <->
              List.filter (ET.has_tag t) (descendants_in cs) = []).
  { induction IH as [|c cs Hc _ IHcs]; simpl; [tauto|].
    rewrite List.filter_app.
    destruct (ET.has_tag t c); [split; discriminate|].
    fold (ET.findall_desc t c).
    destruct (ET.update_first_desc t f c) as [c'|] eqn:Hu.
    - split; [discriminate|]. intros E.
      apply app_eq_nil in E as [E _]. apply Hc in E. discriminate E.
    - rewrite (proj1 Hc eq_refl). simpl. rewrite <- IHcs.
      destruct (update_first_in t f cs); simpl; split; congruence. }
  rewrite <- H. destruct (update_first_in t f cs); simpl; split; congruence.
Qed.

Lemma update_first_in_None (t : string) (f : Element -> Element)
    (cs : list Element) :
  update_first_in t f cs = None <->
  List.filter (ET.has_tag t) (descendants_in cs) = [].
Proof.
  pose proof (update_first_desc_None t f (Elem "" [] None None cs)) as H.
  rewrite update_first_desc_children, findall_desc_children in H. simpl in H.
  rewrite <- H. destruct (update_first_in t f cs); simpl; split; congruence.
Qed.

Lemma update_first_in_app (t : string) (f : Element -> Element)
    (l1 l2 : list Element) :
  update_first_in t f l1 = None ->
  update_first_in t f (l1 ++ l2) = option_map (app l1) (update_first_in t f l2).
Proof.
  induction l1 as [|c l1 IH]; simpl.
  - intros _. destruct (update_first_in t f l2); reflexivity.
  - destruct (ET.has_tag t c); [discriminate|].
    destruct (ET.update_first_desc t f c); [discriminate|].
    intros H. rewrite IH.
    + destruct (update_first_in t f l2); reflexivity.
    + destruct (update_first_in t f l1); [discriminate H | reflexivity].
Qed.

Lemma update_first_desc_tag (t : string) (f : Element -> Element)
    (e e' : Element) :
  ET.update_first_desc t f e = Some e' -> tag e' = tag e.
Proof.
  destruct e as [tg a x tl cs]. rewrite update_first_desc_children.
  destruct (update_first_in t f cs); simpl; [|discriminate].
  intros [= <-]. reflexivity.
Qed.

(** A second search finds the element the first one found. *)
Lemma update_first_desc_twice (t : string) (f g : Element -> Element)
    (e e' : Element) :
  (forall c, tag (f c) = tag c) ->
  ET.update_first_desc t f e = Some e' ->
  ET.update_first_desc t g e' =
  ET.update_first_desc t (fun c => g (f c)) e.
Proof.
  intros Hf. revert e'.
  induction e as [tg a x tl cs IH] using Element_ind. intros e'.
  rewrite !update_first_desc_children.
  destruct (update_first_in t f cs) as [cs'|] eqn:Hcs; simpl; [|discriminate].
  intros [= <-]. rewrite update_first_desc_children. f_equal.
  revert cs' Hcs.
  induction IH as [|c cs Hc _ IHcs]; intros cs'; simpl; [discriminate|].
  destruct (ET.has_tag t c) eqn:Ht.
  - intros [= <-]. simpl. unfold ET.has_tag in *. rewrite Hf, Ht. reflexivity.
  - destruct (ET.update_first_desc t f c) as [c'|] eqn:Hu.
    + intros [= <-]. simpl. unfold ET.has_tag in *.
      rewrite (update_first_desc_tag _ _ _ _ Hu), Ht.
      rewrite (Hc c' eq_refl).
      destruct (ET.update_first_desc t (fun c0 => g (f c0)) c) eqn:Hgf;
        [reflexivity|].
      apply update_first_desc_None in Hgf.
      apply (update_first_desc_None t f) in Hgf. congruence.
    + destruct (update_first_in t f cs) as [cs1|] eqn:Hcs1; simpl;
        [|discriminate].
      intros [= <-]. simpl. rewrite Ht.
      pose proof Hu as Hu'. apply update_first_desc_None in Hu'.
      rewrite (proj2 (update_first_desc_None t g c) Hu').
      rewrite (proj2 (update_first_desc_None t (fun c0 => g (f c0)) c) Hu').
      rewrite (IHcs cs1 eq_refl). reflexivity.
Qed.

End Descendants.

(** ** Colour injection, run twice *)

Section ColourTwice.

Definition display_color_elem (hex : string) : Element :=
  Elem "display_color" [] (Some hex) None [].
Definition gpxt_DisplayColor_elem (hex : string) : Element :=
  Elem gpxt_DisplayColor [] (Some hex) None [].

Lemma no_desc_no_child (t : string) (cs : list Element) :
  List.filter (ET.has_tag t) (descendants_in cs) = [] ->
  list_find (fun c => tag c = t) cs = None.
Proof.
  induction cs as [|c cs IH]; simpl; [reflexivity|].
  unfold ET.has_tag at 1. destruct (decide (tag c = t)) as [E|E].
  - rewrite bool_decide_true by exact E. discriminate.
  - rewrite bool_decide_false by exact E.
    rewrite List.filter_app. intros [_ H]%app_eq_nil.
    rewrite (IH H). reflexivity.
Qed.

Lemma findall_desc_middle (t : string) (tg : string)
    (a : list (string * string)) (x tl : option string)
    (l1 l2 : list Element) (c : Element) :
  ET.findall_desc t (Elem tg a x tl (l1 ++ c :: l2)) =
    List.filter (ET.has_tag t) (descendants_in l1)
    ++ List.filter (ET.has_tag t) (c :: ET.descendants c)
    ++ List.filter (ET.has_tag t) (descendants_in l2).
Proof.
  rewrite findall_desc_children. cbn [children].
  rewrite descendants_in_app, List.filter_app. f_equal.
  change (descendants_in (c :: l2))
    with ((c :: ET.descendants c) ++ descendants_in l2).
  apply List.filter_app.
Qed.

(** On a track without a [display_color] element the generic injection
    leaves exactly one, holding the colour. *)
Lemma add_standard_display_color_fresh (track : Element) (hex : string) :
  ET.findall_desc "display_color" track = [] ->
  ET.findall_desc "display_color" (add_standard_display_color track hex)
    = [display_color_elem hex].
Proof.
  intros Hnone. rewrite add_standard_display_color_upsert.
  destruct track as [tg a x tl cs].
  destruct (ET.find "extensions" (Elem tg a x tl cs)) as [[i ext]|] eqn:Hfind.
  - apply find_split in Hfind as (l1 & l2 & E & _ & Hext & H1).
    simpl in E. subst cs.
    rewrite upsert_found by assumption.
    rewrite findall_desc_middle in *.
    apply app_eq_nil in Hnone as [Hl1 Hrest].
    apply app_eq_nil in Hrest as [Hmid Hl2].
    rewrite Hl1, Hl2, app_nil_r. simpl in *.
    unfold ET.has_tag at 1 in Hmid. unfold ET.has_tag at 1.
    rewrite upsert_tag, Hext in *. simpl in *.
    rewrite descendants_children in Hmid.
    rewrite upsert_created by (apply no_desc_no_child, Hmid).
    rewrite descendants_children. simpl.
    rewrite descendants_in_app, List.filter_app, Hmid. reflexivity.
  - rewrite upsert_created by exact Hfind. simpl.
    rewrite findall_desc_children in *. simpl in *.
    rewrite descendants_in_app, List.filter_app, Hnone. reflexivity.
Qed.

(** Two vendor injections are one injection of the later colour. *)
Lemma add_or_update_gpxt_display_color_twice (track : Element)
    (c1 c2 : string) :
  add_or_update_gpxt_display_color
    (add_or_update_gpxt_display_color track c1) c2 =
  add_or_update_gpxt_display_color track c2.
Proof.
  unfold add_or_update_gpxt_display_color.
  destruct (ET.update_first_desc gpxt_DisplayColor (ET.set_text c1) track)
    as [track1|] eqn:Hu.
  - rewrite (update_first_desc_twice gpxt_DisplayColor (ET.set_text c1)
               (ET.set_text c2) track track1 (fun c => eq_refl) Hu).
    change (fun c => ET.set_text c2 (ET.set_text c1 c))
      with (ET.set_text c2).
    destruct (ET.update_first_desc gpxt_DisplayColor (ET.set_text c2) track)
      eqn:Hu2; [reflexivity|].
    apply update_first_desc_None in Hu2.
    apply (update_first_desc_None _ (ET.set_text c1)) in Hu2. congruence.
  - pose proof Hu as Hnone. apply update_first_desc_None in Hnone.
    rewrite (proj2 (update_first_desc_None _ (ET.set_text c2) track) Hnone).
    destruct track as [tg a x tl cs]. unfold ET.append.
    cbn [tag attrib text children].
    rewrite update_first_desc_children in *.
    rewrite update_first_in_app.
    + reflexivity.
    + apply update_first_in_None.
      rewrite findall_desc_children in Hnone. exact Hnone.
Qed.

(** On a track without a vendor [DisplayColor] element the vendor
    injection leaves exactly one, holding the colour. *)
Lemma add_or_update_gpxt_display_color_fresh (track : Element)
    (hex : string) :
  ET.findall_desc gpxt_DisplayColor track = [] ->
  ET.findall_desc gpxt_DisplayColor
    (add_or_update_gpxt_display_color track hex)
    = [gpxt_DisplayColor_elem hex].
Proof.
  intros Hnone. unfold add_or_update_gpxt_display_color.
  rewrite (proj2 (update_first_desc_None _ (ET.set_text hex) track) Hnone).
  rewrite findall_desc_children in *. unfold ET.append. simpl.
  rewrite descendants_in_app, List.filter_app, Hnone. reflexivity.
Qed.

End ColourTwice.

(** C6, as the claim states it, fails on a track that comes with two
    [display_color] elements (or two vendor [DisplayColor] elements): the
    injections overwrite the first one and leave the other, so two values
    remain after two runs. *)
Lemma color_injection_keeps_existing_duplicates :
  (let track :=
     Elem (qname GPX_NS "trk") [] None None
       [Elem "extensions" [] None None
          [display_color_elem "#111111"; display_color_elem "#222222"]] in
   ET.findall_desc "display_color"
     (add_standard_display_color
        (add_standard_display_color track "#D80000") "#D8A200")
   = [display_color_elem "#D8A200"; display_color_elem "#222222"]) /\
  (let track :=
     Elem (qname GPX_NS "trk") [] None None
       [gpxt_DisplayColor_elem "#111111"; gpxt_DisplayColor_elem "#222222"] in
   ET.findall_desc gpxt_DisplayColor
     (add_or_update_gpxt_display_color
        (add_or_update_gpxt_display_color track "#D80000") "#D8A200")
   = [gpxt_DisplayColor_elem "#D8A200"; gpxt_DisplayColor_elem "#222222"]).
Proof. split; vm_compute; reflexivity. Qed.

(** C6 (amended): for every track and colours, a second injection of
    either encoding overwrites the element the first one wrote or found and
    appends nothing: two injections give the very tree that one injection
    of the later colour gives. On a track that had no [display_color]
    element (no vendor [DisplayColor] element) before, the tree after two
    injections holds exactly one, with the later colour. *)
Theorem color_injection_overwrites (track : Element) (c1 c2 : string) :
  add_standard_display_color (add_standard_display_color track c1) c2
    = add_standard_display_color track c2 /\
  add_or_update_gpxt_display_color
    (add_or_update_gpxt_display_color track c1) c2
    = add_or_update_gpxt_display_color track c2 /\
  (ET.findall_desc "display_color" track = [] ->
   ET.findall_desc "display_color"
     (add_standard_display_color (add_standard_display_color track c1) c2)
   = [display_color_elem c2]) /\
  (ET.findall_desc gpxt_DisplayColor track = [] ->
   ET.findall_desc gpxt_DisplayColor
     (add_or_update_gpxt_display_color
        (add_or_update_gpxt_display_color track c1) c2)
   = [gpxt_DisplayColor_elem c2]).
Proof.
  split; [apply add_standard_display_color_twice|].
  split; [apply add_or_update_gpxt_display_color_twice|].
  split; intros H.
  - rewrite add_standard_display_color_twice.
    apply add_standard_display_color_fresh, H.
  - rewrite add_or_update_gpxt_display_color_twice.
    apply add_or_update_gpxt_display_color_fresh, H.
Qed.

Lemma color_injection_overwrites_witness :
  let track := Sample.trk (Some "Etappe 1") [Sample.trkpt "10" "20"] in
  ET.findall_desc "display_color"
    (add_standard_display_color
       (add_standard_display_color track "#D80000") "#D8A200")
  = [display_color_elem "#D8A200"] /\
  ET.findall_desc gpxt_DisplayColor
    (add_or_update_gpxt_display_color
       (add_or_update_gpxt_display_color track "#D80000") "#D8A200")
  = [gpxt_DisplayColor_elem "#D8A200"].
Proof.
  intros track.
  pose proof (color_injection_overwrites track "#D80000" "#D8A200")
    as (_ & _ & Hstd & Hgpxt).
  split; [apply Hstd | apply Hgpxt]; reflexivity.
Defined.

(** ** The tracks of a parse tree *)

Section Tracks.
Variable float_of_str : string -> option float.
Variable str_of_float : float -> string.

Definition trk_tag : string := qname GPX_NS "trk".
Definition wpt_tag : string := qname GPX_NS "wpt".

(** The colour of the track with ordinal [idx]. *)
Definition color_of (idx : nat) : string :=
  default "" (COLORS !! ((idx - 1) `mod` length COLORS)%nat).

Lemma chosen_color_Done (idx : nat) : chosen_color idx = Done (color_of idx).
Proof.
  unfold chosen_color, color_of.
  change (length COLORS) with 8%nat.
  destruct (COLORS !! ((idx - 1) `mod` 8)%nat) as [c|] eqn:E; [reflexivity|].
  apply lookup_ge_None in E. change (length COLORS) with 8%nat in E.
  pose proof (Nat.mod_upper_bound (idx - 1) 8). lia.
Qed.

(** The children of the root once the loop has gone through them: every
    [trk] child in its annotated state, ordinals counted from [idx]. *)
Fixpoint annotate_tracks (idx : nat) (cs : list Element) : list Element :=
  match cs with
  | [] => []
  | c :: cs' =>
      if ET.has_tag trk_tag c then
        annotate float_of_str str_of_float (color_of idx) c
        :: annotate_tracks (S idx) cs'
      else c :: annotate_tracks idx cs'
  end.

(** The tree in memory at the end of a run that parsed [root] and went
    through all its tracks. *)
Definition tree_after (root : Element) : Element :=
  Elem (tag root) (attrib root) (text root) (tail root)
    (annotate_tracks 1 (children root)).

(** The number of [trk] elements among the first [i] children. *)
Definition tracks_before (i : nat) (cs : list Element) : nat :=
  length (List.filter (ET.has_tag trk_tag) (take i cs)).

Lemma tracks_before_cons (d : Element) (cs : list Element) (i : nat) :
  tracks_before (S i) (d :: cs)
    = ((if ET.has_tag trk_tag d then 1 else 0) + tracks_before i cs)%nat.
Proof.
  unfold tracks_before. simpl. destruct (ET.has_tag trk_tag d); reflexivity.
Qed.

Lemma annotate_tracks_lookup (cs : list Element) :
  forall (idx i : nat) (c : Element),
    cs !! i = Some c ->
    annotate_tracks idx cs !! i =
      Some (if ET.has_tag trk_tag c
            then annotate float_of_str str_of_float
                   (color_of (idx + tracks_before i cs)) c
            else c).
Proof.
  induction cs as [|d cs IH]; intros idx i c Hi; [discriminate Hi|].
  destruct i as [|i]; simpl in Hi.
  - injection Hi as ->. simpl. unfold tracks_before. simpl.
    rewrite Nat.add_0_r. destruct (ET.has_tag trk_tag c); reflexivity.
  - simpl. unfold tracks_before. simpl.
    destruct (ET.has_tag trk_tag d); simpl.
    + rewrite (IH (S idx) i c Hi). unfold tracks_before.
      replace (S idx + length (List.filter (ET.has_tag trk_tag) (take i cs)))%nat
        with (idx + S (length (List.filter (ET.has_tag trk_tag) (take i cs))))%nat
        by lia.
      reflexivity.
    + apply (IH idx i c Hi).
Qed.

Lemma annotate_tracks_length (cs : list Element) :
  forall idx, length (annotate_tracks idx cs) = length cs.
Proof.
  induction cs as [|d cs IH]; intros idx; simpl; [reflexivity|].
  destruct (ET.has_tag trk_tag d); simpl; rewrite IH; reflexivity.
Qed.

End Tracks.

(** * Further properties of the script *)

(** ** Shape of a sanitized name *)

(** A character of a sanitized name: a letter, a digit, an underscore or a
    hyphen. *)
Definition file_char (c : ascii) : bool :=
  allowed_char c && negb (Str.is_char " " c).

Lemma sanitize_char_file_char (c : ascii) :
  file_char
    ((fun c => if Str.is_char " " c then "_"%char else c)
       (if allowed_char c then c else "_"%char)) = true.
Proof. destruct c as [[] [] [] [] [] [] [] []]; vm_compute; reflexivity. Qed.

Lemma file_char_fixed (c : ascii) :
  file_char c = true ->
  (if allowed_char c then c else "_"%char) = c /\
  (if Str.is_char " " c then "_"%char else c) = c.
Proof.
  destruct c as [[] [] [] [] [] [] [] []]; vm_compute;
    intros H; first [discriminate H | split; reflexivity].
Qed.

Lemma forallb_map_all (q : ascii -> bool) (f : ascii -> ascii) (s : string) :
  (forall c, q (f c) = true) -> Str.forallb q (Str.map f s) = true.
Proof.
  intros H. induction s as [|c s IH]; simpl; [reflexivity|].
  rewrite H, IH. reflexivity.
Qed.

Lemma map_fixed (q : ascii -> bool) (f : ascii -> ascii) (s : string) :
  (forall c, q c = true -> f c = c) ->
  Str.forallb q s = true -> Str.map f s = s.
Proof.
  intros H. induction s as [|c s IH]; simpl; [reflexivity|].
  intros [Hc Hs]%andb_prop. rewrite (H c Hc), (IH Hs). reflexivity.
Qed.

Lemma forallb_lstrip_keeps (p q : ascii -> bool) (s : string) :
  Str.forallb q s = true -> Str.forallb q (Str.lstrip p s) = true.
Proof.
  induction s as [|c s IH]; simpl; [reflexivity|].
  intros H. destruct (p c); [|exact H].
  apply andb_prop in H as [_ H]. apply IH, H.
Qed.

Lemma forallb_rstrip_keeps (p q : ascii -> bool) (s : string) :
  Str.forallb q s = true -> Str.forallb q (Str.rstrip p s) = true.
Proof.
  induction s as [|c s IH]; simpl; [reflexivity|].
  intros [Hc Hs]%andb_prop. specialize (IH Hs).
  destruct (Str.rstrip p s) as [|d r].
  - destruct (p c); simpl; [reflexivity|]. rewrite Hc. reflexivity.
  - change (Str.forallb q (String c (String d r)))
      with (q c && Str.forallb q (String d r)).
    rewrite Hc, IH. reflexivity.
Qed.

(** The first character, if any, is not one that [p] strips. *)
Definition head_kept (p : ascii -> bool) (s : string) : bool :=
  match s with
  | EmptyString => true
  | String c _ => negb (p c)
  end.

Lemma lstrip_head_kept (p : ascii -> bool) (s : string) :
  head_kept p (Str.lstrip p s) = true.
Proof.
  induction s as [|c s IH]; simpl; [reflexivity|].
  destruct (p c) eqn:E; [exact IH|]. simpl. rewrite E. reflexivity.
Qed.

Lemma rstrip_head_kept (p : ascii -> bool) (s : string) :
  head_kept p s = true -> head_kept p (Str.rstrip p s) = true.
Proof.
  destruct s as [|c s]; simpl; [reflexivity|].
  intros H. destruct (Str.rstrip p s); [|exact H].
  destruct (p c) eqn:E; [discriminate H|]. simpl. rewrite E. reflexivity.
Qed.

Lemma lstrip_fixed (p : ascii -> bool) (s : string) :
  head_kept p s = true -> Str.lstrip p s = s.
Proof.
  destruct s as [|c s]; simpl; [reflexivity|].
  destruct (p c); [discriminate | reflexivity].
Qed.

Lemma rstrip_rstrip (p : ascii -> bool) (s : string) :
  Str.rstrip p (Str.rstrip p s) = Str.rstrip p s.
Proof.
  induction s as [|c s IH]; simpl; [reflexivity|].
  destruct (Str.rstrip p s) as [|d r] eqn:E.
  - destruct (p c) eqn:Hc; simpl; [reflexivity|]. rewrite Hc. reflexivity.
  - change (Str.rstrip p (String c (String d r)))
      with (match Str.rstrip p (String d r) with
            | EmptyString => if p c then EmptyString else String c EmptyString
            | r' => String c r'
            end).
    rewrite IH. reflexivity.
Qed.

Lemma strip_strip (p : ascii -> bool) (s : string) :
  Str.strip p (Str.strip p s) = Str.strip p s.
Proof.
  unfold Str.strip.
  rewrite (lstrip_fixed p (Str.rstrip p (Str.lstrip p s)))
    by apply rstrip_head_kept, lstrip_head_kept.
  apply rstrip_rstrip.
Qed.

Lemma rstrip_last_kept (p : ascii -> bool) (s : string) :
  forall t c, Str.rstrip p s = t +:+ String c EmptyString -> p c = false.
Proof.
  induction s as [|a s IH]; intros t c; simpl.
  - destruct t; discriminate.
  - destruct (Str.rstrip p s) as [|d r] eqn:E.
    + destruct (p a) eqn:Ha; [destruct t; discriminate|].
      destruct t as [|b t]; simpl; [intros [= <-]; exact Ha|].
      destruct t; discriminate.
    + destruct t as [|b t]; simpl; [discriminate|].
      intros [= _ H]. apply (IH t c). exact H.
Qed.

(** The name before the fallback: [re.sub], [replace] and [strip]. *)
Definition stripped_name (name : string) : string :=
  Str.strip (Str.is_char "_")
    (Str.replace_char " " "_" (re_sub_disallowed name)).

Lemma sanitize_filename_cases (name : string) :
  sanitize_filename name = "deelroute" \/
  (sanitize_filename name = stripped_name name /\
   Str.truthy (stripped_name name) = true).
Proof.
  unfold sanitize_filename. fold (stripped_name name).
  destruct (Str.truthy name); simpl; [|left; reflexivity].
  destruct (Str.truthy (stripped_name name)); [right|left]; auto.
Qed.

Lemma stripped_name_file_chars (name : string) :
  Str.forallb file_char (stripped_name name) = true.
Proof.
  unfold stripped_name, Str.strip.
  apply forallb_rstrip_keeps, forallb_lstrip_keeps.
  unfold Str.replace_char, re_sub_disallowed.
  induction name as [|c s IH]; simpl; [reflexivity|].
  rewrite (sanitize_char_file_char c), IH. reflexivity.
Qed.

Lemma sanitize_filename_file_chars (name : string) :
  Str.forallb file_char (sanitize_filename name) = true.
Proof.
  destruct (sanitize_filename_cases name) as [-> | [-> _]];
    [reflexivity | apply stripped_name_file_chars].
Qed.

Lemma sanitize_filename_truthy (name : string) :
  Str.truthy (sanitize_filename name) = true.
Proof.
  destruct (sanitize_filename_cases name) as [-> | [-> H]];
    [reflexivity | exact H].
Qed.

(** X1: whatever the name, [sanitize_filename] returns a non-empty string
    of letters, digits, underscores and hyphens that neither starts nor
    ends with an underscore. *)
Theorem sanitize_filename_safe (name : string) :
  sanitize_filename name <> "" /\
  Str.forallb file_char (sanitize_filename name) = true /\
  (forall t, sanitize_filename name <> "_" +:+ t) /\
  (forall t, sanitize_filename name <> t +:+ "_").
Proof.
  split.
  { pose proof (sanitize_filename_truthy name) as H.
    destruct (sanitize_filename name); [discriminate H | discriminate]. }
  split; [apply sanitize_filename_file_chars|].
  destruct (sanitize_filename_cases name) as [-> | [-> _]].
  - split; intros t H; [discriminate H|].
    do 9 (destruct t as [|? t]; [discriminate H|]; injection H as _ H).
    destruct t; discriminate H.
  - unfold stripped_name, Str.strip. split; intros t H.
    + pose proof (rstrip_head_kept (Str.is_char "_") _
                    (lstrip_head_kept (Str.is_char "_")
                       (Str.replace_char " " "_" (re_sub_disallowed name))))
        as Hh.
      rewrite H in Hh. discriminate Hh.
    + apply rstrip_last_kept in H. discriminate H.
Qed.

Lemma stripped_name_fixed (s : string) :
  Str.forallb file_char s = true ->
  Str.strip (Str.is_char "_") s = s ->
  stripped_name s = s.
Proof.
  intros Hs Hstrip. unfold stripped_name, re_sub_disallowed, Str.replace_char.
  rewrite (map_fixed file_char _ s) by
    (exact Hs || intros c Hc; apply (file_char_fixed c Hc)).
  rewrite (map_fixed file_char _ s) by
    (exact Hs || intros c Hc; apply (file_char_fixed c Hc)).
  exact Hstrip.
Qed.

(** X2: [sanitize_filename] is idempotent: a name that is already
    sanitized is returned as it is. *)
Theorem sanitize_filename_idempotent (name : string) :
  sanitize_filename (sanitize_filename name) = sanitize_filename name.
Proof.
  destruct (sanitize_filename_cases name) as [-> | [-> Ht]]; [reflexivity|].
  assert (E : stripped_name (stripped_name name) = stripped_name name).
  { apply stripped_name_fixed; [apply stripped_name_file_chars|].
    unfold stripped_name. apply strip_strip. }
  unfold sanitize_filename. fold (stripped_name (stripped_name name)).
  rewrite Ht, E. simpl. rewrite Ht. reflexivity.
Qed.

(** ** Where the track files go *)

Lemma append_cons (x : ascii) (a b : string) :
  String x a +:+ b = String x (a +:+ b).
Proof. reflexivity. Qed.

Lemma append_assoc (a b c : string) : (a +:+ b) +:+ c = a +:+ (b +:+ c).
Proof.
  induction a as [|x a IH]; [reflexivity|].
  rewrite !append_cons, IH. reflexivity.
Qed.

Lemma append_length (a b : string) :
  String.length (a +:+ b) = (String.length a + String.length b)%nat.
Proof.
  induction a as [|x a IH]; [reflexivity|].
  rewrite append_cons. simpl. rewrite IH. reflexivity.
Qed.

Lemma append_inv_tail (a b c : string) : a +:+ c = b +:+ c -> a = b.
Proof.
  revert b. induction a as [|x a IH]; intros [|y b] H.
  - reflexivity.
  - apply (f_equal String.length) in H.
    rewrite !append_length in H. simpl in H. lia.
  - apply (f_equal String.length) in H.
    rewrite !append_length in H. simpl in H. lia.
  - rewrite !append_cons in H. injection H as -> H.
    rewrite (IH b H). reflexivity.
Qed.

Lemma file_char_not_sep (c : ascii) :
  file_char c = true -> Str.is_char os_path.sep c = false.
Proof.
  destruct c as [[] [] [] [] [] [] [] []]; vm_compute;
    intros H; first [discriminate H | reflexivity].
Qed.

(** The folder part of a path that [os.path.join] builds below
    [target_folder]. *)
Definition folder_prefix (target_folder : string) : string :=
  if negb (Str.truthy target_folder)
     || Str.endswith_char os_path.sep target_folder
  then target_folder else target_folder +:+ "/".

Lemma join_file_name (target_folder name : string) :
  Str.truthy name = true -> Str.forallb file_char name = true ->
  os_path.join target_folder (name +:+ ".gpx")
    = folder_prefix target_folder +:+ name +:+ ".gpx".
Proof.
  intros Ht Hn. unfold os_path.join, folder_prefix.
  destruct name as [|c name]; [discriminate Ht|].
  simpl in Hn. apply andb_prop in Hn as [Hc _].
  change (Str.startswith_char os_path.sep (String c name +:+ ".gpx"))
    with (Str.is_char os_path.sep c).
  rewrite (file_char_not_sep c Hc).
  destruct (negb (Str.truthy target_folder)
            || Str.endswith_char os_path.sep target_folder);
    [reflexivity|].
  rewrite append_assoc. reflexivity.
Qed.

(** X3: every track file lies directly in the target folder: its path is
    the folder, a separator unless the folder is empty or ends with one,
    the sanitized name and [.gpx], and the name holds no separator. *)
Theorem output_path_in_target_folder (target_folder : string) (idx : nat)
    (track : Element) :
  output_path target_folder idx track
    = folder_prefix target_folder
      +:+ sanitize_filename (track_name idx track) +:+ ".gpx" /\
  Str.forallb (fun c => negb (Str.is_char os_path.sep c))
    (sanitize_filename (track_name idx track)) = true.
Proof.
  split.
  - unfold output_path. apply join_file_name;
      [apply sanitize_filename_truthy | apply sanitize_filename_file_chars].
  - pose proof (sanitize_filename_file_chars (track_name idx track)) as H.
    revert H. generalize (sanitize_filename (track_name idx track)).
    intros s. induction s as [|c s IH]; simpl; [reflexivity|].
    intros [Hc Hs]%andb_prop.
    rewrite (file_char_not_sep c Hc), (IH Hs). reflexivity.
Qed.

(** ** Tracks without a name *)

(** A track with no [name] child, or with one that has no text. *)
Definition unnamed (track : Element) : Prop :=
  ET.find (qname GPX_NS "name") track = None \/
  exists j name_elem,
    ET.find (qname GPX_NS "name") track = Some (j, name_elem) /\
    (text name_elem = None \/ text name_elem = Some "").

Lemma unnamed_track_name (idx : nat) (track : Element) :
  unnamed track -> track_name idx track = "deelroute_" +:+ pretty idx.
Proof.
  unfold track_name.
  intros [-> | (j & e & -> & [-> | ->])]; reflexivity.
Qed.

Definition is_digit (c : ascii) : bool :=
  let n := Str.code c in ((48 <=? n) && (n <=? 57))%N.

Lemma pretty_N_char_digit (x : N) : is_digit (pretty_N_char x) = true.
Proof. unfold pretty_N_char. repeat case_match; reflexivity. Qed.

Lemma pretty_N_go_digits (x : N) :
  forall s, Str.forallb is_digit s = true ->
            Str.forallb is_digit (pretty_N_go x s) = true.
Proof.
  induction (N.lt_wf_0 x) as [x _ IH]; intros s Hs.
  destruct (decide (x = 0)%N) as [->|Hx]; [exact Hs|].
  rewrite pretty_N_go_step by lia.
  apply IH; [apply N.div_lt; lia|].
  simpl. rewrite pretty_N_char_digit. exact Hs.
Qed.

Lemma pretty_N_go_truthy (x : N) :
  forall s, Str.truthy s = true -> Str.truthy (pretty_N_go x s) = true.
Proof.
  induction (N.lt_wf_0 x) as [x _ IH]; intros s Hs.
  destruct (decide (x = 0)%N) as [->|Hx]; [exact Hs|].
  rewrite pretty_N_go_step by lia.
  apply IH; [apply N.div_lt; lia | reflexivity].
Qed.

Lemma pretty_nat_digits (n : nat) :
  Str.forallb is_digit (pretty n) = true /\ Str.truthy (pretty n) = true.
Proof.
  unfold pretty, pretty_nat, pretty, pretty_N.
  destruct (decide (N.of_nat n = 0)%N) as [_|Hn]; [split; reflexivity|].
  split; [apply pretty_N_go_digits; reflexivity|].
  rewrite pretty_N_go_step by lia. apply pretty_N_go_truthy. reflexivity.
Qed.

Lemma digit_file_char (c : ascii) :
  is_digit c = true -> file_char c = true /\ Str.is_char "_" c = false.
Proof.
  destruct c as [[] [] [] [] [] [] [] []]; vm_compute;
    intros H; first [discriminate H | split; reflexivity].
Qed.

Lemma rstrip_digits (s : string) :
  Str.truthy s = true -> Str.forallb is_digit s = true ->
  Str.rstrip (Str.is_char "_") s = s.
Proof.
  induction s as [|c s IH]; [discriminate|]. intros _ H. simpl in H.
  apply andb_prop in H as [Hc Hs]. simpl.
  destruct s as [|d s].
  - simpl. rewrite (proj2 (digit_file_char c Hc)). reflexivity.
  - rewrite (IH eq_refl Hs). reflexivity.
Qed.

Lemma rstrip_append (p : ascii -> bool) (a b : string) :
  Str.truthy b = true -> Str.rstrip p b = b ->
  Str.rstrip p (a +:+ b) = a +:+ b.
Proof.
  intros Hb Hr. induction a as [|x a IH]; [exact Hr|].
  rewrite append_cons. simpl. rewrite IH.
  destruct (a +:+ b) eqn:E; [|reflexivity].
  destruct a; [|discriminate E].
  change ("" +:+ b) with b in E. subst b. discriminate Hb.
Qed.

Lemma forallb_append (q : ascii -> bool) (a b : string) :
  Str.forallb q a = true -> Str.forallb q b = true ->
  Str.forallb q (a +:+ b) = true.
Proof.
  intros Ha Hb. induction a as [|x a IH]; [exact Hb|].
  simpl in Ha. apply andb_prop in Ha as [Hx Ha].
  rewrite append_cons. simpl. rewrite Hx, (IH Ha). reflexivity.
Qed.

(** The fallback label of a track is a sanitized name already. *)
Lemma sanitize_fallback_label (idx : nat) :
  sanitize_filename ("deelroute_" +:+ pretty idx)
    = "deelroute_" +:+ pretty idx.
Proof.
  destruct (pretty_nat_digits idx) as [Hd Ht].
  assert (Hf : Str.forallb file_char ("deelroute_" +:+ pretty idx) = true).
  { apply forallb_append; [reflexivity|].
    revert Hd. generalize (pretty idx). intros s.
    induction s as [|c s IH]; simpl; [reflexivity|].
    intros [Hc Hs]%andb_prop.
    rewrite (proj1 (digit_file_char c Hc)), (IH Hs). reflexivity. }
  assert (E : stripped_name ("deelroute_" +:+ pretty idx)
              = "deelroute_" +:+ pretty idx).
  { apply stripped_name_fixed; [exact Hf|].
    unfold Str.strip.
    change (Str.lstrip (Str.is_char "_") ("deelroute_" +:+ pretty idx))
      with ("deelroute_" +:+ pretty idx).
    apply rstrip_append; [exact Ht | apply rstrip_digits; assumption]. }
  unfold sanitize_filename.
  fold (stripped_name ("deelroute_" +:+ pretty idx)). rewrite E. reflexivity.
Qed.

(** X4: two tracks without a name never share a file: their fallback
    labels [deelroute_<idx>] survive sanitizing unchanged, so different
    ordinals give different paths in the same target folder. *)
Theorem unnamed_tracks_get_distinct_files (target_folder : string)
    (idx idx' : nat) (track track' : Element) :
  unnamed track -> unnamed track' -> idx <> idx' ->
  output_path target_folder idx track
    = folder_prefix target_folder +:+ "deelroute_" +:+ pretty idx +:+ ".gpx" /\
  output_path target_folder idx track
    <> output_path target_folder idx' track'.
Proof.
  intros Hu Hu' Hne.
  pose proof (output_path_name := fun i t (H : unnamed t) =>
    eq_trans
      (f_equal (fun n => os_path.join target_folder (sanitize_filename n +:+ ".gpx"))
         (unnamed_track_name i t H))
      (f_equal (fun n => os_path.join target_folder (n +:+ ".gpx"))
         (sanitize_fallback_label i))).
  assert (Hjoin : forall i : nat,
    os_path.join target_folder (("deelroute_" +:+ pretty i) +:+ ".gpx")
    = folder_prefix target_folder +:+ "deelroute_" +:+ pretty i +:+ ".gpx").
  { intros i. rewrite join_file_name; [rewrite append_assoc; reflexivity|..].
    - reflexivity.
    - rewrite <- (sanitize_fallback_label i).
      apply sanitize_filename_file_chars. }
  unfold output_path in *.
  rewrite (output_path_name idx track Hu), (output_path_name idx' track' Hu').
  rewrite !Hjoin. split; [reflexivity|].
  intros E. apply String.app_inj in E.
  apply (String.app_inj "deelroute_") in E. apply append_inv_tail in E.
  apply Hne. apply (inj pretty). exact E.
Qed.

Lemma unnamed_tracks_get_distinct_files_witness :
  let t1 := Sample.trk None [Sample.trkpt "10" "20"] in
  let t2 := Sample.trk None [] in
  output_path "/data/out" 3 t1 = "/data/out/deelroute_3.gpx" /\
  output_path "/data/out" 3 t1 <> output_path "/data/out" 12 t2.
Proof.
  intros t1 t2.
  apply (unnamed_tracks_get_distinct_files "/data/out" 3 12 t1 t2);
    [left; reflexivity | left; reflexivity | lia].
Defined.

(** ** The palette for any [n] *)

Lemma safe_colors_walk_result (fuel : nat) :
  forall n step hue_deg entries result,
    safe_colors_walk fuel n step hue_deg entries = Done result ->
    Z.of_nat (length result) = Z.max n (Z.of_nat (length entries)) /\
    exists more,
      result = entries ++ more /\
      Forall (fun entry =>
                outside_bands entry.1 /\ hex_of_hue entry.1 = Done entry.2)
        more.
Proof.
  induction fuel as [|fuel IH]; intros n step hue entries result; simpl;
    destruct (Z.of_nat (length entries) <? n) eqn:Hlt;
    try discriminate;
    try (intros [= <-]; split; [apply Z.ltb_ge in Hlt; lia|];
         exists []; rewrite app_nil_r; split; [reflexivity | constructor]).
  apply Z.ltb_lt in Hlt.
  destruct (banned hue) eqn:Hb; simpl.
  - apply IH.
  - destruct (hex_of_hue hue) as [c| |] eqn:Hc; simpl; try discriminate.
    intros H. apply IH in H as (Hlen & more & -> & Hmore).
    split; [rewrite !length_app in *; simpl in *; lia|].
    exists ((hue, c) :: more).
    rewrite <- app_assoc. split; [reflexivity|].
    constructor; [|exact Hmore].
    split; [apply banned_false_outside, Hb | exact Hc].
Qed.

(** X5: whenever [generate_safe_colors n] returns, for any [n], it
    returns exactly [n] colours (none for a negative [n]); every colour is
    the one made from the value [hue_deg] had when the loop appended it,
    and that starting hue is in none of the bands [50,70], [100,140] and
    [180,210]; for [n >= 1] the first colour is always [#D80000], the
    colour of hue 0. *)
Theorem generate_safe_colors_result (fuel : nat) (n : Z)
    (colors : list string) :
  generate_safe_colors fuel n = Done colors ->
  Z.of_nat (length colors) = Z.max n 0 /\
  (exists entries,
     generate_safe_colors_walk fuel n = Done entries /\
     colors = entries.*2 /\
     Forall (fun entry =>
               outside_bands entry.1 /\ hex_of_hue entry.1 = Done entry.2)
       entries) /\
  (1 <= n -> head colors = Some "#D80000").
Proof.
  rewrite generate_safe_colors_walk_colors.
  destruct (generate_safe_colors_walk fuel n) as [entries| |] eqn:Hwalk;
    try discriminate.
  intros [= <-]. unfold generate_safe_colors_walk in Hwalk.
  destruct (Py.truediv 360 n) as [step| |]; cbn [mbind outcome_bind] in Hwalk;
    try discriminate.
  pose proof Hwalk as H.
  apply safe_colors_walk_result in H as (Hlen & more & -> & Hmore).
  simpl in *. rewrite length_fmap.
  split; [exact Hlen|]. split; [exists more; auto|].
  intros Hn.
  assert (Hlt : (Z.of_nat (length (@nil (float * string))) <? n) = true)
    by (apply Z.ltb_lt; simpl; lia).
  destruct fuel as [|fuel]; cbn [safe_colors_walk] in Hwalk;
    rewrite Hlt in Hwalk; [discriminate Hwalk|].
  change (banned 0) with false in Hwalk.
  change (hex_of_hue 0) with (@Done string "#D80000") in Hwalk.
  cbn [mbind outcome_bind app] in Hwalk.
  apply safe_colors_walk_result in Hwalk as (_ & more' & E' & _).
  rewrite E'. reflexivity.
Qed.

Lemma generate_safe_colors_result_witness :
  Z.of_nat (length COLORS) = Z.max 8 0 /\
  (exists entries,
     generate_safe_colors_walk 16 8 = Done entries /\
     COLORS = entries.*2 /\
     Forall (fun entry =>
               outside_bands entry.1 /\ hex_of_hue entry.1 = Done entry.2)
       entries) /\
  (1 <= 8 -> head COLORS = Some "#D80000").
Proof.
  apply (generate_safe_colors_result 16 8 COLORS).
  vm_compute. reflexivity.
Defined.



(** ** Colour of an ordinal *)

(** The colours that are ever assigned: the palette without its two
    repeated entries. *)
Definition assigned_colors : list string :=
  ["#D80000"; "#D8A200"; "#6CD800"; "#0036D8"; "#6C00D8"; "#D800A2"].

(** X7: the colour lookup never fails; it depends on the ordinal only,
    with period 8, and yields one of six colours, because the seventh and
    eighth entry of the palette repeat the first and second. *)
Theorem chosen_color_of_ordinal (idx : nat) :
  (1 <= idx)%nat ->
  exists c,
    chosen_color idx = Done c /\
    c ∈ assigned_colors /\
    chosen_color (idx + 8) = Done c /\
    (((idx - 1) `mod` 8 = 6)%nat -> chosen_color 1 = Done c) /\
    (((idx - 1) `mod` 8 = 7)%nat -> chosen_color 2 = Done c).
Proof.
  intros Hidx. rewrite !chosen_color_Done.
  assert (E : color_of (idx + 8) = color_of idx).
  { unfold color_of. change (length COLORS) with 8%nat.
    replace (idx + 8 - 1)%nat with ((idx - 1) + 1 * 8)%nat by lia.
    rewrite Nat.Div0.mod_add. reflexivity. }
  exists (color_of idx). rewrite E.
  split; [reflexivity|]. split; [|split; [reflexivity|]].
  - unfold color_of. change (length COLORS) with 8%nat.
    pose proof (Nat.mod_upper_bound (idx - 1) 8 ltac:(lia)) as Hlt.
    destruct ((idx - 1) `mod` 8)%nat as [|[|[|[|[|[|[|[|k]]]]]]]];
      try lia; vm_compute; set_solver.
  - unfold color_of. change (length COLORS) with 8%nat.
    split; intros ->; reflexivity.
Qed.

Lemma chosen_color_of_ordinal_witness :
  exists c,
    chosen_color 7 = Done c /\
    c ∈ assigned_colors /\
    chosen_color (7 + 8) = Done c /\
    (((7 - 1) `mod` 8 = 6)%nat -> chosen_color 1 = Done c) /\
    (((7 - 1) `mod` 8 = 7)%nat -> chosen_color 2 = Done c).
Proof. apply (chosen_color_of_ordinal 7). lia. Defined.

(** ** The box for any track *)

Section AnyTrack.
Variable float_of_str : string -> option float.
Hypothesis float_of_str_empty : float_of_str "" = None.

(** The latitude [lats.append] receives from a point, if any: that of a
    point with both attributes non-empty and a [lat] that parses. *)
Definition appended_lat (pt : Element) : option float :=
  match ET.get "lat" pt, ET.get "lon" pt with
  | Some lat, Some lon =>
      if Str.truthy lat && Str.truthy lon then float_of_str lat else None
  | _, _ => None
  end.

Lemma bounds_step_general (acc : list float * list float) (pt : Element) :
  bounds_step float_of_str acc pt =
    (acc.1 ++ option_list (appended_lat pt),
     acc.2 ++ option_list (snd <$> parsed_coords float_of_str pt)).
Proof.
  destruct acc as [lats lons].
  unfold bounds_step, appended_lat, parsed_coords, opt_truthy.
  destruct (ET.get "lat" pt) as [lat|], (ET.get "lon" pt) as [lon|]; simpl;
    rewrite ?app_nil_r; try reflexivity;
    [|destruct (Str.truthy lat); reflexivity].
  destruct (Str.truthy lat) eqn:Hlat; simpl.
  - destruct (Str.truthy lon) eqn:Hlon; simpl.
    + destruct (float_of_str lat) as [a|]; simpl;
        [|rewrite !app_nil_r; reflexivity].
      destruct (float_of_str lon) as [b|]; simpl;
        rewrite ?app_nil_r; reflexivity.
    + apply truthy_false in Hlon as ->. rewrite float_of_str_empty.
      destruct (float_of_str lat); simpl; rewrite !app_nil_r; reflexivity.
  - apply truthy_false in Hlat as ->. rewrite float_of_str_empty. simpl.
    rewrite !app_nil_r. reflexivity.
Qed.

Lemma collect_coords_general (pts : list Element) :
  collect_coords float_of_str pts =
    (omap appended_lat pts, (valid_points float_of_str pts).*2).
Proof.
  unfold collect_coords.
  enough (forall acc,
    foldl (bounds_step float_of_str) acc pts =
      (acc.1 ++ omap appended_lat pts,
       acc.2 ++ (valid_points float_of_str pts).*2))
    as H by apply (H ([], [])).
  induction pts as [|pt pts IH]; intros [lats lons].
  - simpl. rewrite !app_nil_r. reflexivity.
  - cbn [foldl]. rewrite bounds_step_general, IH.
    unfold valid_points. simpl.
    destruct (appended_lat pt), (parsed_coords float_of_str pt) as [[a b]|];
      simpl; rewrite <- ?app_assoc, ?app_nil_r; reflexivity.
Qed.

(** A valid point is a point whose latitude is appended. *)
Lemma parsed_coords_appended (pt : Element) (a b : float) :
  parsed_coords float_of_str pt = Some (a, b) -> appended_lat pt = Some a.
Proof.
  unfold parsed_coords, appended_lat.
  destruct (ET.get "lat" pt) as [lat|], (ET.get "lon" pt) as [lon|];
    simpl; try discriminate.
  destruct (float_of_str lat) as [a'|] eqn:Ha; simpl; [|discriminate].
  destruct (float_of_str lon) as [b'|] eqn:Hb; simpl; [|discriminate].
  intros [= <- <-].
  destruct (Str.truthy lat) eqn:Hlat;
    [|apply truthy_false in Hlat as ->; congruence].
  destruct (Str.truthy lon) eqn:Hlon;
    [|apply truthy_false in Hlon as ->; congruence].
  reflexivity.
Qed.

Lemma valid_points_appended (pts : list Element) :
  valid_points float_of_str pts <> [] -> omap appended_lat pts <> [].
Proof.
  induction pts as [|pt pts IH]; [intros H; contradiction H; reflexivity|].
  unfold valid_points in *. simpl.
  destruct (parsed_coords float_of_str pt) as [[a b]|] eqn:E.
  - rewrite (parsed_coords_appended pt a b E). discriminate.
  - intros H. destruct (appended_lat pt); [discriminate | apply IH, H].
Qed.

(** X8: for every parser that rejects the empty string, whatever the
    points hold (NaN, half-parsed points), [calculate_bounds] returns no
    box exactly when the track has no point whose [lat] and [lon] both
    parse. *)
Theorem calculate_bounds_None_iff (track : Element) :
  calculate_bounds float_of_str track = None <->
  valid_points float_of_str (trkpts_of track) = [].
Proof.
  unfold calculate_bounds. fold (trkpts_of track).
  rewrite collect_coords_general.
  pose proof (valid_points_appended (trkpts_of track)) as H.
  destruct (valid_points float_of_str (trkpts_of track)) as [|[a b] V];
    simpl in *.
  - split; [reflexivity|]. intros _.
    destruct (omap appended_lat (trkpts_of track)); reflexivity.
  - destruct (omap appended_lat (trkpts_of track));
      [exfalso; apply H; [discriminate | reflexivity]|].
    split; discriminate.
Qed.

Lemma py_min_in (l : list float) : forall cur, py_min cur l ∈ cur :: l.
Proof.
  induction l as [|x l IH]; intros cur; [apply elem_of_cons; left; reflexivity|].
  change (py_min cur (x :: l))
    with (py_min (if (x <? cur)%float then x else cur) l).
  pose proof (IH (if (x <? cur)%float then x else cur)) as H.
  apply elem_of_cons in H as [H | H].
  - rewrite H. destruct (x <? cur)%float; rewrite !elem_of_cons; auto.
  - rewrite !elem_of_cons. auto.
Qed.

Lemma py_max_in (l : list float) : forall cur, py_max cur l ∈ cur :: l.
Proof.
  induction l as [|x l IH]; intros cur; [apply elem_of_cons; left; reflexivity|].
  change (py_max cur (x :: l))
    with (py_max (if (cur <? x)%float then x else cur) l).
  pose proof (IH (if (cur <? x)%float then x else cur)) as H.
  apply elem_of_cons in H as [H | H].
  - rewrite H. destruct (cur <? x)%float; rewrite !elem_of_cons; auto.
  - rewrite !elem_of_cons. auto.
Qed.

(** X9: every value of the box is a coordinate read from the track: the
    two latitudes are parsed [lat] attributes of track points, and the two
    longitudes are longitudes of points whose [lat] and [lon] both parse. *)
Theorem calculate_bounds_values_from_points (track : Element)
    (minlat minlon maxlat maxlon : float) :
  calculate_bounds float_of_str track
    = Some (minlat, minlon, maxlat, maxlon) ->
  (forall x, x = minlat \/ x = maxlat ->
     exists pt lat,
       pt ∈ trkpts_of track /\ ET.get "lat" pt = Some lat /\
       float_of_str lat = Some x) /\
  (forall y, y = minlon \/ y = maxlon ->
     exists pt a,
       pt ∈ trkpts_of track /\ parsed_coords float_of_str pt = Some (a, y)).
Proof.
  unfold calculate_bounds. fold (trkpts_of track).
  rewrite collect_coords_general.
  destruct (omap appended_lat (trkpts_of track)) as [|la lats] eqn:Hlats;
    [discriminate|].
  destruct ((valid_points float_of_str (trkpts_of track)).*2)
    as [|lo lons] eqn:Hlons; [discriminate|].
  intros [= <- <- <- <-]. split.
  - intros x Hx.
    assert (Hin : x ∈ omap appended_lat (trkpts_of track)).
    { rewrite Hlats. destruct Hx as [-> | ->];
        [apply py_min_in | apply py_max_in]. }
    apply list_elem_of_omap in Hin as (pt & Hpt & Ha).
    unfold appended_lat in Ha.
    destruct (ET.get "lat" pt) as [lat|] eqn:Hlat; [|discriminate].
    destruct (ET.get "lon" pt) as [lon|]; [|discriminate].
    destruct (Str.truthy lat && Str.truthy lon); [|discriminate].
    exists pt, lat. auto.
  - intros y Hy.
    assert (Hin : y ∈ (valid_points float_of_str (trkpts_of track)).*2).
    { rewrite Hlons. destruct Hy as [-> | ->];
        [apply py_min_in | apply py_max_in]. }
    apply list_elem_of_fmap in Hin as ([a b] & -> & Hin).
    apply list_elem_of_omap in Hin as (pt & Hpt & Hp).
    exists pt, a. auto.
Qed.

End AnyTrack.

Lemma calculate_bounds_values_from_points_witness :
  let track :=
    Sample.trk None [Sample.trkpt "10" "20"; Sample.trkpt "99" "abc"] in
  (forall x, x = 10%float \/ x = 99%float ->
     exists pt lat,
       pt ∈ trkpts_of track /\ ET.get "lat" pt = Some lat /\
       Sample.float_of_str lat = Some x) /\
  (forall y, y = 20%float \/ y = 20%float ->
     exists pt a,
       pt ∈ trkpts_of track /\
       parsed_coords Sample.float_of_str pt = Some (a, y)).
Proof.
  intros track.
  apply (calculate_bounds_values_from_points Sample.float_of_str eq_refl track
           10%float 20%float 99%float 20%float).
  vm_compute. reflexivity.
Defined.

Lemma calculate_bounds_None_iff_witness :
  let track := Sample.trk None [Sample.trkpt "99" "abc"; Sample.trkpt "" "7"] in
  calculate_bounds Sample.float_of_str track = None <->
  valid_points Sample.float_of_str (trkpts_of track) = [].
Proof.
  intros track.
  exact (calculate_bounds_None_iff Sample.float_of_str eq_refl track).
Defined.

(** ** The bounds step, run again *)

Lemma add_bounds_children (str_of_float : float -> string) (track : Element)
    (b : float * float * float * float) :
  add_bounds str_of_float track (Some b)
    = ET.insert0 (bounds_elem str_of_float b) track.
Proof. destruct b as [[[a b] c] d]. reflexivity. Qed.

Lemma trkpts_of_insert0 (str_of_float : float -> string) (track : Element)
    (b : float * float * float * float) :
  trkpts_of (ET.insert0 (bounds_elem str_of_float b) track) = trkpts_of track.
Proof.
  unfold trkpts_of. rewrite !findall_desc_children.
  destruct b as [[[a b] c] d]. reflexivity.
Qed.

(** X10: the bounds step is not idempotent. Run on a track that already
    carries its [bounds] element, [calculate_bounds] finds the same box
    (the element is no track point) and [add_bounds] inserts a second,
    equal element in front of the first one. *)
Theorem add_bounds_repeats (float_of_str : string -> option float)
    (str_of_float : float -> string) (track : Element)
    (b : float * float * float * float) :
  calculate_bounds float_of_str track = Some b ->
  let track1 :=
    add_bounds str_of_float track (calculate_bounds float_of_str track) in
  calculate_bounds float_of_str track1 = Some b /\
  children
    (add_bounds str_of_float track1 (calculate_bounds float_of_str track1))
  = bounds_elem str_of_float b :: bounds_elem str_of_float b
    :: children track.
Proof.
  intros Hb track1. subst track1. rewrite Hb, add_bounds_children.
  assert (E : calculate_bounds float_of_str
                (ET.insert0 (bounds_elem str_of_float b) track) = Some b).
  { unfold calculate_bounds in *.
    fold (trkpts_of (ET.insert0 (bounds_elem str_of_float b) track)).
    fold (trkpts_of track) in Hb. rewrite trkpts_of_insert0. exact Hb. }
  split; [exact E|]. rewrite E, add_bounds_children. reflexivity.
Qed.

Lemma add_bounds_repeats_witness :
  let track :=
    Sample.trk None [Sample.trkpt "10" "20"; Sample.trkpt "12" "18"] in
  let b := (10, 18, 12, 20)%float in
  let track1 :=
    add_bounds Sample.str_of_float track
      (calculate_bounds Sample.float_of_str track) in
  calculate_bounds Sample.float_of_str track1 = Some b /\
  children
    (add_bounds Sample.str_of_float track1
       (calculate_bounds Sample.float_of_str track1))
  = bounds_elem Sample.str_of_float b :: bounds_elem Sample.str_of_float b
    :: children track.
Proof.
  intros track b.
  apply (add_bounds_repeats Sample.float_of_str Sample.str_of_float track b).
  vm_compute. reflexivity.
Defined.

(** ** Reading the colours back *)

(** The text the generic injection would find: that of the first
    [display_color] child of the first [extensions] child. *)
Definition read_standard (track : Element) : option string :=
  match ET.find "extensions" track with
  | Some (_, std_ext) =>
      match ET.find "display_color" std_ext with
      | Some (_, disp) => text disp
      | None => None
      end
  | None => None
  end.

(** The text the vendor injection would find: that of the first vendor
    [DisplayColor] descendant. *)
Definition read_gpxt (track : Element) : option string :=
  match ET.findall_desc gpxt_DisplayColor track with
  | disp :: _ => text disp
  | [] => None
  end.

Lemma find_upsert (t : string) (f : Element -> Element) (e : Element) :
  (forall c, tag (f c) = tag c) ->
  exists i c, ET.find t (upsert t f e) = Some (i, f c).
Proof.
  intros Hf. destruct e as [tg a x tl cs].
  destruct (ET.find t (Elem tg a x tl cs)) as [[i c]|] eqn:Hfind.
  - apply find_split in Hfind as (l1 & l2 & E & _ & Hc & H1).
    simpl in E. subst cs. rewrite upsert_found by assumption.
    exists (length l1), c. unfold ET.find. simpl.
    apply list_find_middle; [exact H1 | rewrite Hf; exact Hc].
  - rewrite upsert_created by exact Hfind. simpl.
    exists (length cs), (ET.Element_new t). unfold ET.find. simpl.
    apply list_find_middle; [exact Hfind | rewrite Hf; reflexivity].
Qed.

Lemma read_standard_add (track : Element) (hex : string) :
  read_standard (add_standard_display_color track hex) = Some hex.
Proof.
  rewrite add_standard_display_color_upsert. unfold read_standard.
  destruct (find_upsert "extensions"
              (upsert "display_color" (ET.set_text hex)) track
              (fun c => upsert_tag _ _ c)) as (i & ext & ->).
  destruct (find_upsert "display_color" (ET.set_text hex) ext
              (fun c => eq_refl)) as (j & disp & ->).
  reflexivity.
Qed.

Lemma update_first_desc_findall (t : string) (f : Element -> Element)
    (e : Element) :
  (forall c, tag (f c) = tag c) ->
  (forall c, ET.descendants (f c) = ET.descendants c) ->
  forall e', ET.update_first_desc t f e = Some e' ->
    exists x r,
      ET.findall_desc t e = x :: r /\ ET.findall_desc t e' = f x :: r.
Proof.
  intros Htag Hdesc.
  induction e as [tg a x tl cs IH] using Element_ind. intros e'.
  rewrite update_first_desc_children.
  destruct (update_first_in t f cs) as [cs'|] eqn:Hcs; simpl; [|discriminate].
  intros [= <-]. rewrite !findall_desc_children. simpl.
  revert cs' Hcs.
  induction IH as [|c cs Hc _ IHcs]; intros cs'; simpl; [discriminate|].
  destruct (ET.has_tag t c) eqn:Ht.
  - intros [= <-]. simpl. unfold ET.has_tag in *.
    rewrite Htag, Ht, Hdesc. eauto.
  - destruct (ET.update_first_desc t f c) as [c'|] eqn:Hu.
    + intros [= <-]. simpl. unfold ET.has_tag in *.
      rewrite (update_first_desc_tag _ _ _ _ Hu), Ht.
      destruct (Hc c' eq_refl) as (y & r & Hy & Hy').
      unfold ET.findall_desc, ET.has_tag in Hy, Hy'.
      rewrite !List.filter_app, Hy, Hy'. simpl. eauto.
    + destruct (update_first_in t f cs) as [cs1|] eqn:Hcs1; simpl;
        [|discriminate].
      intros [= <-]. simpl. rewrite Ht.
      apply update_first_desc_None in Hu. unfold ET.findall_desc in Hu.
      rewrite !List.filter_app, Hu. simpl. apply (IHcs cs1 eq_refl).
Qed.

Lemma descendants_set_text (hex : string) (c : Element) :
  ET.descendants (ET.set_text hex c) = ET.descendants c.
Proof. rewrite !descendants_children. reflexivity. Qed.

Lemma read_gpxt_add (track : Element) (hex : string) :
  read_gpxt (add_or_update_gpxt_display_color track hex) = Some hex.
Proof.
  unfold read_gpxt, add_or_update_gpxt_display_color.
  destruct (ET.update_first_desc gpxt_DisplayColor (ET.set_text hex) track)
    as [track'|] eqn:Hu.
  - destruct (update_first_desc_findall gpxt_DisplayColor (ET.set_text hex)
                track (fun c => eq_refl)
                (descendants_set_text hex) track' Hu)
      as (x & r & _ & ->).
    reflexivity.
  - apply update_first_desc_None in Hu.
    pose proof (add_or_update_gpxt_display_color_fresh track hex Hu) as H.
    unfold add_or_update_gpxt_display_color in H.
    rewrite (proj2 (update_first_desc_None _ (ET.set_text hex) track) Hu) in H.
    rewrite H. reflexivity.
Qed.

Lemma update_first_desc_text (t : string) (f : Element -> Element)
    (e e' : Element) :
  ET.update_first_desc t f e = Some e' ->
  text e' = text e /\ attrib e' = attrib e.
Proof.
  destruct e as [tg a x tl cs]. rewrite update_first_desc_children.
  destruct (update_first_in t f cs); simpl; [|discriminate].
  intros [= <-]. split; reflexivity.
Qed.

(** A child with another tag is found at the same place after the
    update, and is the same or updated inside. *)
Lemma list_find_update (tg t : string) (f : Element -> Element) :
  tg <> t -> (forall c, tag (f c) = tag c) ->
  forall cs cs', update_first_in t f cs = Some cs' ->
    match list_find (fun c => tag c = tg) cs with
    | Some (i, c) =>
        exists c',
          list_find (fun c => tag c = tg) cs' = Some (i, c') /\
          (c' = c \/ ET.update_first_desc t f c = Some c')
    | None => list_find (fun c => tag c = tg) cs' = None
    end.
Proof.
  intros Hne Hf. induction cs as [|c cs IH]; intros cs'; simpl;
    [discriminate|].
  destruct (ET.has_tag t c) eqn:Ht.
  - intros [= <-]. simpl. rewrite Hf.
    apply bool_decide_eq_true in Ht.
    rewrite !decide_False by congruence.
    destruct (list_find (fun c0 => tag c0 = tg) cs) as [[i d]|]; simpl;
      [exists d; auto | reflexivity].
  - destruct (ET.update_first_desc t f c) as [c'|] eqn:Hu.
    + intros [= <-]. simpl.
      rewrite (update_first_desc_tag _ _ _ _ Hu).
      destruct (decide (tag c = tg)).
      * exists c'. auto.
      * destruct (list_find (fun c0 => tag c0 = tg) cs) as [[i d]|]; simpl;
          [exists d; auto | reflexivity].
    + destruct (update_first_in t f cs) as [cs1|] eqn:Hcs1; simpl;
        [|discriminate].
      intros [= <-]. simpl.
      destruct (decide (tag c = tg)); [exists c; auto|].
      specialize (IH cs1 eq_refl).
      destruct (list_find (fun c0 => tag c0 = tg) cs) as [[i d]|]; simpl.
      * destruct IH as (d' & -> & Hd). simpl. exists d'. auto.
      * rewrite IH. reflexivity.
Qed.

Lemma find_update (tg t : string) (f : Element -> Element) (e e' : Element) :
  tg <> t -> (forall c, tag (f c) = tag c) ->
  ET.update_first_desc t f e = Some e' ->
  match ET.find tg e with
  | Some (i, c) =>
      exists c',
        ET.find tg e' = Some (i, c') /\
        (c' = c \/ ET.update_first_desc t f c = Some c')
  | None => ET.find tg e' = None
  end.
Proof.
  intros Hne Hf. destruct e as [tga a x tl cs].
  rewrite update_first_desc_children.
  destruct (update_first_in t f cs) as [cs'|] eqn:Hcs; simpl; [|discriminate].
  intros [= <-]. apply (list_find_update tg t f Hne Hf cs cs' Hcs).
Qed.

Lemma read_standard_update (f : Element -> Element) (track track' : Element) :
  (forall c, tag (f c) = tag c) ->
  ET.update_first_desc gpxt_DisplayColor f track = Some track' ->
  read_standard track' = read_standard track.
Proof.
  intros Hf Hu. unfold read_standard.
  pose proof (find_update "extensions" gpxt_DisplayColor f track track'
                ltac:(discriminate) Hf Hu) as H.
  destruct (ET.find "extensions" track) as [[i ext]|];
    [|rewrite H; reflexivity].
  destruct H as (ext' & -> & [-> | Hext]); [reflexivity|].
  pose proof (find_update "display_color" gpxt_DisplayColor f ext ext'
                ltac:(discriminate) Hf Hext) as H.
  destruct (ET.find "display_color" ext) as [[j disp]|];
    [|rewrite H; reflexivity].
  destruct H as (disp' & -> & [-> | Hdisp]); [reflexivity|].
  apply (update_first_desc_text _ _ _ _ Hdisp).
Qed.

Lemma find_append_other (tg : string) (b e : Element) :
  tag b <> tg ->
  ET.find tg (ET.append b e) = ET.find tg e.
Proof.
  intros Hb. unfold ET.find, ET.append. simpl.
  destruct (list_find (fun c => tag c = tg) (children e)) as [[i c]|] eqn:E.
  - apply list_find_app_l, E.
  - rewrite list_find_app_r by exact E. simpl.
    rewrite decide_False by exact Hb. reflexivity.
Qed.

Lemma read_standard_gpxt (track : Element) (hex : string) :
  read_standard (add_or_update_gpxt_display_color track hex)
    = read_standard track.
Proof.
  unfold add_or_update_gpxt_display_color.
  destruct (ET.update_first_desc gpxt_DisplayColor (ET.set_text hex) track)
    as [track'|] eqn:Hu.
  - apply (read_standard_update (ET.set_text hex) track track'
             (fun c => eq_refl) Hu).
  - unfold read_standard. rewrite find_append_other by discriminate.
    reflexivity.
Qed.

Lemma find_insert0_other (tg : string) (b e : Element) :
  tag b <> tg ->
  ET.find tg (ET.insert0 b e)
    = prod_map S id <$> ET.find tg e.
Proof.
  intros Hb. unfold ET.find, ET.insert0. simpl.
  rewrite decide_False by exact Hb. reflexivity.
Qed.

Lemma read_add_bounds (str_of_float : float -> string) (track : Element)
    (bounds : option (float * float * float * float)) :
  read_standard (add_bounds str_of_float track bounds) = read_standard track /\
  read_gpxt (add_bounds str_of_float track bounds) = read_gpxt track.
Proof.
  destruct bounds as [[[[a b] c] d]|]; [|split; reflexivity].
  split.
  - unfold read_standard, add_bounds.
    rewrite find_insert0_other by discriminate.
    destruct (ET.find "extensions" track) as [[i ext]|]; reflexivity.
  - unfold read_gpxt, add_bounds. rewrite !findall_desc_children.
    reflexivity.
Qed.

(** X11: after the annotation of a track, whatever it held before, both
    encodings carry the chosen colour: the element the generic injection
    looks up and the element the vendor injection looks up both have the
    colour as text. *)
Theorem annotate_colours_match (float_of_str : string -> option float)
    (str_of_float : float -> string) (hex : string) (track : Element) :
  read_standard (annotate float_of_str str_of_float hex track) = Some hex /\
  read_gpxt (annotate float_of_str str_of_float hex track) = Some hex.
Proof.
  unfold annotate.
  destruct (read_add_bounds str_of_float
              (add_or_update_gpxt_display_color
                 (add_standard_display_color track hex) hex)
              (calculate_bounds float_of_str
                 (add_or_update_gpxt_display_color
                    (add_standard_display_color track hex) hex)))
    as [-> ->].
  split.
  - rewrite read_standard_gpxt. apply read_standard_add.
  - apply read_gpxt_add.
Qed.

(** ** The box does not depend on the colours *)

Section BoxAndColours.
Variable float_of_str : string -> option float.

(** Same tag and same attributes. *)
Definition same_head (c c' : Element) : Prop :=
  tag c = tag c' /\ attrib c = attrib c'.

Lemma Forall2_same_head_refl (l : list Element) : Forall2 same_head l l.
Proof. induction l; constructor; [split; reflexivity | assumption]. Qed.

Lemma bounds_step_same_head (acc : list float * list float)
    (pt pt' : Element) :
  same_head pt pt' ->
  bounds_step float_of_str acc pt = bounds_step float_of_str acc pt'.
Proof.
  intros [_ Ha]. destruct acc as [lats lons].
  unfold bounds_step, ET.get. rewrite Ha. reflexivity.
Qed.

Lemma collect_coords_same_head (pts pts' : list Element) :
  Forall2 same_head pts pts' ->
  collect_coords float_of_str pts = collect_coords float_of_str pts'.
Proof.
  unfold collect_coords. generalize (@nil float, @nil float).
  intros acc H. revert acc.
  induction H as [|pt pt' pts pts' Hpt _ IH]; intros acc; [reflexivity|].
  cbn [foldl]. rewrite (bounds_step_same_head acc pt pt' Hpt). apply IH.
Qed.

Lemma filter_same_head (t : string) (l l' : list Element) :
  Forall2 same_head l l' ->
  Forall2 same_head (List.filter (ET.has_tag t) l)
    (List.filter (ET.has_tag t) l').
Proof.
  induction 1 as [|c c' l l' [Ht Ha] _ IH]; simpl; [constructor|].
  assert (ET.has_tag t c' = ET.has_tag t c) as ->
    by (unfold ET.has_tag; rewrite Ht; reflexivity).
  destruct (ET.has_tag t c); [constructor; [split|]|]; assumption.
Qed.

Lemma update_first_desc_same_head (t : string) (f : Element -> Element)
    (e : Element) :
  (forall c, same_head c (f c)) ->
  (forall c, ET.descendants (f c) = ET.descendants c) ->
  forall e', ET.update_first_desc t f e = Some e' ->
    Forall2 same_head (ET.descendants e) (ET.descendants e').
Proof.
  intros Hf Hdesc.
  induction e as [tg a x tl cs IH] using Element_ind. intros e'.
  rewrite update_first_desc_children.
  destruct (update_first_in t f cs) as [cs'|] eqn:Hcs; simpl; [|discriminate].
  intros [= <-]. rewrite !descendants_children. simpl.
  revert cs' Hcs.
  induction IH as [|c cs Hc _ IHcs]; intros cs'; simpl; [discriminate|].
  destruct (ET.has_tag t c).
  - intros [= <-]. simpl. rewrite Hdesc.
    constructor; [apply Hf | apply Forall2_same_head_refl].
  - destruct (ET.update_first_desc t f c) as [c'|] eqn:Hu.
    + intros [= <-]. simpl. constructor.
      * split; [symmetry; apply (update_first_desc_tag _ _ _ _ Hu)|].
        symmetry. apply (update_first_desc_text _ _ _ _ Hu).
      * apply Forall2_app; [apply (Hc c' eq_refl)|].
        apply Forall2_same_head_refl.
    + destruct (update_first_in t f cs) as [cs1|] eqn:Hcs1; simpl;
        [|discriminate].
      intros [= <-]. simpl. constructor; [split; reflexivity|].
      apply Forall2_app; [apply Forall2_same_head_refl|].
      apply (IHcs cs1 eq_refl).
Qed.

(** The track points after the vendor injection have the attributes they
    had before. *)
Lemma trkpts_of_gpxt (track : Element) (hex : string) :
  Forall2 same_head (trkpts_of track)
    (trkpts_of (add_or_update_gpxt_display_color track hex)).
Proof.
  unfold add_or_update_gpxt_display_color, trkpts_of, ET.findall_desc.
  destruct (ET.update_first_desc gpxt_DisplayColor (ET.set_text hex) track)
    as [track'|] eqn:Hu.
  - apply filter_same_head.
    apply (update_first_desc_same_head gpxt_DisplayColor (ET.set_text hex)
             track (fun c => conj eq_refl eq_refl)
             (descendants_set_text hex) track' Hu).
  - rewrite !descendants_children. unfold ET.append. simpl.
    rewrite descendants_in_app, List.filter_app. simpl.
    rewrite app_nil_r. apply Forall2_same_head_refl.
Qed.

Lemma upsert_findall_desc (tp tg : string) (f : Element -> Element)
    (e : Element) :
  tg <> tp ->
  (forall x, tag x = tg ->
     tag (f x) = tg /\
     List.filter (ET.has_tag tp) (ET.descendants (f x))
       = List.filter (ET.has_tag tp) (ET.descendants x)) ->
  ET.findall_desc tp (upsert tg f e) = ET.findall_desc tp e.
Proof.
  intros Hne Hf. destruct e as [tga a x tl cs].
  assert (Hno : forall c, tag c = tg -> ET.has_tag tp c = false).
  { intros c Hc. unfold ET.has_tag. apply bool_decide_eq_false. congruence. }
  destruct (ET.find tg (Elem tga a x tl cs)) as [[i c]|] eqn:Hfind.
  - apply find_split in Hfind as (l1 & l2 & E & _ & Hc & H1).
    simpl in E. subst cs. rewrite upsert_found by assumption.
    rewrite !findall_desc_middle. simpl.
    destruct (Hf c Hc) as [Hfc Hfd].
    rewrite (Hno c Hc), (Hno (f c) Hfc), Hfd. reflexivity.
  - rewrite upsert_created by exact Hfind.
    rewrite !findall_desc_children. simpl.
    rewrite descendants_in_app, List.filter_app. simpl.
    destruct (Hf (ET.Element_new tg) eq_refl) as [Hfc Hfd].
    rewrite (Hno _ Hfc), app_nil_r, Hfd. simpl. rewrite app_nil_r.
    reflexivity.
Qed.

(** The track points after the generic injection are the ones from
    before. *)
Lemma trkpts_of_standard (track : Element) (hex : string) :
  trkpts_of (add_standard_display_color track hex) = trkpts_of track.
Proof.
  rewrite add_standard_display_color_upsert. unfold trkpts_of.
  apply upsert_findall_desc; [discriminate|].
  intros ext Hext. split; [rewrite upsert_tag; exact Hext|].
  apply (upsert_findall_desc (qname GPX_NS "trkpt") "display_color"
           (ET.set_text hex) ext); [discriminate|].
  intros disp Hdisp. split; [exact Hdisp|].
  rewrite descendants_set_text. reflexivity.
Qed.

(** X12: the box is that of the track as it was parsed: the two colour
    injections that run before [calculate_bounds] change no attribute of
    any track point, so the bounds element is the same whatever the colour
    and whatever colour elements the track held. *)
Theorem annotate_bounds_of_parsed_track (str_of_float : float -> string)
    (hex : string) (track : Element) :
  calculate_bounds float_of_str
    (add_or_update_gpxt_display_color
       (add_standard_display_color track hex) hex)
    = calculate_bounds float_of_str track /\
  annotate float_of_str str_of_float hex track
    = add_bounds str_of_float
        (add_or_update_gpxt_display_color
           (add_standard_display_color track hex) hex)
        (calculate_bounds float_of_str track).
Proof.
  assert (E : calculate_bounds float_of_str
                (add_or_update_gpxt_display_color
                   (add_standard_display_color track hex) hex)
              = calculate_bounds float_of_str track).
  { unfold calculate_bounds.
    fold (trkpts_of (add_or_update_gpxt_display_color
                       (add_standard_display_color track hex) hex)).
    fold (trkpts_of track).
    rewrite <- (collect_coords_same_head _ _
                  (trkpts_of_gpxt (add_standard_display_color track hex) hex)).
    rewrite trkpts_of_standard. reflexivity. }
  split; [exact E|]. unfold annotate. rewrite E. reflexivity.
Qed.

End BoxAndColours.

(** * Runs of the script *)

(** ** Effects of code that acts on the world *)

Section Effects.

(** Whatever its outcome, [m] keeps the calls made so far and adds only
    calls that satisfy [P]. *)
Definition emits {A : Type} (P : Effect -> Prop) (m : IO A) : Prop :=
  forall t, exists effects, (m t).1 = t ++ effects /\ Forall P effects.

Lemma emits_ret {A : Type} (P : Effect -> Prop) (a : A) :
  emits P (mret a).
Proof.
  intros t. exists []. rewrite app_nil_r. split; [reflexivity | constructor].
Qed.

Lemma emits_lift {A : Type} (P : Effect -> Prop) (o : outcome A) :
  emits P (lift o).
Proof.
  intros t. exists []. rewrite app_nil_r. split; [reflexivity | constructor].
Qed.

Lemma emits_call (P : Effect -> Prop) (ev : Effect)
    (error : list Effect -> option string) :
  P ev -> emits P (call ev error).
Proof. intros H t. exists [ev]. split; [reflexivity | auto]. Qed.

Lemma emits_print (P : Effect -> Prop) (env : Env) (line : string) :
  P (Print line) -> emits P (print env line).
Proof. apply emits_call. Qed.

Lemma emits_makedirs (P : Effect -> Prop) (env : Env) (d : string) :
  P (MakeDirs d) -> emits P (makedirs env d).
Proof. apply emits_call. Qed.

Lemma emits_write (P : Effect -> Prop) (env : Env) (path : string)
    (doc : Element) :
  P (WriteTree path doc) -> emits P (write env path doc).
Proof. apply emits_call. Qed.

Lemma emits_impl {A : Type} (P Q : Effect -> Prop) (m : IO A) :
  (forall ev, P ev -> Q ev) -> emits P m -> emits Q m.
Proof.
  intros HPQ Hm t. destruct (Hm t) as (effects & E & F).
  exists effects. split; [exact E|]. eapply Forall_impl; eauto.
Qed.

Lemma emits_bind {A B : Type} (P : Effect -> Prop) (m : IO A)
    (k : A -> IO B) :
  emits P m -> (forall a, emits P (k a)) -> emits P (m ≫= k).
Proof.
  intros Hm Hk t. unfold mbind, IO_bind.
  destruct (Hm t) as (e1 & E1 & F1).
  destruct (m t) as [t1 [a|e|]]; simpl in E1; subst t1;
    [|exists e1; auto..].
  destruct (Hk a (t ++ e1)) as (e2 & E2 & F2).
  exists (e1 ++ e2). rewrite E2, app_assoc.
  split; [reflexivity | apply Forall_app; auto].
Qed.

(** The lines handed to [print] among some calls, in order. *)
Definition printed (effects : list Effect) : list string :=
  omap (fun ev => match ev with Print line => Some line | _ => None end)
    effects.

End Effects.

(** ** A run of [split_gpx] *)

Section Run.
Variable float_of_str : string -> option float.
Variable str_of_float : float -> string.
Variable fromstring_tostring : Element -> outcome Element.

(** The line printed after the loop over the tracks. *)
Definition tracks_line (target_folder : string) (root : Element) : string :=
  match ET.findall trk_tag root with
  | [] => "Geen <trk> deelroutes gevonden in het GPX-bestand."
  | tracks =>
      pretty (length tracks)
      +:+ " deelroutes zijn succesvol gesplitst en opgeslagen in: "
      +:+ target_folder
  end.

(** The line printed by [write_all_waypoints]. *)
Definition waypoints_line (target_folder : string) (root : Element) : string :=
  match ET.findall wpt_tag root with
  | [] => "Geen <wpt> waypoints gevonden; All-Waypoints.gpx niet aangemaakt."
  | wpts =>
      pretty (length wpts) +:+ " waypoints opgeslagen in: "
      +:+ os_path.join target_folder "All-Waypoints.gpx"
  end.

(** The write calls of the loop over the children [cs], ordinals counted
    from [idx], when the copy of every track parses: for every [trk]
    child, in order, a document whose only child is the copy of the
    annotated track, handed to [write] with the path derived from the
    track's name. When a copy raises, so does this. *)
Fixpoint track_writes (target_folder : string) (idx : nat)
    (cs : list Element) : outcome (list Effect) :=
  match cs with
  | [] => Done []
  | c :: cs' =>
      if ET.has_tag trk_tag c then
        track_copy ← fromstring_tostring
                       (annotate float_of_str str_of_float (color_of idx) c);
        later ← track_writes target_folder (S idx) cs';
        Done (WriteTree (output_path target_folder idx c)
                (new_gpx_root [track_copy]) :: later)
      else track_writes target_folder idx cs'
  end.

(** The calls of [write_all_waypoints] when the copy of every waypoint
    parses. *)
Definition waypoint_effects (target_folder : string) (root : Element)
    : outcome (list Effect) :=
  match ET.findall wpt_tag root with
  | [] => Done [Print (waypoints_line target_folder root)]
  | wpts =>
      copies ← mapM fromstring_tostring wpts;
      Done [WriteTree (os_path.join target_folder "All-Waypoints.gpx")
              (new_gpx_root copies);
            Print (waypoints_line target_folder root)]
  end.

(** The calls of a run that parsed [root] and went through, when every
    copy parses: the folder, the track documents, the line about the
    tracks, and what [write_all_waypoints] does. *)
Definition run_effects (target_folder : string) (root : Element)
    : outcome (list Effect) :=
  docs ← track_writes target_folder 1 (children root);
  wpt ← waypoint_effects target_folder root;
  Done (MakeDirs target_folder :: docs
        ++ Print (tracks_line target_folder root) :: wpt).

(** The environment lets every write, or every [print], through. *)
Definition writes_succeed (env : Env) : Prop :=
  forall t path doc, write_error env t path doc = None.
Definition prints_succeed (env : Env) : Prop :=
  forall t line, print_error env t line = None.

Lemma positions_from_length (t : string) (cs : list Element) :
  forall i, length (ET.positions_from t i cs)
            = length (List.filter (ET.has_tag t) cs).
Proof.
  induction cs as [|c cs IH]; intros i; simpl; [reflexivity|].
  destruct (ET.has_tag t c); simpl; rewrite IH; reflexivity.
Qed.

Lemma positions_from_app (t : string) (l1 l2 : list Element) :
  forall i,
    ET.positions_from t i (l1 ++ l2)
    = ET.positions_from t i l1 ++ ET.positions_from t (i + length l1) l2.
Proof.
  induction l1 as [|c l1 IH]; intros i; simpl.
  - rewrite Nat.add_0_r. reflexivity.
  - rewrite IH. replace (S i + length l1)%nat with (i + S (length l1))%nat
      by lia.
    destruct (ET.has_tag t c); reflexivity.
Qed.

(** One iteration on the child after [pre]. *)
Lemma split_track_middle (env : Env) (target_folder : string) (idx : nat)
    (tg : string) (a : list (string * string)) (x tl : option string)
    (pre post : list Element) (c : Element) (t : list Effect) :
  split_track float_of_str str_of_float fromstring_tostring env
    target_folder idx (length pre) (Elem tg a x tl (pre ++ c :: post)) t
  = match fromstring_tostring
            (annotate float_of_str str_of_float (color_of idx) c) with
    | Done track_copy =>
        let path := output_path target_folder idx c in
        let doc := new_gpx_root [track_copy] in
        (t ++ [WriteTree path doc],
         match write_error env t path doc with
         | Some exn => Raise exn
         | None =>
             Done (Elem tg a x tl
                     (pre ++ annotate float_of_str str_of_float
                               (color_of idx) c :: post))
         end)
    | Raise exn => (t, Raise exn)
    | OutOfFuel => (t, OutOfFuel)
    end.
Proof.
  unfold split_track. cbn [children].
  rewrite list_lookup_middle by reflexivity.
  unfold mbind, IO_bind, lift, write, call, mret, IO_ret.
  rewrite chosen_color_Done.
  destruct (fromstring_tostring _) as [track_copy|exn|]; try reflexivity.
  cbn zeta.
  destruct (write_error env t _ _); [reflexivity|].
  unfold ET.with_child. cbn [tag attrib text tail children].
  rewrite alter_middle. reflexivity.
Qed.

Lemma track_loop_cons (env : Env) (target_folder : string) (idx i : nat)
    (tracks : list nat) (root : Element) (t : list Effect) :
  track_loop float_of_str str_of_float fromstring_tostring env target_folder
    idx (i :: tracks) root t
  = match split_track float_of_str str_of_float fromstring_tostring env
            target_folder idx i root t with
    | (t1, Done root1) =>
        track_loop float_of_str str_of_float fromstring_tostring env
          target_folder (S idx) tracks root1 t1
    | (t1, Raise exn) => (t1, Raise exn)
    | (t1, OutOfFuel) => (t1, OutOfFuel)
    end.
Proof. reflexivity. Qed.

Lemma middle_shift {A : Type} (pre : list A) (c : A) (rest : list A) :
  pre ++ c :: rest = (pre ++ [c]) ++ rest /\
  S (length pre) = length (pre ++ [c]).
Proof.
  split; [rewrite <- app_assoc; reflexivity|].
  rewrite length_app. simpl. lia.
Qed.

(** The loop over the tracks among [cs], the children after [pre] and
    before [post], when it returns. *)
Lemma track_loop_Done (env : Env) (target_folder : string) (tg : string)
    (a : list (string * string)) (x tl : option string)
    (post cs : list Element) :
  forall (pre : list Element) (idx : nat) (t t' : list Effect)
         (root' : Element),
    track_loop float_of_str str_of_float fromstring_tostring env
      target_folder idx (ET.positions_from trk_tag (length pre) cs)
      (Elem tg a x tl (pre ++ cs ++ post)) t
    = (t', Done root') ->
    root' = Elem tg a x tl
              (pre ++ annotate_tracks float_of_str str_of_float idx cs
                   ++ post) /\
    exists docs,
      track_writes target_folder idx cs = Done docs /\ t' = t ++ docs.
Proof.
  induction cs as [|c cs IH]; intros pre idx t t' root'.
  - cbn. intros [= <- <-]. split; [reflexivity|].
    exists []. rewrite app_nil_r. auto.
  - cbn [ET.positions_from annotate_tracks track_writes].
    destruct (middle_shift pre c (cs ++ post)) as [Eapp Elen].
    destruct (ET.has_tag trk_tag c).
    + rewrite track_loop_cons. cbn [app]. rewrite split_track_middle.
      destruct (fromstring_tostring _) as [track_copy|exn|];
        try discriminate.
      cbn zeta. destruct (write_error env t _ _); [discriminate|].
      destruct (middle_shift pre
                  (annotate float_of_str str_of_float (color_of idx) c)
                  (cs ++ post)) as [Eapp' Elen'].
      rewrite Eapp', Elen'. intros H.
      apply IH in H as (-> & docs & -> & ->).
      rewrite <- !app_assoc. split; [reflexivity|].
      eexists. split; [reflexivity|]. reflexivity.
    + cbn [app]. rewrite Eapp, Elen. intros H.
      apply IH in H as (-> & docs & Hdocs & ->).
      rewrite <- !app_assoc. split; [reflexivity|].
      exists docs. auto.
Qed.

(** The loop returns when every copy parses and each of its writes goes
    through. *)
Lemma track_loop_writes (env : Env) (target_folder : string)
    (tg : string) (a : list (string * string)) (x tl : option string)
    (post cs : list Element) :
  forall (pre : list Element) (idx : nat) (t docs : list Effect),
    track_writes target_folder idx cs = Done docs ->
    (forall k path doc, docs !! k = Some (WriteTree path doc) ->
       write_error env (t ++ take k docs) path doc = None) ->
    track_loop float_of_str str_of_float fromstring_tostring env
      target_folder idx (ET.positions_from trk_tag (length pre) cs)
      (Elem tg a x tl (pre ++ cs ++ post)) t
    = (t ++ docs,
       Done (Elem tg a x tl
               (pre ++ annotate_tracks float_of_str str_of_float idx cs
                    ++ post))).
Proof.
  induction cs as [|c cs IH]; intros pre idx t docs.
  - cbn. intros [= <-] _. rewrite app_nil_r. reflexivity.
  - cbn [ET.positions_from annotate_tracks track_writes].
    destruct (middle_shift pre c (cs ++ post)) as [Eapp Elen].
    destruct (ET.has_tag trk_tag c).
    + rewrite track_loop_cons. cbn [app]. rewrite split_track_middle.
      destruct (fromstring_tostring _) as [track_copy|exn|];
        try discriminate.
      cbn [mbind outcome_bind]. cbn zeta.
      destruct (track_writes target_folder (S idx) cs) as [later| |] eqn:E;
        try discriminate.
      intros [= <-] Hw.
      pose proof (Hw 0%nat _ _ eq_refl) as Hw0. cbn [take] in Hw0.
      rewrite app_nil_r in Hw0. rewrite Hw0.
      destruct (middle_shift pre
                  (annotate float_of_str str_of_float (color_of idx) c)
                  (cs ++ post)) as [Eapp' Elen'].
      rewrite Eapp', Elen', (IH _ _ _ later E), <- !app_assoc;
        [reflexivity|].
      intros k path doc Hk. rewrite <- app_assoc.
      apply (Hw (S k)). exact Hk.
    + cbn [app]. rewrite Eapp, Elen. intros H Hw.
      rewrite (IH _ _ _ docs H Hw), <- !app_assoc. reflexivity.
Qed.

Lemma track_loop_completes (env : Env) (target_folder : string)
    (tg : string) (a : list (string * string)) (x tl : option string)
    (post cs : list Element) :
  writes_succeed env ->
  forall (pre : list Element) (idx : nat) (t docs : list Effect),
    track_writes target_folder idx cs = Done docs ->
    track_loop float_of_str str_of_float fromstring_tostring env
      target_folder idx (ET.positions_from trk_tag (length pre) cs)
      (Elem tg a x tl (pre ++ cs ++ post)) t
    = (t ++ docs,
       Done (Elem tg a x tl
               (pre ++ annotate_tracks float_of_str str_of_float idx cs
                    ++ post))).
Proof.
  intros Hw pre idx t docs Hdocs.
  apply track_loop_writes; [exact Hdocs|]. intros k path doc _. apply Hw.
Qed.

Lemma track_loop_app (env : Env) (target_folder : string)
    (tracks1 tracks2 : list nat) :
  forall (idx : nat) (root : Element) (t : list Effect),
    track_loop float_of_str str_of_float fromstring_tostring env
      target_folder idx (tracks1 ++ tracks2) root t
    = match track_loop float_of_str str_of_float fromstring_tostring env
              target_folder idx tracks1 root t with
      | (t1, Done root1) =>
          track_loop float_of_str str_of_float fromstring_tostring env
            target_folder (idx + length tracks1) tracks2 root1 t1
      | (t1, Raise exn) => (t1, Raise exn)
      | (t1, OutOfFuel) => (t1, OutOfFuel)
      end.
Proof.
  induction tracks1 as [|i tracks1 IH]; intros idx root t.
  - cbn. rewrite Nat.add_0_r. reflexivity.
  - cbn [app length]. rewrite !track_loop_cons.
    destruct (split_track _ _ _ _ _ _ _ _ _) as [t1 [root1|exn|]];
      try reflexivity.
    rewrite IH. replace (S idx + length tracks1)%nat
      with (idx + S (length tracks1))%nat by lia.
    reflexivity.
Qed.


(** The loop over all tracks of a root. *)
Lemma track_loop_root_Done (env : Env) (target_folder : string)
    (root root' : Element) (t t' : list Effect) :
  track_loop float_of_str str_of_float fromstring_tostring env target_folder
    1 (ET.findall_pos trk_tag root) root t
  = (t', Done root') ->
  root' = tree_after float_of_str str_of_float root /\
  exists docs,
    track_writes target_folder 1 (children root) = Done docs /\
    t' = t ++ docs.
Proof.
  destruct root as [tg a x tl cs]. unfold ET.findall_pos, tree_after.
  cbn [tag attrib text tail children]. intros H.
  pose proof (track_loop_Done env target_folder tg a x tl [] cs [] 1 t t'
                root') as Hloop.
  cbn [length app] in Hloop. rewrite !app_nil_r in Hloop.
  apply Hloop, H.
Qed.

Lemma track_loop_root_completes (env : Env) (target_folder : string)
    (root : Element) (t docs : list Effect) :
  writes_succeed env ->
  track_writes target_folder 1 (children root) = Done docs ->
  track_loop float_of_str str_of_float fromstring_tostring env target_folder
    1 (ET.findall_pos trk_tag root) root t
  = (t ++ docs, Done (tree_after float_of_str str_of_float root)).
Proof.
  destruct root as [tg a x tl cs]. unfold ET.findall_pos, tree_after.
  cbn [tag attrib text tail children]. intros Hw H.
  pose proof (track_loop_completes env target_folder tg a x tl [] cs Hw []
                1 t docs H) as Hloop.
  cbn [length app] in Hloop. rewrite !app_nil_r in Hloop. exact Hloop.
Qed.

Lemma tracks_line_positions (target_folder : string) (root : Element) :
  tracks_line target_folder root
  = match ET.findall_pos trk_tag root with
    | [] => "Geen <trk> deelroutes gevonden in het GPX-bestand."
    | tracks =>
        pretty (length tracks)
        +:+ " deelroutes zijn succesvol gesplitst en opgeslagen in: "
        +:+ target_folder
    end.
Proof.
  unfold tracks_line, ET.findall, ET.findall_pos.
  pose proof (positions_from_length trk_tag (children root) 0) as H.
  destruct (ET.positions_from trk_tag 0 (children root)),
    (List.filter (ET.has_tag trk_tag) (children root));
    try discriminate H; [reflexivity|].
  rewrite H. reflexivity.
Qed.

Lemma add_or_update_gpxt_display_color_tag (track : Element) (hex : string) :
  tag (add_or_update_gpxt_display_color track hex) = tag track.
Proof.
  unfold add_or_update_gpxt_display_color.
  destruct (ET.update_first_desc gpxt_DisplayColor (ET.set_text hex) track)
    eqn:Hu; [apply (update_first_desc_tag _ _ _ _ Hu) | reflexivity].
Qed.

Lemma annotate_tag (hex : string) (track : Element) :
  tag (annotate float_of_str str_of_float hex track) = tag track.
Proof.
  unfold annotate.
  transitivity (tag (add_or_update_gpxt_display_color
                       (add_standard_display_color track hex) hex)).
  - destruct (calculate_bounds float_of_str _) as [[[[a b] c] d]|];
      reflexivity.
  - rewrite add_or_update_gpxt_display_color_tag,
      add_standard_display_color_upsert.
    apply upsert_tag.
Qed.

(** The loop leaves the children that are no tracks as they are. *)
Lemma annotate_tracks_others (t : string) (cs : list Element) :
  t <> trk_tag ->
  forall idx,
    List.filter (ET.has_tag t)
      (annotate_tracks float_of_str str_of_float idx cs)
    = List.filter (ET.has_tag t) cs.
Proof.
  intros Ht. induction cs as [|c cs IH]; intros idx; simpl; [reflexivity|].
  destruct (ET.has_tag trk_tag c) eqn:Hc; simpl; rewrite IH; [|reflexivity].
  apply bool_decide_eq_true in Hc.
  unfold ET.has_tag. rewrite annotate_tag.
  rewrite !bool_decide_false by congruence. reflexivity.
Qed.

Lemma findall_wpt_tree_after (root : Element) :
  ET.findall wpt_tag (tree_after float_of_str str_of_float root)
    = ET.findall wpt_tag root.
Proof.
  unfold ET.findall, tree_after. simpl.
  apply annotate_tracks_others. discriminate.
Qed.

Lemma waypoint_effects_tree_after (target_folder : string) (root : Element) :
  waypoint_effects target_folder (tree_after float_of_str str_of_float root)
  = waypoint_effects target_folder root.
Proof.
  unfold waypoint_effects, waypoints_line.
  rewrite findall_wpt_tree_after. reflexivity.
Qed.

Lemma write_all_waypoints_Done (env : Env) (root : Element)
    (target_folder : string) (t t' : list Effect) (u : unit) :
  write_all_waypoints fromstring_tostring env root target_folder t
  = (t', Done u) ->
  exists effects,
    waypoint_effects target_folder root = Done effects /\ t' = t ++ effects.
Proof.
  unfold write_all_waypoints, waypoint_effects, waypoints_line, wpt_tag.
  destruct (ET.findall (qname GPX_NS "wpt") root) as [|w ws].
  - unfold print, call. intros [= <- _]. eauto.
  - unfold mbind at 1 2, IO_bind, lift, write, print, call.
    destruct (mapM fromstring_tostring (w :: ws)) as [copies|exn|];
      try discriminate.
    destruct (write_error env t _ _); [discriminate|].
    intros [= <- _]. cbn [mbind outcome_bind].
    eexists. split; [reflexivity|]. rewrite <- app_assoc. reflexivity.
Qed.

Lemma write_all_waypoints_completes (env : Env) (root : Element)
    (target_folder : string) (t effects : list Effect) :
  writes_succeed env -> prints_succeed env ->
  waypoint_effects target_folder root = Done effects ->
  write_all_waypoints fromstring_tostring env root target_folder t
  = (t ++ effects, Done tt).
Proof.
  intros Hw Hp.
  unfold write_all_waypoints, waypoint_effects, waypoints_line, wpt_tag.
  destruct (ET.findall (qname GPX_NS "wpt") root) as [|w ws].
  - intros [= <-]. unfold print, call. rewrite Hp. reflexivity.
  - unfold mbind at 2 3, IO_bind, lift, write, print, call.
    destruct (mapM fromstring_tostring (w :: ws)) as [copies|exn|];
      try discriminate.
    cbn [mbind outcome_bind]. intros [= <-].
    rewrite Hw, Hp, <- app_assoc. reflexivity.
Qed.

(** What [split_gpx] does once the folder is made and [root] is parsed
    (lines 170-211). *)
Definition split_parsed (env : Env) (target_folder : string)
    (root : Element) : IO (option Element) :=
  let tracks := ET.findall_pos (qname GPX_NS "trk") root in
  root ← match tracks with
          | [] =>
              _ ← print env
                    "Geen <trk> deelroutes gevonden in het GPX-bestand.";
              mret root
          | _ :: _ =>
              root ← track_loop float_of_str str_of_float
                       fromstring_tostring env target_folder 1 tracks root;
              _ ← print env
                    (pretty (length tracks)
                     +:+ " deelroutes zijn succesvol gesplitst en opgeslagen in: "
                     +:+ target_folder);
              mret root
          end;
  _ ← write_all_waypoints fromstring_tostring env root target_folder;
  mret (Some root).

(** The line printed for a parse that raised: the cause follows the
    colon. *)
Definition failure_report (r : ParseResult) : string :=
  match r with
  | ParseError e => "Fout: Het GPX-bestand kon niet worden geparsed: " +:+ e
  | OtherError e =>
      "Onverwachte fout bij het lezen van het GPX-bestand: " +:+ e
  | Parsed _ => ""
  end.

(** [split_gpx], by the outcome of [os.makedirs] and of the parse. *)
Lemma split_gpx_cases (env : Env) (input_gpx_path : string)
    (t : list Effect) :
  let target_folder := target_folder_of input_gpx_path (now env) in
  split_gpx float_of_str str_of_float fromstring_tostring env
    input_gpx_path t
  = match makedirs_error env t target_folder with
    | Some exn => (t ++ [MakeDirs target_folder], Raise exn)
    | None =>
        match parse env input_gpx_path with
        | Parsed root =>
            split_parsed env target_folder root
              (t ++ [MakeDirs target_folder])
        | failure =>
            (t ++ [MakeDirs target_folder; Print (failure_report failure)],
             match print_error env (t ++ [MakeDirs target_folder])
                     (failure_report failure) with
             | Some exn => Raise exn
             | None => Done None
             end)
        end
    end.
Proof.
  intros target_folder. unfold split_gpx. fold target_folder.
  unfold mbind at 1, IO_bind at 1, makedirs, call.
  destruct (makedirs_error env t target_folder); [reflexivity|].
  destruct (parse env input_gpx_path) as [root|e|e];
    [reflexivity| |];
    unfold mbind, IO_bind, print, call, mret, IO_ret;
    rewrite <- app_assoc; cbn [failure_report];
    destruct (print_error env _ _); reflexivity.
Qed.

Lemma split_parsed_Done (env : Env) (target_folder : string)
    (root : Element) (t t' : list Effect) (tree : option Element) :
  split_parsed env target_folder root t = (t', Done tree) ->
  tree = Some (tree_after float_of_str str_of_float root) /\
  exists docs wpt,
    track_writes target_folder 1 (children root) = Done docs /\
    waypoint_effects target_folder root = Done wpt /\
    t' = t ++ docs ++ Print (tracks_line target_folder root) :: wpt.
Proof.
  unfold split_parsed. rewrite tracks_line_positions. fold trk_tag.
  cbn zeta.
  destruct (ET.findall_pos trk_tag root) as [|i tracks] eqn:Hpos.
  - pose proof (track_loop_root_Done env target_folder root root t t) as H.
    rewrite Hpos in H. destruct (H eq_refl) as (Hroot & docs & Hdocs & Ht).
    rewrite <- (app_nil_r t) in Ht at 1. apply app_inv_head in Ht.
    subst docs. rewrite <- Hroot.
    unfold mbind, IO_bind, print, call, mret, IO_ret.
    destruct (print_error env t _); [discriminate|].
    destruct (write_all_waypoints _ _ _ _ _) as [t1 [u|exn|]] eqn:Hw;
      try discriminate.
    intros [= <- <-].
    apply write_all_waypoints_Done in Hw as (wpt & Hwpt & ->).
    split; [reflexivity|]. exists [], wpt. rewrite <- app_assoc. auto.
  - rewrite <- Hpos.
    unfold mbind, IO_bind, print, call, mret, IO_ret.
    destruct (track_loop _ _ _ _ _ _ _ _ _) as [t1 [root1|exn|]] eqn:Hloop;
      try discriminate.
    apply track_loop_root_Done in Hloop as (-> & docs & Hdocs & ->).
    destruct (print_error env (t ++ docs) _); [discriminate|].
    destruct (write_all_waypoints _ _ _ _ _) as [t2 [u|exn|]] eqn:Hw;
      try discriminate.
    intros [= <- <-].
    apply write_all_waypoints_Done in Hw as (wpt & Hwpt & ->).
    rewrite waypoint_effects_tree_after in Hwpt.
    split; [reflexivity|]. exists docs, wpt.
    rewrite <- !app_assoc. auto.
Qed.

Lemma split_parsed_completes (env : Env) (target_folder : string)
    (root : Element) (t docs wpt : list Effect) :
  writes_succeed env -> prints_succeed env ->
  track_writes target_folder 1 (children root) = Done docs ->
  waypoint_effects target_folder root = Done wpt ->
  split_parsed env target_folder root t
  = (t ++ docs ++ Print (tracks_line target_folder root) :: wpt,
     Done (Some (tree_after float_of_str str_of_float root))).
Proof.
  intros Hw Hp Hdocs Hwpt.
  pose proof (track_loop_root_completes env target_folder root t docs Hw
                Hdocs) as Hloop.
  rewrite <- waypoint_effects_tree_after in Hwpt.
  unfold split_parsed. rewrite tracks_line_positions. fold trk_tag.
  cbn zeta.
  destruct (ET.findall_pos trk_tag root) as [|i tracks] eqn:Hpos.
  - cbn [track_loop] in Hloop. unfold mret, IO_ret in Hloop.
    injection Hloop as Ht Hroot.
    rewrite <- (app_nil_r t) in Ht at 1. apply app_inv_head in Ht.
    subst docs. rewrite <- Hroot in *.
    unfold mbind, IO_bind, print, call, mret, IO_ret. rewrite Hp.
    rewrite (write_all_waypoints_completes env root target_folder _ wpt Hw
               Hp Hwpt).
    rewrite <- app_assoc. reflexivity.
  - unfold mbind, IO_bind, print, call, mret, IO_ret. rewrite Hloop, Hp.
    rewrite (write_all_waypoints_completes env _ target_folder _ wpt Hw
               Hp Hwpt).
    rewrite <- !app_assoc. reflexivity.
Qed.

(** A run that parsed [root] and returned. *)
Lemma split_gpx_Done (env : Env) (input_gpx_path : string)
    (t t' : list Effect) (tree : option Element) (root : Element) :
  let target_folder := target_folder_of input_gpx_path (now env) in
  parse env input_gpx_path = Parsed root ->
  split_gpx float_of_str str_of_float fromstring_tostring env
    input_gpx_path t
  = (t', Done tree) ->
  tree = Some (tree_after float_of_str str_of_float root) /\
  exists docs wpt,
    track_writes target_folder 1 (children root) = Done docs /\
    waypoint_effects target_folder root = Done wpt /\
    t' = t ++ MakeDirs target_folder :: docs
           ++ Print (tracks_line target_folder root) :: wpt.
Proof.
  intros target_folder Hparse. rewrite split_gpx_cases. fold target_folder.
  destruct (makedirs_error env t target_folder); [discriminate|].
  rewrite Hparse. intros H.
  apply split_parsed_Done in H as (-> & docs & wpt & Hdocs & Hwpt & ->).
  split; [reflexivity|]. exists docs, wpt.
  rewrite <- app_assoc. auto.
Qed.

(** A run that parsed [root] returns when the folder can be made, every
    copy parses and every write and [print] goes through. *)
Lemma split_gpx_completes (env : Env) (input_gpx_path : string)
    (t effects : list Effect) (root : Element) :
  let target_folder := target_folder_of input_gpx_path (now env) in
  parse env input_gpx_path = Parsed root ->
  makedirs_error env t target_folder = None ->
  writes_succeed env -> prints_succeed env ->
  run_effects target_folder root = Done effects ->
  split_gpx float_of_str str_of_float fromstring_tostring env
    input_gpx_path t
  = (t ++ effects, Done (Some (tree_after float_of_str str_of_float root))).
Proof.
  intros target_folder Hparse Hmk Hw Hp. unfold run_effects.
  destruct (track_writes target_folder 1 (children root)) as [docs| |] eqn:Hd;
    try discriminate.
  destruct (waypoint_effects target_folder root) as [wpt| |] eqn:Hwpt;
    try discriminate.
  cbn [mbind outcome_bind]. intros [= <-].
  rewrite split_gpx_cases. fold target_folder. rewrite Hmk, Hparse.
  rewrite (split_parsed_completes env target_folder root _ docs wpt Hw Hp
             Hd Hwpt).
  rewrite <- app_assoc. reflexivity.
Qed.

Lemma run_effects_Done (target_folder : string) (root : Element)
    (docs wpt : list Effect) :
  track_writes target_folder 1 (children root) = Done docs ->
  waypoint_effects target_folder root = Done wpt ->
  run_effects target_folder root
  = Done (MakeDirs target_folder :: docs
          ++ Print (tracks_line target_folder root) :: wpt).
Proof. intros Hd Hw. unfold run_effects. rewrite Hd, Hw. reflexivity. Qed.

(** ** Where a run writes *)

Lemma file_chars_no_sep (s : string) :
  Str.forallb file_char s = true ->
  Str.forallb (fun c => negb (Str.is_char os_path.sep c)) s = true.
Proof.
  induction s as [|c s IH]; simpl; [reflexivity|].
  intros [Hc Hs]%andb_prop.
  rewrite (file_char_not_sep c Hc), (IH Hs). reflexivity.
Qed.

Lemma output_path_prefix (target_folder : string) (idx : nat) (c : Element) :
  exists name,
    Str.forallb (fun c => negb (Str.is_char os_path.sep c)) name = true /\
    output_path target_folder idx c = folder_prefix target_folder +:+ name.
Proof.
  exists (sanitize_filename (track_name idx c) +:+ ".gpx"). split.
  - apply forallb_append; [|reflexivity].
    apply file_chars_no_sep, sanitize_filename_file_chars.
  - unfold output_path. apply join_file_name;
      [apply sanitize_filename_truthy | apply sanitize_filename_file_chars].
Qed.

Lemma waypoints_path_prefix (target_folder : string) :
  os_path.join target_folder "All-Waypoints.gpx"
    = folder_prefix target_folder +:+ "All-Waypoints.gpx".
Proof.
  unfold os_path.join, folder_prefix.
  change (Str.startswith_char os_path.sep "All-Waypoints.gpx") with false.
  cbn match.
  destruct (negb (Str.truthy target_folder)
            || Str.endswith_char os_path.sep target_folder);
    [reflexivity|].
  rewrite append_assoc. reflexivity.
Qed.

(** An effect of a run with the target folder [target_folder]: that
    folder is the only one made, and a tree is written only to a path
    directly in it: the folder, a separator unless the folder is empty or
    ends with one, and a name without separator. *)
Definition in_target_folder (target_folder : string) (ev : Effect) : Prop :=
  match ev with
  | MakeDirs d => d = target_folder
  | Print _ => True
  | WriteTree path _ =>
      exists name,
        Str.forallb (fun c => negb (Str.is_char os_path.sep c)) name = true /\
        path = folder_prefix target_folder +:+ name
  end.

Lemma split_track_emits (env : Env) (target_folder : string) (idx i : nat)
    (root : Element) :
  emits (in_target_folder target_folder)
    (split_track float_of_str str_of_float fromstring_tostring env
       target_folder idx i root).
Proof.
  unfold split_track. destruct (children root !! i) as [track|];
    [|apply emits_lift].
  cbn zeta.
  apply emits_bind; [apply emits_lift | intros chosen_color_hex].
  apply emits_bind; [apply emits_lift | intros track_copy].
  apply emits_bind; [|intros; apply emits_ret].
  apply emits_write, output_path_prefix.
Qed.

Lemma track_loop_emits (env : Env) (target_folder : string)
    (tracks : list nat) :
  forall (idx : nat) (root : Element),
    emits (in_target_folder target_folder)
      (track_loop float_of_str str_of_float fromstring_tostring env
         target_folder idx tracks root).
Proof.
  induction tracks as [|i tracks IH]; intros idx root;
    [apply emits_ret|].
  cbn [track_loop].
  apply emits_bind; [apply split_track_emits | intros root'; apply IH].
Qed.

Lemma write_all_waypoints_emits (env : Env) (root : Element)
    (target_folder : string) :
  emits (in_target_folder target_folder)
    (write_all_waypoints fromstring_tostring env root target_folder).
Proof.
  unfold write_all_waypoints.
  destruct (ET.findall (qname GPX_NS "wpt") root);
    [apply emits_print; exact I|].
  apply emits_bind; [apply emits_lift | intros copies]. cbn zeta.
  apply emits_bind; [|intros; apply emits_print; exact I].
  apply emits_write. exists "All-Waypoints.gpx".
  split; [reflexivity | apply waypoints_path_prefix].
Qed.

Lemma split_gpx_emits (env : Env) (input_gpx_path : string) :
  emits (in_target_folder (target_folder_of input_gpx_path (now env)))
    (split_gpx float_of_str str_of_float fromstring_tostring env
       input_gpx_path).
Proof.
  unfold split_gpx. cbn zeta.
  apply emits_bind; [apply emits_makedirs; reflexivity | intros _].
  destruct (parse env input_gpx_path) as [root|e|e].
  - apply emits_bind.
    + destruct (ET.findall_pos (qname GPX_NS "trk") root).
      * apply emits_bind; [apply emits_print; exact I|].
        intros; apply emits_ret.
      * apply emits_bind; [apply track_loop_emits | intros root'].
        apply emits_bind; [apply emits_print; exact I|].
        intros; apply emits_ret.
    + intros root'.
      apply emits_bind; [apply write_all_waypoints_emits|].
      intros; apply emits_ret.
  - apply emits_bind; [apply emits_print; exact I|].
    intros; apply emits_ret.
  - apply emits_bind; [apply emits_print; exact I|].
    intros; apply emits_ret.
Qed.

(** ** The documents of a run *)

Definition is_write (ev : Effect) : Prop :=
  exists path doc, ev = WriteTree path doc.

Lemma track_writes_are_writes (target_folder : string) (cs : list Element) :
  forall idx docs,
    track_writes target_folder idx cs = Done docs -> Forall is_write docs.
Proof.
  induction cs as [|c cs IH]; intros idx docs; cbn [track_writes].
  - intros [= <-]. constructor.
  - destruct (ET.has_tag trk_tag c); [|apply IH].
    destruct (fromstring_tostring _) as [track_copy| |]; try discriminate.
    cbn [mbind outcome_bind].
    destruct (track_writes target_folder (S idx) cs) as [later| |] eqn:E;
      try discriminate.
    intros [= <-]. constructor; [eexists _, _; reflexivity|].
    apply (IH _ _ E).
Qed.

Lemma printed_app (l1 l2 : list Effect) :
  printed (l1 ++ l2) = printed l1 ++ printed l2.
Proof. apply omap_app. Qed.

Lemma printed_writes (docs : list Effect) :
  Forall is_write docs -> printed docs = [].
Proof.
  induction 1 as [|ev docs (path & doc & ->) _ IH]; [reflexivity|].
  exact IH.
Qed.

(** The document of the track at position [i]: it is written after those
    of the tracks before it. *)
Lemma track_writes_lookup (target_folder : string) (cs : list Element) :
  forall (idx : nat) (docs : list Effect) (i : nat) (c : Element),
    track_writes target_folder idx cs = Done docs ->
    cs !! i = Some c -> ET.has_tag trk_tag c = true ->
    exists track_copy earlier later,
      fromstring_tostring
        (annotate float_of_str str_of_float
           (color_of (idx + tracks_before i cs)) c) = Done track_copy /\
      docs = earlier
             ++ WriteTree
                  (output_path target_folder (idx + tracks_before i cs) c)
                  (new_gpx_root [track_copy])
             :: later /\
      length earlier = tracks_before i cs.
Proof.
  induction cs as [|d cs IH]; intros idx docs i c Hdocs Hi Hc;
    [discriminate Hi|].
  cbn [track_writes] in Hdocs. destruct i as [|i]; simpl in Hi.
  - injection Hi as ->. rewrite Hc in Hdocs.
    unfold tracks_before. simpl. rewrite Nat.add_0_r.
    destruct (fromstring_tostring _) as [track_copy| |]; try discriminate.
    cbn [mbind outcome_bind] in Hdocs.
    destruct (track_writes target_folder (S idx) cs) as [later| |];
      try discriminate.
    injection Hdocs as <-. exists track_copy, [], later. auto.
  - rewrite tracks_before_cons. destruct (ET.has_tag trk_tag d).
    + destruct (fromstring_tostring _) as [d_copy| |]; try discriminate.
      cbn [mbind outcome_bind] in Hdocs.
      destruct (track_writes target_folder (S idx) cs) as [docs'| |] eqn:E;
        try discriminate.
      injection Hdocs as <-.
      destruct (IH (S idx) docs' i c E Hi Hc)
        as (track_copy & earlier & later & Hcopy & -> & Hlen).
      replace (idx + (1 + tracks_before i cs))%nat
        with (S idx + tracks_before i cs)%nat by lia.
      eexists track_copy, (_ :: earlier), later.
      split; [exact Hcopy|]. split; [reflexivity|].
      simpl. rewrite Hlen. reflexivity.
    + destruct (IH idx docs i c Hdocs Hi Hc)
        as (track_copy & earlier & later & Hcopy & -> & Hlen).
      exists track_copy, earlier, later. auto.
Qed.

Lemma mapM_Done_Forall2 {A B : Type} (f : A -> outcome B) (l : list A) :
  forall k, mapM f l = Done k -> Forall2 (fun x y => f x = Done y) l k.
Proof.
  induction l as [|x l IH]; intros k; cbn.
  - intros [= <-]. constructor.
  - destruct (f x) as [y| |] eqn:Hy; try discriminate. cbn.
    destruct (mapM f l) as [k'| |]; try discriminate. cbn.
    intros [= <-]. constructor; [exact Hy | apply IH; reflexivity].
Qed.

(** ** The loop when a track fails *)

(** The loop over [pre ++ c :: post] when the tracks in [pre] go through:
    what is left is the iteration on [c], after the documents of [pre]. *)
Lemma track_loop_upto (env : Env) (target_folder : string)
    (tg : string) (a : list (string * string)) (x tl : option string)
    (pre post : list Element) (c : Element) (t docs : list Effect) :
  ET.has_tag trk_tag c = true ->
  track_writes target_folder 1 pre = Done docs ->
  (forall k path doc, docs !! k = Some (WriteTree path doc) ->
     write_error env (t ++ take k docs) path doc = None) ->
  track_loop float_of_str str_of_float fromstring_tostring env target_folder
    1 (ET.positions_from trk_tag 0 (pre ++ c :: post))
    (Elem tg a x tl (pre ++ c :: post)) t
  = match split_track float_of_str str_of_float fromstring_tostring env
            target_folder
            (S (tracks_before (length pre) (pre ++ c :: post)))
            (length (annotate_tracks float_of_str str_of_float 1 pre))
            (Elem tg a x tl
               (annotate_tracks float_of_str str_of_float 1 pre
                ++ c :: post))
            (t ++ docs) with
    | (t1, Done root1) =>
        track_loop float_of_str str_of_float fromstring_tostring env
          target_folder
          (S (S (tracks_before (length pre) (pre ++ c :: post))))
          (ET.positions_from trk_tag (S (length pre)) post) root1 t1
    | (t1, Raise exn) => (t1, Raise exn)
    | (t1, OutOfFuel) => (t1, OutOfFuel)
    end.
Proof.
  intros Hc Hdocs Hw.
  assert (Hbefore : tracks_before (length pre) (pre ++ c :: post)
                    = length (ET.positions_from trk_tag 0 pre)).
  { unfold tracks_before. rewrite take_app_length.
    symmetry. apply positions_from_length. }
  rewrite Hbefore, positions_from_app, track_loop_app.
  pose proof (track_loop_writes env target_folder tg a x tl (c :: post)
                pre [] 1 t docs Hdocs Hw) as Hloop.
  cbn [length app] in Hloop. rewrite Hloop.
  cbn [ET.positions_from Nat.add]. rewrite Hc, track_loop_cons.
  rewrite (annotate_tracks_length float_of_str str_of_float pre 1).
  reflexivity.
Qed.

(** The copy of the track [c] raises. *)
Lemma track_loop_copy_raises (env : Env) (target_folder : string)
    (root : Element) (pre post : list Element) (c : Element)
    (t docs : list Effect) (exn : string) :
  writes_succeed env ->
  children root = pre ++ c :: post ->
  ET.has_tag trk_tag c = true ->
  track_writes target_folder 1 pre = Done docs ->
  fromstring_tostring
    (annotate float_of_str str_of_float
       (color_of (1 + tracks_before (length pre) (children root))) c)
  = Raise exn ->
  track_loop float_of_str str_of_float fromstring_tostring env target_folder
    1 (ET.findall_pos trk_tag root) root t
  = (t ++ docs, Raise exn).
Proof.
  intros Hw Hcs Hc Hdocs Hcopy.
  destruct root as [tg a x tl cs]. unfold ET.findall_pos in *.
  cbn [children] in *. subst cs. cbn [Nat.add] in Hcopy.
  rewrite (track_loop_upto env target_folder tg a x tl pre post c t docs Hc
             Hdocs) by (intros; apply Hw).
  rewrite split_track_middle, Hcopy. reflexivity.
Qed.

(** The write of the document of the track [c] raises. *)
Lemma track_loop_write_raises (env : Env) (target_folder : string)
    (root : Element) (pre post : list Element) (c track_copy : Element)
    (t docs : list Effect) (exn : string) :
  let idx := (1 + tracks_before (length pre) (children root))%nat in
  children root = pre ++ c :: post ->
  ET.has_tag trk_tag c = true ->
  track_writes target_folder 1 pre = Done docs ->
  (forall k path doc, docs !! k = Some (WriteTree path doc) ->
     write_error env (t ++ take k docs) path doc = None) ->
  fromstring_tostring (annotate float_of_str str_of_float (color_of idx) c)
  = Done track_copy ->
  write_error env (t ++ docs) (output_path target_folder idx c)
    (new_gpx_root [track_copy]) = Some exn ->
  track_loop float_of_str str_of_float fromstring_tostring env target_folder
    1 (ET.findall_pos trk_tag root) root t
  = (t ++ docs ++ [WriteTree (output_path target_folder idx c)
                     (new_gpx_root [track_copy])],
     Raise exn).
Proof.
  intros idx Hcs Hc Hdocs Hw Hcopy Hwrite. subst idx.
  destruct root as [tg a x tl cs]. unfold ET.findall_pos in *.
  cbn [children] in *. subst cs. cbn [Nat.add] in Hcopy, Hwrite |- *.
  rewrite (track_loop_upto env target_folder tg a x tl pre post c t docs Hc
             Hdocs Hw).
  rewrite split_track_middle, Hcopy. cbn zeta. rewrite Hwrite.
  rewrite <- app_assoc. reflexivity.
Qed.

End Run.

(** ** The parse tree after a run *)

(** C1, as the claim states it, fails: after a run on a document with one
    track the tree in memory is not the tree that was parsed; its track is
    the annotated one. *)
Lemma split_gpx_mutates_parse_tree :
  let track :=
    Sample.trk (Some "Etappe 1") [Sample.trkpt "10" "20"; Sample.trkpt "12" "18"] in
  let doc := Sample.gpx [track] in
  exists effects root',
    Sample.run (Parsed doc) = (effects, Done (Some root')) /\
    root' <> doc /\
    children root' =
      [annotate Sample.float_of_str Sample.str_of_float "#D80000" track].
Proof.
  intros track doc.
  exists (Sample.run (Parsed doc)).1,
    (tree_after Sample.float_of_str Sample.str_of_float doc).
  split; [vm_compute; reflexivity|]. split; [|reflexivity].
  intros H. apply (f_equal (fun e => length (ET.descendants e))) in H.
  vm_compute in H. discriminate H.
Qed.

(** C1 (amended): the annotation acts on the parsed [trk] elements
    themselves and the copy is taken afterwards, from the annotated
    element. Whenever a run that parsed [root] returns, the tree in memory
    has the tag, attributes, text and tail of [root] and as many children;
    a child that is not a [trk] is as parsed, and a [trk] child is in its
    annotated state (colour of its ordinal in both encodings, bounds), its
    ordinal being one more than the number of [trk] elements before it;
    and the calls the run has made are: making the folder, for every track
    a write of a document whose only child is the copy of the annotated
    track, and the report and waypoint calls. The run does return, with
    that tree and those calls, when the folder can be made, every copy
    parses and every write and [print] goes through. *)
Theorem split_gpx_annotates_in_place
    (float_of_str : string -> option float) (str_of_float : float -> string)
    (fromstring_tostring : Element -> outcome Element)
    (env : Env) (input_gpx_path : string) (t : list Effect)
    (root : Element) :
  let target_folder := target_folder_of input_gpx_path (now env) in
  parse env input_gpx_path = Parsed root ->
  (forall t' tree,
     split_gpx float_of_str str_of_float fromstring_tostring env
       input_gpx_path t = (t', Done tree) ->
     exists root' effects,
       tree = Some root' /\
       tag root' = tag root /\ attrib root' = attrib root /\
       text root' = text root /\ tail root' = tail root /\
       length (children root') = length (children root) /\
       (forall i c, children root !! i = Some c ->
          children root' !! i =
            Some (if ET.has_tag trk_tag c
                  then annotate float_of_str str_of_float
                         (color_of (1 + tracks_before i (children root))) c
                  else c)) /\
       run_effects float_of_str str_of_float fromstring_tostring
         target_folder root = Done effects /\
       t' = t ++ effects) /\
  (forall effects,
     makedirs_error env t target_folder = None ->
     writes_succeed env -> prints_succeed env ->
     run_effects float_of_str str_of_float fromstring_tostring
       target_folder root = Done effects ->
     split_gpx float_of_str str_of_float fromstring_tostring env
       input_gpx_path t
     = (t ++ effects,
        Done (Some (tree_after float_of_str str_of_float root)))).
Proof.
  intros target_folder Hparse. split.
  - intros t' tree Hrun.
    apply (split_gpx_Done _ _ _ _ _ _ _ _ _ Hparse) in Hrun
      as (-> & docs & wpt & Hdocs & Hwpt & ->).
    exists (tree_after float_of_str str_of_float root). eexists.
    split; [reflexivity|]. do 4 (split; [reflexivity|]).
    split; [apply annotate_tracks_length|].
    split; [intros i c Hi; apply annotate_tracks_lookup, Hi|].
    split; [apply run_effects_Done; eassumption | reflexivity].
  - intros effects Hmk Hw Hp Heffects.
    apply split_gpx_completes; assumption.
Qed.

Lemma split_gpx_annotates_in_place_witness :
  let track := Sample.trk (Some "Etappe 1") [Sample.trkpt "10" "20"] in
  let root := Sample.gpx [Sample.wpt "1" "2"; track] in
  let target_folder := "/data/tour_20240501_120000" in
  Sample.run (Parsed root)
  = ([] ++
     [MakeDirs target_folder;
      WriteTree "/data/tour_20240501_120000/Etappe_1.gpx"
        (new_gpx_root
           [annotate Sample.float_of_str Sample.str_of_float "#D80000"
              track]);
      Print "1 deelroutes zijn succesvol gesplitst en opgeslagen in: /data/tour_20240501_120000";
      WriteTree "/data/tour_20240501_120000/All-Waypoints.gpx"
        (new_gpx_root [Sample.wpt "1" "2"]);
      Print "1 waypoints opgeslagen in: /data/tour_20240501_120000/All-Waypoints.gpx"],
     Done (Some (tree_after Sample.float_of_str Sample.str_of_float root))).
Proof.
  intros track root target_folder.
  refine (proj2 (split_gpx_annotates_in_place Sample.float_of_str
                   Sample.str_of_float Sample.fromstring_tostring
                   (Sample.env_with (Parsed root)) "/data/tour.gpx" [] root
                   eq_refl) _ eq_refl (fun _ _ _ => eq_refl)
            (fun _ _ => eq_refl) _).
  vm_compute. reflexivity.
Defined.

(** ** A run on an input that does not parse *)

(** C8, as the claim states it, fails: [os.makedirs] is called before the
    [try] that guards the parse, so on a malformed input in a directory
    where the target folder cannot be made the run ends with the exception
    of [os.makedirs]; that call is the only one it makes: nothing is
    printed, the cause is not reported. *)
Lemma split_gpx_parse_failure_unreported :
  Sample.split
    (Sample.env_read_only (ParseError "no element found: line 1, column 0"))
  = ([MakeDirs "/data/tour_20240501_120000"],
     Raise "PermissionError: [Errno 13] Permission denied").
Proof. reflexivity. Qed.

(** C8 (amended): when [ET.parse] raises, be it [ParseError] or another
    exception, no write is ever called. The run calls [os.makedirs] for
    the target folder; when that raises, the run ends with its exception
    and nothing is reported. When the folder is made, the run calls
    [print] once, with a line that carries the message of the exception
    of the parse, and returns (or ends with the exception of [print]):
    these two are its only calls. *)
Theorem split_gpx_parse_failure
    (float_of_str : string -> option float) (str_of_float : float -> string)
    (fromstring_tostring : Element -> outcome Element)
    (env : Env) (input_gpx_path : string) (t : list Effect) (e : string) :
  let target_folder := target_folder_of input_gpx_path (now env) in
  parse env input_gpx_path = ParseError e \/
  parse env input_gpx_path = OtherError e ->
  split_gpx float_of_str str_of_float fromstring_tostring env
    input_gpx_path t
  = let report := failure_report (parse env input_gpx_path) in
    match makedirs_error env t target_folder with
    | Some exn => (t ++ [MakeDirs target_folder], Raise exn)
    | None =>
        (t ++ [MakeDirs target_folder; Print report],
         match print_error env (t ++ [MakeDirs target_folder]) report with
         | Some exn => Raise exn
         | None => Done None
         end)
    end.
Proof.
  intros target_folder H. rewrite split_gpx_cases. fold target_folder.
  destruct H as [-> | ->]; reflexivity.
Qed.

Lemma split_gpx_parse_failure_witness :
  Sample.run (ParseError "no element found: line 1, column 0")
  = ([] ++
     [MakeDirs "/data/tour_20240501_120000";
      Print "Fout: Het GPX-bestand kon niet worden geparsed: no element found: line 1, column 0"],
     Done None).
Proof.
  exact (split_gpx_parse_failure Sample.float_of_str Sample.str_of_float
           Sample.fromstring_tostring
           (Sample.env_with (ParseError "no element found: line 1, column 0"))
           "/data/tour.gpx" [] "no element found: line 1, column 0"
           (or_introl eq_refl)).
Defined.

(** Two tracks with blank names in one input: both documents are written
    to the same path, the second after the first. *)
Example blank_names_one_file :
  let t1 := Sample.trk (Some "  ") [Sample.trkpt "10" "20"] in
  let t2 := Sample.trk (Some " ") [Sample.trkpt "12" "18"] in
  exists doc1 doc2,
    (Sample.run (Parsed (Sample.gpx [t1; t2]))).1
    = [MakeDirs "/data/tour_20240501_120000";
       WriteTree "/data/tour_20240501_120000/deelroute.gpx" doc1;
       WriteTree "/data/tour_20240501_120000/deelroute.gpx" doc2;
       Print "2 deelroutes zijn succesvol gesplitst en opgeslagen in: /data/tour_20240501_120000";
       Print "Geen <wpt> waypoints gevonden; All-Waypoints.gpx niet aangemaakt."] /\
    doc2 = new_gpx_root
             [annotate Sample.float_of_str Sample.str_of_float "#D8A200" t2].
Proof.
  intros t1 t2. eexists _, _. split; vm_compute; reflexivity.
Qed.

(** ** Further properties of a run *)


(** X14: the document of a track. In a run that parsed [root] and
    returned, the [trk] child at position [i] of the root, with ordinal
    [idx] (one more than the number of [trk] children before it), has
    given one write call: to the path derived from its name, of a document
    whose only child is the element that the serialise-and-parse copy
    returned for the track in its annotated state, with the colour of
    [idx]. Between making the folder and this call the run made exactly
    [idx - 1] other calls. *)
Theorem split_gpx_track_document
    (float_of_str : string -> option float) (str_of_float : float -> string)
    (fromstring_tostring : Element -> outcome Element)
    (env : Env) (input_gpx_path : string) (t t' : list Effect)
    (tree : option Element) (root : Element) (i : nat) (c : Element) :
  let target_folder := target_folder_of input_gpx_path (now env) in
  let idx := (1 + tracks_before i (children root))%nat in
  parse env input_gpx_path = Parsed root ->
  split_gpx float_of_str str_of_float fromstring_tostring env
    input_gpx_path t = (t', Done tree) ->
  children root !! i = Some c -> ET.has_tag trk_tag c = true ->
  exists track_copy earlier later,
    fromstring_tostring
      (annotate float_of_str str_of_float (color_of idx) c)
    = Done track_copy /\
    t' = t ++ MakeDirs target_folder :: earlier
           ++ WriteTree (output_path target_folder idx c)
                (new_gpx_root [track_copy])
           :: later /\
    length earlier = tracks_before i (children root) /\
    Forall is_write earlier.
Proof.
  intros target_folder idx Hparse Hrun Hi Hc.
  apply (split_gpx_Done _ _ _ _ _ _ _ _ _ Hparse) in Hrun
    as (_ & docs & wpt & Hdocs & _ & ->).
  fold target_folder in Hdocs |- *.
  pose proof (track_writes_are_writes _ _ _ _ _ _ _ Hdocs) as Hwrites.
  destruct (track_writes_lookup _ _ _ _ _ _ _ _ _ Hdocs Hi Hc)
    as (track_copy & earlier & later & Hcopy & -> & Hlen).
  exists track_copy, earlier. eexists.
  split; [exact Hcopy|]. split; [rewrite <- app_assoc; reflexivity|].
  split; [exact Hlen|].
  apply Forall_app in Hwrites as [H _]. exact H.
Qed.

(** X15: the waypoint document. In a run that parsed [root] and returned,
    the effects after the folder are the track documents, the line about
    the tracks and then: for a root with [wpt] children, one write to
    [All-Waypoints.gpx] in the target folder, of a document whose children
    are what the serialise-and-parse copy returned for exactly those
    children as parsed, in order, and the line that counts them; for a
    root without [wpt] children, only the line that says so. *)
Theorem split_gpx_waypoints_document
    (float_of_str : string -> option float) (str_of_float : float -> string)
    (fromstring_tostring : Element -> outcome Element)
    (env : Env) (input_gpx_path : string) (t t' : list Effect)
    (tree : option Element) (root : Element) :
  let target_folder := target_folder_of input_gpx_path (now env) in
  parse env input_gpx_path = Parsed root ->
  split_gpx float_of_str str_of_float fromstring_tostring env
    input_gpx_path t = (t', Done tree) ->
  exists docs,
    track_writes float_of_str str_of_float fromstring_tostring
      target_folder 1 (children root) = Done docs /\
    match ET.findall wpt_tag root with
    | [] =>
        t' = t ++ MakeDirs target_folder :: docs
               ++ [Print (tracks_line target_folder root);
                   Print "Geen <wpt> waypoints gevonden; All-Waypoints.gpx niet aangemaakt."]
    | wpts =>
        exists copies,
          Forall2 (fun w w_copy => fromstring_tostring w = Done w_copy)
            wpts copies /\
          t' = t ++ MakeDirs target_folder :: docs
                 ++ [Print (tracks_line target_folder root);
                     WriteTree
                       (os_path.join target_folder "All-Waypoints.gpx")
                       (new_gpx_root copies);
                     Print (pretty (length wpts)
                            +:+ " waypoints opgeslagen in: "
                            +:+ os_path.join target_folder
                                  "All-Waypoints.gpx")]
    end.
Proof.
  intros target_folder Hparse Hrun.
  apply (split_gpx_Done _ _ _ _ _ _ _ _ _ Hparse) in Hrun
    as (_ & docs & wpt & Hdocs & Hwpt & ->).
  fold target_folder in Hdocs, Hwpt |- *.
  exists docs. split; [exact Hdocs|].
  unfold waypoint_effects, waypoints_line in Hwpt.
  destruct (ET.findall wpt_tag root) as [|w ws].
  - injection Hwpt as <-. reflexivity.
  - destruct (mapM fromstring_tostring (w :: ws)) as [copies| |] eqn:Hcopies;
      try discriminate.
    injection Hwpt as <-. exists copies.
    split; [apply mapM_Done_Forall2, Hcopies | reflexivity].
Qed.

(** X16: the report of a run that parsed [root] and returned: after
    making the target folder, the one folder it makes, it has printed two
    lines: the first with the number of [trk] children of the root (or
    that there are none), the second with the number of [wpt] children and
    the waypoint file (or that there are none and no file was made). *)
Theorem split_gpx_report
    (float_of_str : string -> option float) (str_of_float : float -> string)
    (fromstring_tostring : Element -> outcome Element)
    (env : Env) (input_gpx_path : string) (t t' : list Effect)
    (tree : option Element) (root : Element) :
  let target_folder := target_folder_of input_gpx_path (now env) in
  parse env input_gpx_path = Parsed root ->
  split_gpx float_of_str str_of_float fromstring_tostring env
    input_gpx_path t = (t', Done tree) ->
  exists effects,
    t' = t ++ MakeDirs target_folder :: effects /\
    printed effects
      = [tracks_line target_folder root; waypoints_line target_folder root] /\
    Forall (fun ev => forall d, ev <> MakeDirs d) effects.
Proof.
  intros target_folder Hparse Hrun.
  apply (split_gpx_Done _ _ _ _ _ _ _ _ _ Hparse) in Hrun
    as (_ & docs & wpt & Hdocs & Hwpt & ->).
  fold target_folder in Hdocs, Hwpt |- *.
  pose proof (track_writes_are_writes _ _ _ _ _ _ _ Hdocs) as Hwrites.
  eexists. split; [reflexivity|].
  assert (Hwpt' : printed wpt = [waypoints_line target_folder root] /\
                  Forall (fun ev => forall d, ev <> MakeDirs d) wpt).
  { unfold waypoint_effects in Hwpt.
    destruct (ET.findall wpt_tag root).
    - injection Hwpt as <-. split; [reflexivity|].
      repeat constructor; discriminate.
    - destruct (mapM fromstring_tostring _); try discriminate.
      injection Hwpt as <-. split; [reflexivity|].
      repeat constructor; discriminate. }
  destruct Hwpt' as [Hprinted Hno]. split.
  - rewrite printed_app, (printed_writes docs Hwrites).
    change (printed (Print (tracks_line target_folder root) :: wpt))
      with (tracks_line target_folder root :: printed wpt).
    rewrite Hprinted. reflexivity.
  - apply Forall_app. split.
    + eapply Forall_impl; [exact Hwrites|].
      intros ev (path & doc & ->) d. discriminate.
    + constructor; [discriminate | exact Hno].
Qed.

(** X17: [main] touches the file system only through [split_gpx].
    However it ends, it calls [os.makedirs] only for a non-empty [--input]
    that names an existing file, and calls a write only when that file
    was parsed. Without the option or with an empty value it prints the
    help text and the usage and returns; with a path that is no file it
    prints the error line and the help text and returns (when [print]
    goes through). *)
Theorem main_effects
    (float_of_str : string -> option float) (str_of_float : float -> string)
    (fromstring_tostring : Element -> outcome Element)
    (help_text argparse_help : string) (isfile : string -> bool)
    (env : Env) (input : option string) (t : list Effect) :
  let run :=
    main float_of_str str_of_float fromstring_tostring help_text
      argparse_help isfile env input t in
  exists effects,
    run.1 = t ++ effects /\
    ((exists d, MakeDirs d ∈ effects) ->
     exists path,
       input = Some path /\ Str.truthy path = true /\ isfile path = true) /\
    ((exists path doc, WriteTree path doc ∈ effects) ->
     exists path root,
       input = Some path /\ isfile path = true /\
       parse env path = Parsed root) /\
    (prints_succeed env -> opt_truthy input = false ->
     run = (t ++ [Print help_text; Print argparse_help], Done None)) /\
    (prints_succeed env ->
     opt_truthy input = true -> isfile (default "" input) = false ->
     run = (t ++ [Print ("Fout: Het opgegeven GPX-bestand bestaat niet."
                         +:+ String "010"%char "");
                  Print help_text],
            Done None)).
Proof.
  intros run. subst run.
  set (P := fun ev : Effect =>
    ((exists d, ev = MakeDirs d) ->
     exists path,
       input = Some path /\ Str.truthy path = true /\ isfile path = true) /\
    ((exists path doc, ev = WriteTree path doc) ->
     exists path root,
       input = Some path /\ isfile path = true /\
       parse env path = Parsed root)).
  assert (Hprint : forall line, P (Print line)).
  { intros line. split; [intros (d & H) | intros (p & doc & H)];
      discriminate H. }
  assert (Hprints : forall l1 l2 : string,
            emits P (_ ← print env l1; _ ← print env l2;
                     mret (@None Element))).
  { intros l1 l2. apply emits_bind; [apply emits_print, Hprint | intros _].
    apply emits_bind; [apply emits_print, Hprint | intros _].
    apply emits_ret. }
  assert (Hmain : emits P (main float_of_str str_of_float
                             fromstring_tostring help_text argparse_help
                             isfile env input)).
  { unfold main. destruct input as [path|]; cbn [opt_truthy negb];
      [|apply Hprints].
    change (default "" (Some path)) with path.
    destruct (Str.truthy path) eqn:Hin; cbn [negb]; [|apply Hprints].
    destruct (isfile path) eqn:Hfile; cbn [negb]; [|apply Hprints].
    destruct (parse env path) as [root|e|e] eqn:Hparse.
    - eapply emits_impl; [|apply split_gpx_emits].
      intros ev _. split; intros _; eauto.
    - unfold split_gpx. rewrite Hparse. cbn zeta.
      apply emits_bind; [apply emits_makedirs | intros _].
      + split; [intros _; eauto | intros (p & doc & H); discriminate H].
      + apply emits_bind; [apply emits_print, Hprint | intros _].
        apply emits_ret.
    - unfold split_gpx. rewrite Hparse. cbn zeta.
      apply emits_bind; [apply emits_makedirs | intros _].
      + split; [intros _; eauto | intros (p & doc & H); discriminate H].
      + apply emits_bind; [apply emits_print, Hprint | intros _].
        apply emits_ret. }
  destruct (Hmain t) as (effects & Heffects & HP).
  rewrite Forall_forall in HP.
  exists effects. split; [exact Heffects|].
  split; [intros (d & Hd); apply (HP _ Hd); eauto|].
  split; [intros (p & doc & Hd); apply (HP _ Hd); eauto|].
  assert (print_two : forall l1 l2 : string,
            prints_succeed env ->
            (_ ← print env l1; _ ← print env l2; mret (@None Element)) t
            = (t ++ [Print l1; Print l2], Done None)).
  { intros l1 l2 Hp. unfold mbind, IO_bind, print, call, mret, IO_ret.
    rewrite !Hp, <- app_assoc. reflexivity. }
  unfold main. split.
  - intros Hp ->. cbn [negb]. apply print_two, Hp.
  - intros Hp -> ->. cbn [negb]. apply print_two, Hp.
Qed.

Lemma filter_no_tag (t : string) (cs : list Element) :
  Forall (fun c => tag c <> t) cs -> List.filter (ET.has_tag t) cs = [].
Proof.
  induction 1 as [|c cs Hc _ IH]; simpl; [reflexivity|].
  unfold ET.has_tag at 1. rewrite bool_decide_false by exact Hc. exact IH.
Qed.

Lemma positions_from_no_tag (t : string) (cs : list Element) :
  Forall (fun c => tag c <> t) cs ->
  forall i, ET.positions_from t i cs = [].
Proof.
  induction 1 as [|c cs Hc _ IH]; intros i; simpl; [reflexivity|].
  unfold ET.has_tag. rewrite bool_decide_false by exact Hc. apply IH.
Qed.

(** X18: an input whose root has no [trk] and no [wpt] child in the GPX
    1.1 namespace (an empty document, or one in another namespace), in an
    environment where [print] goes through: when the target folder can be
    made, the run makes it, prints the two lines that say so and returns,
    with the parse tree as parsed; it calls no write. When [os.makedirs]
    raises, the run ends with that exception and no other call. *)
Theorem split_gpx_nothing_to_split
    (float_of_str : string -> option float) (str_of_float : float -> string)
    (fromstring_tostring : Element -> outcome Element)
    (env : Env) (input_gpx_path : string) (t : list Effect)
    (root : Element) :
  let target_folder := target_folder_of input_gpx_path (now env) in
  parse env input_gpx_path = Parsed root ->
  Forall (fun c => tag c <> trk_tag /\ tag c <> wpt_tag) (children root) ->
  prints_succeed env ->
  split_gpx float_of_str str_of_float fromstring_tostring env
    input_gpx_path t
  = match makedirs_error env t target_folder with
    | Some exn => (t ++ [MakeDirs target_folder], Raise exn)
    | None =>
        (t ++ [MakeDirs target_folder;
               Print "Geen <trk> deelroutes gevonden in het GPX-bestand.";
               Print "Geen <wpt> waypoints gevonden; All-Waypoints.gpx niet aangemaakt."],
         Done (Some root))
    end.
Proof.
  intros target_folder Hparse Hnone Hp.
  assert (Htrk : Forall (fun c => tag c <> trk_tag) (children root))
    by (eapply Forall_impl; [exact Hnone | intros c [H _]; exact H]).
  assert (Hwpt : Forall (fun c => tag c <> wpt_tag) (children root))
    by (eapply Forall_impl; [exact Hnone | intros c [_ H]; exact H]).
  rewrite split_gpx_cases. fold target_folder.
  destruct (makedirs_error env t target_folder); [reflexivity|].
  rewrite Hparse. unfold split_parsed, ET.findall_pos. fold trk_tag.
  rewrite (positions_from_no_tag trk_tag _ Htrk).
  unfold mbind, IO_bind, print, call, mret, IO_ret. rewrite Hp.
  unfold write_all_waypoints, ET.findall.
  fold wpt_tag. rewrite (filter_no_tag wpt_tag _ Hwpt).
  unfold print, call. rewrite Hp, <- !app_assoc. reflexivity.
Qed.

Lemma split_gpx_nothing_to_split_witness :
  let root :=
    Elem "gpx" [("version", "1.0")] None None
      [Elem "trk" [] None None [Elem "name" [] (Some "Etappe 1") None []];
       Elem "wpt" [("lat", "1"); ("lon", "2")] None None []] in
  Sample.run (Parsed root)
  = ([] ++
     [MakeDirs "/data/tour_20240501_120000";
      Print "Geen <trk> deelroutes gevonden in het GPX-bestand.";
      Print "Geen <wpt> waypoints gevonden; All-Waypoints.gpx niet aangemaakt."],
     Done (Some root)).
Proof.
  intros root.
  apply (split_gpx_nothing_to_split Sample.float_of_str Sample.str_of_float
           Sample.fromstring_tostring (Sample.env_with (Parsed root))
           "/data/tour.gpx" [] root eq_refl);
    [repeat constructor; discriminate | intros u line; reflexivity].
Defined.

(** X19: a track whose copy does not parse. When the folder can be made,
    the writes go through and the copies of the tracks before the [trk]
    child [c] parse, but the copy of [c] raises (as it does with
    [ParseError] when [c] has a tail that is not white space only), the
    run ends with that exception: it has made the folder and written the
    documents of the tracks before [c], and has made no other call; no
    later track and no waypoint is written and nothing is printed. *)
Theorem split_gpx_copy_failure
    (float_of_str : string -> option float) (str_of_float : float -> string)
    (fromstring_tostring : Element -> outcome Element)
    (env : Env) (input_gpx_path : string) (t docs : list Effect)
    (root : Element) (pre post : list Element) (c : Element)
    (exn : string) :
  let target_folder := target_folder_of input_gpx_path (now env) in
  let idx := (1 + tracks_before (length pre) (children root))%nat in
  parse env input_gpx_path = Parsed root ->
  makedirs_error env t target_folder = None ->
  writes_succeed env ->
  children root = pre ++ c :: post ->
  ET.has_tag trk_tag c = true ->
  track_writes float_of_str str_of_float fromstring_tostring target_folder
    1 pre = Done docs ->
  fromstring_tostring (annotate float_of_str str_of_float (color_of idx) c)
  = Raise exn ->
  split_gpx float_of_str str_of_float fromstring_tostring env
    input_gpx_path t
  = (t ++ MakeDirs target_folder :: docs, Raise exn).
Proof.
  intros target_folder idx Hparse Hmk Hw Hcs Hc Hdocs Hcopy.
  rewrite split_gpx_cases. fold target_folder. rewrite Hmk, Hparse.
  unfold split_parsed. fold trk_tag. cbn zeta.
  pose proof (track_loop_copy_raises float_of_str str_of_float
                fromstring_tostring env target_folder root pre post c
                (t ++ [MakeDirs target_folder]) docs exn Hw Hcs Hc Hdocs
                Hcopy) as Hloop.
  destruct (ET.findall_pos trk_tag root) as [|i tracks] eqn:Hpos.
  - discriminate Hloop.
  - unfold mbind, IO_bind. rewrite Hloop, <- app_assoc. reflexivity.
Qed.

(** X20: a track whose document cannot be written. When the folder can
    be made, the tracks before the [trk] child [c] are copied and written
    and the copy of [c] parses, but the write of its document raises (as
    it does with [OSError] when the sanitised name is too long for a file
    name), the run ends with that exception: it has made the folder,
    written the documents of the tracks before [c] and made the failing
    call, and nothing else; no later track and no waypoint is written and
    nothing is printed. *)
Theorem split_gpx_write_failure
    (float_of_str : string -> option float) (str_of_float : float -> string)
    (fromstring_tostring : Element -> outcome Element)
    (env : Env) (input_gpx_path : string) (t docs : list Effect)
    (root : Element) (pre post : list Element) (c track_copy : Element)
    (exn : string) :
  let target_folder := target_folder_of input_gpx_path (now env) in
  let idx := (1 + tracks_before (length pre) (children root))%nat in
  let failing :=
    WriteTree (output_path target_folder idx c) (new_gpx_root [track_copy]) in
  parse env input_gpx_path = Parsed root ->
  makedirs_error env t target_folder = None ->
  children root = pre ++ c :: post ->
  ET.has_tag trk_tag c = true ->
  track_writes float_of_str str_of_float fromstring_tostring target_folder
    1 pre = Done docs ->
  (forall k path doc, docs !! k = Some (WriteTree path doc) ->
     write_error env (t ++ MakeDirs target_folder :: take k docs) path doc
     = None) ->
  fromstring_tostring (annotate float_of_str str_of_float (color_of idx) c)
  = Done track_copy ->
  write_error env (t ++ MakeDirs target_folder :: docs)
    (output_path target_folder idx c) (new_gpx_root [track_copy])
  = Some exn ->
  split_gpx float_of_str str_of_float fromstring_tostring env
    input_gpx_path t
  = (t ++ MakeDirs target_folder :: docs ++ [failing], Raise exn).
Proof.
  intros target_folder idx failing Hparse Hmk Hcs Hc Hdocs Hw Hcopy Hwrite.
  rewrite split_gpx_cases. fold target_folder. rewrite Hmk, Hparse.
  unfold split_parsed. fold trk_tag. cbn zeta.
  assert (Hloop :
    track_loop float_of_str str_of_float fromstring_tostring env
      target_folder 1 (ET.findall_pos trk_tag root) root
      (t ++ [MakeDirs target_folder])
    = ((t ++ [MakeDirs target_folder]) ++ docs ++ [failing], Raise exn)).
  { apply (track_loop_write_raises float_of_str str_of_float
             fromstring_tostring env target_folder root pre post c
             track_copy); try assumption.
    - intros k path doc Hk. rewrite <- app_assoc. apply Hw, Hk.
    - rewrite <- app_assoc. exact Hwrite. }
  destruct (ET.findall_pos trk_tag root) as [|i tracks] eqn:Hpos.
  - discriminate Hloop.
  - unfold mbind, IO_bind. rewrite Hloop, <- app_assoc. reflexivity.
Qed.

(** A sample input: two named tracks and one waypoint. *)
Definition sample_root : Element :=
  Sample.gpx
    [Sample.trk (Some "A") [Sample.trkpt "10" "20"];
     Sample.trk (Some "B") [Sample.trkpt "12" "18"];
     Sample.wpt "1" "2"].

(** The same input with a second track whose name has 256 letters. *)
Definition sample_root_long_name : Element :=
  Sample.gpx
    [Sample.trk (Some "A") [Sample.trkpt "10" "20"];
     Sample.trk (Some (String.concat "" (replicate 32 "abcdefgh")))
       [Sample.trkpt "12" "18"];
     Sample.wpt "1" "2"].

(** The same input with text after the end of the second track. *)
Definition sample_root_with_tail : Element :=
  Sample.gpx
    [Sample.trk (Some "A") [Sample.trkpt "10" "20"];
     Elem (qname GPX_NS "trk") [] None (Some "junk")
       [Elem (qname GPX_NS "name") [] (Some "B") None []];
     Sample.wpt "1" "2"].

Lemma split_gpx_track_document_witness :
  let track := Sample.trk (Some "B") [Sample.trkpt "12" "18"] in
  exists track_copy earlier later,
    Sample.fromstring_tostring
      (annotate Sample.float_of_str Sample.str_of_float
         (color_of (1 + tracks_before 1 (children sample_root))) track)
    = Done track_copy /\
    (Sample.run (Parsed sample_root)).1
    = [] ++ MakeDirs "/data/tour_20240501_120000" :: earlier
         ++ WriteTree
              (output_path "/data/tour_20240501_120000"
                 (1 + tracks_before 1 (children sample_root)) track)
              (new_gpx_root [track_copy])
         :: later /\
    length earlier = tracks_before 1 (children sample_root) /\
    Forall is_write earlier.
Proof.
  intros track.
  apply (split_gpx_track_document Sample.float_of_str Sample.str_of_float
           Sample.fromstring_tostring
           (Sample.env_with (Parsed sample_root)) "/data/tour.gpx" []
           (Sample.run (Parsed sample_root)).1
           (Some (tree_after Sample.float_of_str Sample.str_of_float
                    sample_root))
           sample_root 1 track eq_refl);
    [vm_compute; reflexivity | reflexivity | reflexivity].
Defined.

Lemma split_gpx_waypoints_document_witness :
  exists docs,
    track_writes Sample.float_of_str Sample.str_of_float
      Sample.fromstring_tostring "/data/tour_20240501_120000" 1
      (children sample_root) = Done docs /\
    exists copies,
      Forall2 (fun w w_copy => Sample.fromstring_tostring w = Done w_copy)
        [Sample.wpt "1" "2"] copies /\
      (Sample.run (Parsed sample_root)).1
      = [] ++ MakeDirs "/data/tour_20240501_120000" :: docs
           ++ [Print "2 deelroutes zijn succesvol gesplitst en opgeslagen in: /data/tour_20240501_120000";
               WriteTree "/data/tour_20240501_120000/All-Waypoints.gpx"
                 (new_gpx_root copies);
               Print "1 waypoints opgeslagen in: /data/tour_20240501_120000/All-Waypoints.gpx"].
Proof.
  apply (split_gpx_waypoints_document Sample.float_of_str Sample.str_of_float
           Sample.fromstring_tostring
           (Sample.env_with (Parsed sample_root)) "/data/tour.gpx" []
           (Sample.run (Parsed sample_root)).1
           (Some (tree_after Sample.float_of_str Sample.str_of_float
                    sample_root))
           sample_root eq_refl).
  vm_compute. reflexivity.
Defined.

Lemma split_gpx_report_witness :
  exists effects,
    (Sample.run (Parsed sample_root)).1
    = [] ++ MakeDirs "/data/tour_20240501_120000" :: effects /\
    printed effects
    = ["2 deelroutes zijn succesvol gesplitst en opgeslagen in: /data/tour_20240501_120000";
       "1 waypoints opgeslagen in: /data/tour_20240501_120000/All-Waypoints.gpx"] /\
    Forall (fun ev => forall d, ev <> MakeDirs d) effects.
Proof.
  apply (split_gpx_report Sample.float_of_str Sample.str_of_float
           Sample.fromstring_tostring
           (Sample.env_with (Parsed sample_root)) "/data/tour.gpx" []
           (Sample.run (Parsed sample_root)).1
           (Some (tree_after Sample.float_of_str Sample.str_of_float
                    sample_root))
           sample_root eq_refl).
  vm_compute. reflexivity.
Defined.

Lemma split_gpx_copy_failure_witness :
  exists track_copy,
    Sample.run (Parsed sample_root_with_tail)
    = ([] ++
       [MakeDirs "/data/tour_20240501_120000";
        WriteTree "/data/tour_20240501_120000/A.gpx"
          (new_gpx_root [track_copy])],
       Raise "ParseError: junk after document element").
Proof.
  eexists.
  apply (split_gpx_copy_failure Sample.float_of_str Sample.str_of_float
           Sample.fromstring_tostring
           (Sample.env_with (Parsed sample_root_with_tail)) "/data/tour.gpx"
           [] _ sample_root_with_tail
           [Sample.trk (Some "A") [Sample.trkpt "10" "20"]]
           [Sample.wpt "1" "2"]
           (Elem (qname GPX_NS "trk") [] None (Some "junk")
              [Elem (qname GPX_NS "name") [] (Some "B") None []])
           "ParseError: junk after document element" eq_refl eq_refl
           (fun _ _ _ => eq_refl) eq_refl eq_refl);
    vm_compute; reflexivity.
Defined.

Lemma split_gpx_write_failure_witness :
  exists first_copy second_copy,
    Sample.split (Sample.env_name_max (Parsed sample_root_long_name))
    = ([] ++
       MakeDirs "/data/tour_20240501_120000"
       :: [WriteTree "/data/tour_20240501_120000/A.gpx"
             (new_gpx_root [first_copy])]
       ++ [WriteTree
             (output_path "/data/tour_20240501_120000"
                (1 + tracks_before 1 (children sample_root_long_name))
                (Sample.trk
                   (Some (String.concat "" (replicate 32 "abcdefgh")))
                   [Sample.trkpt "12" "18"]))
             (new_gpx_root [second_copy])],
       Raise "OSError: [Errno 36] File name too long").
Proof.
  do 2 eexists.
  apply (split_gpx_write_failure Sample.float_of_str Sample.str_of_float
           Sample.fromstring_tostring
           (Sample.env_name_max (Parsed sample_root_long_name))
           "/data/tour.gpx" [] _ sample_root_long_name
           [Sample.trk (Some "A") [Sample.trkpt "10" "20"]]
           [Sample.wpt "1" "2"]
           (Sample.trk (Some (String.concat "" (replicate 32 "abcdefgh")))
              [Sample.trkpt "12" "18"])
           _ "OSError: [Errno 36] File name too long" eq_refl eq_refl
           eq_refl eq_refl);
    [vm_compute; reflexivity
    | intros [|k] path doc Hk; [injection Hk as <- <-; reflexivity
                               | discriminate Hk]
    | vm_compute; reflexivity
    | vm_compute; reflexivity].
Defined.
